(** * Task platform: producer, worker and notification router

    A shallow embedding of the JavaScript sources of the platform:

    - [Js]: the JavaScript values the services exchange (parsed JSON,
      truthiness, template-literal conversion, property reads);
    - [Producer]: [queue/producer.js] ([addTaskToQueue]) on top of a model of
      the queue store and its dispatcher;
    - [Routes]: [routes/tasks.js] ([validateTask], the [POST /api/tasks]
      handler);
    - [Worker]: [worker.js] and [processors/taskProcessor.js];
    - [Subscriber]: [pubsub/subscriber.js].

    The queue library, to which the producer adds jobs and from which the
    worker receives them, is not part of the sources; the little of it the
    properties need (the store, the dispatch order, the retry and its
    backoff) is modelled from the specification and marked as such.

    Clock readings and random numbers are inputs of the embedding (record
    [Ambient]), timers have no effect in it, and console output is kept only
    where it is an error or a warning.  The properties come after the
    definitions, in the modules whose names end in [Facts]. *)

From Stdlib Require Import ZArith List String Ascii Bool Lia.
From Stdlib Require Import Sorted Permutation DecimalString.
Import ListNotations.
Set Warnings "-register-all".
Open Scope string_scope.
Open Scope Z_scope.

(** ** JavaScript values *)

Module Js.

(** Values as the services see them.  Numbers are integers: the embedding
    covers messages and job data whose numbers are integral.  [JUndefined] is
    the value of a missing property; [JSON.parse] never produces it. *)
Inductive JsVal : Type :=
| JUndefined
| JNull
| JBool (b : bool)
| JNum (n : Z)
| JStr (s : string)
| JArr (l : list JsVal)
| JObj (o : list (string * JsVal)).

(** A computation that may throw; the payload of [Throw] is [error.message]. *)
Inductive Res (A : Type) : Type :=
| Ok (a : A)
| Throw (msg : string).
Arguments Ok {A} a.
Arguments Throw {A} msg.

Definition bind {A B} (r : Res A) (k : A -> Res B) : Res B :=
  match r with
  | Ok a => k a
  | Throw m => Throw m
  end.

(** Own property [k] of an object literal; when a key is repeated the last
    binding wins, as in [JSON.parse]. *)
Fixpoint own (k : string) (o : list (string * JsVal)) : option JsVal :=
  match o with
  | [] => None
  | (k', v) :: r =>
      match own k r with
      | Some v' => Some v'
      | None => if String.eqb k k' then Some v else None
      end
  end.

(** [d.k] for the property names the sources read (none of them lives on a
    prototype): a [TypeError] on [null] and [undefined], the own property of
    an object, [undefined] otherwise. *)
Definition get (d : JsVal) (k : string) : Res JsVal :=
  match d with
  | JUndefined => Throw ("Cannot read properties of undefined (reading '" ++ k ++ "')")
  | JNull => Throw ("Cannot read properties of null (reading '" ++ k ++ "')")
  | JObj o => Ok (match own k o with Some v => v | None => JUndefined end)
  | _ => Ok JUndefined
  end.

(** ToBoolean. *)
Definition truthy (v : JsVal) : bool :=
  match v with
  | JUndefined | JNull => false
  | JBool b => b
  | JNum n => negb (n =? 0)
  | JStr s => negb (String.eqb s "")
  | JArr _ | JObj _ => true
  end.

(** [a || b]. *)
Definition js_or (a b : JsVal) : JsVal := if truthy a then a else b.

(** [v !== 'anonymous'] and the like: strict inequality with a string. *)
Definition strict_neq_str (v : JsVal) (s : string) : bool :=
  match v with
  | JStr s' => negb (String.eqb s' s)
  | _ => true
  end.

Definition string_of_Z (n : Z) : string :=
  NilZero.string_of_int (Z.to_int n).

Fixpoint join (sep : string) (l : list string) : string :=
  match l with
  | [] => ""
  | [s] => s
  | s :: r => s ++ sep ++ join sep r
  end.

Fixpoint sequence {A} (l : list (Res A)) : Res (list A) :=
  match l with
  | [] => Ok []
  | r :: rest => bind r (fun a => bind (sequence rest) (fun t => Ok (a :: t)))
  end.

(** ToString, as a template literal applies it.  An object built by
    [JSON.parse] converts to ["[object Object]"] unless it has an own
    property [toString] (never callable there), in which case the conversion
    throws; an array joins the conversions of its elements with [","],
    [null] and [undefined] elements giving the empty string. *)
Fixpoint to_string (v : JsVal) : Res string :=
  match v with
  | JUndefined => Ok "undefined"
  | JNull => Ok "null"
  | JBool true => Ok "true"
  | JBool false => Ok "false"
  | JNum n => Ok (string_of_Z n)
  | JStr s => Ok s
  | JArr l =>
      bind (sequence (map (fun e => match e with
                                    | JUndefined | JNull => Ok ""
                                    | _ => to_string e
                                    end) l))
           (fun parts => Ok (join "," parts))
  | JObj o =>
      match own "toString" o with
      | Some _ => Throw "Cannot convert object to primitive value"
      | None => Ok "[object Object]"
      end
  end.

(** What [JSON.stringify] keeps of a value: properties whose value is
    [undefined] are dropped, [undefined] array elements become [null]. *)
Fixpoint jsonify (v : JsVal) : JsVal :=
  match v with
  | JArr l => JArr (map (fun e => match e with
                                  | JUndefined => JNull
                                  | _ => jsonify e
                                  end) l)
  | JObj o =>
      JObj ((fix props (o : list (string * JsVal)) : list (string * JsVal) :=
               match o with
               | [] => []
               | (k, JUndefined) :: r => props r
               | (k, e) :: r => (k, jsonify e) :: props r
               end) o)
  | _ => v
  end.

(** A message on the wire.  The text of a message is not modelled: a
    message is either the serialization of a value, or text that
    [JSON.parse] rejects. *)
Inductive Wire : Type :=
| Serialized (v : JsVal)
| Garbage (raw : string).

Definition JSON_stringify (v : JsVal) : Wire := Serialized (jsonify v).

Definition JSON_parse (m : Wire) : Res JsVal :=
  match m with
  | Serialized v => Ok v
  | Garbage raw => Throw "Unexpected token in JSON"
  end.

(** [{...o, k: v}]: a later property replaces an earlier one of the same
    name, and new names go last. *)
Fixpoint set_prop (k : string) (v : JsVal) (o : list (string * JsVal))
  : list (string * JsVal) :=
  match o with
  | [] => [(k, v)]
  | (k', v') :: r =>
      if String.eqb k k' then (k', v) :: r else (k', v') :: set_prop k v r
  end.

End Js.

(** ** Stateful code that may throw *)

Module Eff.
Import Js.

(** A statement sequence over a mutable state [S]: it returns or throws, and
    the state changes made before a throw stay. *)
Definition M (S A : Type) : Type := S -> Res A * S.

Definition ret {S A} (a : A) : M S A := fun s => (Ok a, s).

Definition throw {S A} (msg : string) : M S A := fun s => (Throw msg, s).

Definition bind {S A B} (m : M S A) (k : A -> M S B) : M S B :=
  fun s =>
    match m s with
    | (Ok a, s') => k a s'
    | (Throw e, s') => (Throw e, s')
    end.

(** An expression that may throw, evaluated inside a statement sequence. *)
Definition lift {S A} (r : Res A) : M S A := fun s => (r, s).

Definition gets {S A} (f : S -> A) : M S A := fun s => (Ok (f s), s).

Definition modify {S} (f : S -> S) : M S unit := fun s => (Ok tt, f s).

(** [try { m } catch (error) { h error.message }]. *)
Definition try_catch {S A} (m : M S A) (h : string -> M S A) : M S A :=
  fun s =>
    match m s with
    | (Ok a, s') => (Ok a, s')
    | (Throw e, s') => h e s'
    end.

(** [for (let i = start; cond(i); i = step(i)) body(i)], run for at most
    [fuel] rounds. *)
Fixpoint for_loop {S} (fuel : nat) (i : Z) (cond : Z -> bool) (step : Z -> Z)
  (body : Z -> M S unit) : M S unit :=
  match fuel with
  | O => ret tt
  | S fuel' =>
      if cond i then bind (body i) (fun _ => for_loop fuel' (step i) cond step body)
      else ret tt
  end.

(** A template literal or [console.log] argument is evaluated for the
    conversion it performs; the line printed is not kept. *)
Definition log_value {S} (v : JsVal) : M S unit :=
  bind (lift (to_string v)) (fun _ => ret tt).

(** Partial correctness with one postcondition for a normal return and one
    for a throw. *)
Definition hoare {S A} (P : S -> Prop) (m : M S A)
  (Q : A -> S -> Prop) (E : string -> S -> Prop) : Prop :=
  forall s, P s ->
    match m s with
    | (Ok a, s') => Q a s'
    | (Throw e, s') => E e s'
    end.

(** A statement that keeps [P] whatever its outcome. *)
Definition preserves {S A} (P : S -> Prop) (m : M S A) : Prop :=
  hoare P m (fun _ => P) (fun _ => P).

End Eff.

Declare Scope eff_scope.
Delimit Scope eff_scope with eff.
Notation "x <- m ;; k" := (Eff.bind m (fun x => k))
  (at level 61, m at next level, right associativity) : eff_scope.
Notation "m ;;; k" := (Eff.bind m (fun _ => k))
  (at level 61, right associativity) : eff_scope.

(** ** What the services read from their surroundings *)

Module Env.

(** One reading of the clock and of the random source per run, and the
    maximum the queue library lets a retry delay reach (the options in the
    sources name none). *)
Record Ambient : Type := {
  now_ms : Z;                (* Date.now() *)
  now_iso : string;          (* new Date().toISOString() *)
  toISOString : Z -> string; (* ms |-> new Date(ms).toISOString() *)
  elapsed_ms : Z;            (* Date.now() - startTime in the worker *)
  random36 : string;         (* Math.random().toString(36).substr(2, 9) *)
  random_floor : Z -> Z;     (* n |-> Math.floor(Math.random() * n) *)
  WORKER_NAME : string;      (* process.env.WORKER_NAME || `worker-${pid}` *)
  max_backoff_delay : Z      (* the cap on a retry delay, in ms *)
}.

End Env.

(** ** The queue and the producer ([queue/producer.js]) *)

Module Producer.
Import Js Env.

Record KeepJobs : Type := { keep_count : Z; keep_age : Z }.

Record BackoffOptions : Type := {
  backoff_type : string;
  backoff_delay : Z
}.

(** The options a job carries: those [addTaskToQueue] passes ([priority],
    [jobId]) over the queue's [defaultJobOptions]. *)
Record JobsOptions : Type := {
  priority : Z;
  jobId : string;
  attempts : Z;
  backoff : BackoffOptions;
  removeOnComplete : KeepJobs;
  removeOnFail : KeepJobs
}.

(** [job.data].  [addTaskToQueue] sets [type], [data], [userId] and
    [createdAt], with [None] for an [undefined] user id.  The processors read
    further properties of [job.data]: [jd_recordCount] and [jd_operations]
    are the two that steer their loops, [jd_props] holds any others;
    [addTaskToQueue] sets none of them. *)
Record JobData : Type := {
  jd_type : string;
  jd_data : JsVal;
  jd_userId : option string;
  jd_createdAt : string;
  jd_recordCount : option Z;
  jd_operations : option (list string);
  jd_props : list (string * JsVal)
}.

(** A job of the queue.  [seq] is the insertion sequence number the store
    assigns. *)
Record Job : Type := {
  id : string;
  name : string;
  data : JobData;
  opts : JobsOptions;
  attemptsMade : Z;
  progress : Z;
  processedOn : option Z;
  seq : nat
}.

(** The [defaultJobOptions] of [taskQueue]. *)
Definition default_attempts : Z := 3.
Definition default_backoff : BackoffOptions :=
  {| backoff_type := "exponential"; backoff_delay := 2000 |}.
Definition default_removeOnComplete : KeepJobs :=
  {| keep_count := 1000; keep_age := 24 * 3600 |}.
Definition default_removeOnFail : KeepJobs :=
  {| keep_count := 5000; keep_age := 7 * 24 * 3600 |}.

(** Modelled from the spec: the queue store is the queue library's and is not
    in the sources.  It holds the queued jobs in insertion order and numbers
    them with an increasing sequence number.  [store_up] tells whether the
    store accepts commands.  Job ids are taken as fresh: a collision of ids is
    not modelled. *)
Record Queue : Type := {
  waiting : list Job;
  next_seq : nat;
  store_up : bool
}.

Definition empty_queue : Queue :=
  {| waiting := []; next_seq := 0%nat; store_up := true |}.

(** Modelled from the spec: [enqueue] of the queue store, called as
    [taskQueue.add(name, data, opts)].  The new job is queued last, with the
    next sequence number, no attempt made and progress 0. *)
Definition Queue_add (nm : string) (d : JobData) (prio : Z) (jid : string)
  (q : Queue) : Res Job * Queue :=
  if store_up q then
    let job := {| id := jid;
                  name := nm;
                  data := d;
                  opts := {| priority := prio;
                             jobId := jid;
                             attempts := default_attempts;
                             backoff := default_backoff;
                             removeOnComplete := default_removeOnComplete;
                             removeOnFail := default_removeOnFail |};
                  attemptsMade := 0;
                  progress := 0;
                  processedOn := None;
                  seq := next_seq q |} in
    (Ok job, {| waiting := waiting q ++ [job];
                next_seq := S (next_seq q);
                store_up := true |})
  else (Throw "Connection is closed.", q).

(** The priority value the queue holds for a job. *)
Definition prio (j : Job) : Z := priority (opts j).

(** Modelled from the spec: the order in which the dispatcher prefers the
    queued jobs: the lowest numeric priority value first and, among equal
    values, the earliest insertion sequence number (the source says the same
    of the library: "lower number = higher priority"). *)
Definition precedes (a b : Job) : bool :=
  (prio a <? prio b) || ((prio a =? prio b) && (seq a <=? seq b)%nat).

(** Modelled from the spec: the dispatcher's choice among the queued jobs.
    [extract_min l] is the job that precedes all others, and the jobs left,
    in their order. *)
Fixpoint extract_min (l : list Job) : option (Job * list Job) :=
  match l with
  | [] => None
  | j :: rest =>
      match extract_min rest with
      | None => Some (j, [])
      | Some (m, rest') =>
          if precedes j m
          then Some (j, rest)
          else Some (m, j :: rest')
      end
  end.

(** Modelled from the spec: one dispatch, the chosen job leaving the queued
    jobs. *)
Definition dispatch (q : Queue) : option (Job * Queue) :=
  match extract_min (waiting q) with
  | None => None
  | Some (j, rest) =>
      Some (j, {| waiting := rest; next_seq := next_seq q; store_up := store_up q |})
  end.

(** The jobs in the order in which successive dispatches hand them out, no
    job being added meanwhile. *)
Fixpoint dispatch_n (fuel : nat) (q : Queue) : list Job :=
  match fuel with
  | O => []
  | S fuel' =>
      match dispatch q with
      | None => []
      | Some (j, q') => j :: dispatch_n fuel' q'
      end
  end.

Definition dispatch_order (q : Queue) : list Job :=
  dispatch_n (List.length (waiting q)) q.

(** [a] is handed out strictly before [b] in [l]. *)
Definition before (a b : Job) (l : list Job) : Prop :=
  exists l1 l2 : list Job, l = (l1 ++ a :: l2)%list /\ In b l2.

(** The argument of [addTaskToQueue]. *)
Record TaskData : Type := {
  td_type : string;
  td_data : JsVal;
  td_priority : option Z;
  td_userId : option string;
  td_createdAt : option string
}.

(** [const { priority = 5 } = taskData]. *)
Definition requested_priority (t : TaskData) : Z :=
  match td_priority t with
  | Some p => p
  | None => 5
  end.

(** [addTaskToQueue]: the job is named after the type, carries
    [{type, data, userId, createdAt}], and is handed to the queue with
    priority [10 - priority] and a generated id.  An error of the queue is
    logged and thrown again. *)
Definition addTaskToQueue (amb : Ambient) (t : TaskData) (q : Queue)
  : Res Job * Queue :=
  let type := td_type t in
  let priority := requested_priority t in
  Queue_add
    type
    {| jd_type := type;
       jd_data := td_data t;
       jd_userId := td_userId t;
       jd_createdAt := now_iso amb;
       jd_recordCount := None;
       jd_operations := None;
       jd_props := [] |}
    (10 - priority)
    (type ++ "-" ++ string_of_Z (now_ms amb) ++ "-" ++ random36 amb)
    q.

(** Tasks added one after the other; the jobs created, in that order.  A task
    the queue rejects creates none. *)
Fixpoint add_all (amb : Ambient) (ts : list TaskData) (q : Queue)
  : list (TaskData * Job) * Queue :=
  match ts with
  | [] => ([], q)
  | t :: rest =>
      match addTaskToQueue amb t q with
      | (Ok j, q') =>
          let (js, q'') := add_all amb rest q' in ((t, j) :: js, q'')
      | (Throw _, q') => add_all amb rest q'
      end
  end.

End Producer.

(** ** Task submission ([routes/tasks.js]) *)

Module Routes.
Import Js Env Producer.

(** The body of a [POST /api/tasks] request, for a client that sends a string
    as [type] (the empty string standing for a missing one, which the
    validator reads as [''] too), an integer as [priority] when it sends one,
    and a string as [userId] when it sends one. *)
Record TaskRequest : Type := {
  body_type : string;
  body_data : JsVal;
  body_priority : option Z;
  body_userId : option string
}.

Definition task_types : list string :=
  ["email"; "report"; "dataProcessing"; "imageProcessing"].

(** [isIn([...])]. *)
Definition isIn (allowed : list string) (s : string) : bool :=
  existsb (String.eqb s) allowed.

(** [isObject()]: an object, neither [null] nor an array. *)
Definition isObject (v : JsVal) : bool :=
  match v with
  | JObj _ => true
  | _ => false
  end.

(** [optional().isInt({ min, max })]. *)
Definition optional_isInt (lo hi : Z) (p : option Z) : bool :=
  match p with
  | None => true
  | Some n => (lo <=? n) && (n <=? hi)
  end.

(** [validateTask] followed by [validationResult(req)]: the messages of the
    checks that fail, in the order of the chain. *)
Definition validateTask (req : TaskRequest) : list string :=
  (if isIn task_types (body_type req) then [] else ["Invalid task type"]) ++
  (if isObject (body_data req) then [] else ["Data must be an object"]) ++
  (if optional_isInt 1 10 (body_priority req) then []
   else ["Priority must be between 1 and 10"]).

Record Response : Type := {
  status : Z;
  body : JsVal
}.

(** [req.body.userId || 'anonymous']. *)
Definition userId_or_anonymous (u : option string) : string :=
  match u with
  | Some s => if String.eqb s "" then "anonymous" else s
  | None => "anonymous"
  end.

(** [const { priority = 5 } = req.body]. *)
Definition priority_or_default (p : option Z) : Z :=
  match p with
  | Some n => n
  | None => 5
  end.

(** The handler of [POST /api/tasks]. *)
Definition post_task (amb : Ambient) (req : TaskRequest) (q : Queue)
  : Response * Queue :=
  match validateTask req with
  | (_ :: _) as errors =>
      ({| status := 400;
          body := JObj [("errors", JArr (map (fun m => JObj [("msg", JStr m)]) errors))] |},
       q)
  | [] =>
      let type := body_type req in
      let data := body_data req in
      let priority := priority_or_default (body_priority req) in
      match addTaskToQueue amb
              {| td_type := type;
                 td_data := data;
                 td_priority := Some priority;
                 td_userId := Some (userId_or_anonymous (body_userId req));
                 td_createdAt := Some (now_iso amb) |} q with
      | (Ok job, q') =>
          ({| status := 201;
              body := JObj [("success", JBool true);
                            ("message", JStr "Task created and queued successfully");
                            ("task", JObj [("id", JStr (id job));
                                           ("type", JStr type);
                                           ("status", JStr "queued");
                                           ("priority", JNum priority);
                                           ("queuedAt", JStr (now_iso amb))])] |},
           q')
      | (Throw msg, q') =>
          ({| status := 500;
              body := JObj [("success", JBool false);
                            ("error", JStr "Failed to create task");
                            ("message", JStr msg)] |},
           q')
      end
  end.

(** The requests [validateTask] lets through. *)
Definition acceptable (req : TaskRequest) : Prop :=
  In (body_type req) task_types /\
  isObject (body_data req) = true /\
  match body_priority req with
  | None => True
  | Some p => 1 <= p <= 10
  end.

End Routes.

(** ** The worker ([worker.js], [processors/taskProcessor.js]) *)

Module Worker.
Import Js Env Producer Eff.
Local Open Scope eff_scope.

(** What one run of the worker's processor function touches: the job object
    (whose [progress] the processor updates), the progress values reported
    to the queue, the events published, the errors printed, and the two
    Redis connections.  [redis_faults] scripts the worker's connection: the
    n-th command sent on it fails when the n-th entry is [true] (a script
    that has run out lets every command through); [pubsub_up] tells whether
    the publishing connection works. *)
Record World : Type := {
  job : Job;
  reports : list Z;
  published : list (string * Wire);
  console_errors : list string;
  redis_faults : list bool;
  pubsub_up : bool
}.

Definition with_progress (p : Z) (j : Job) : Job :=
  {| id := id j; name := name j; data := data j; opts := opts j;
     attemptsMade := attemptsMade j; progress := p;
     processedOn := processedOn j; seq := seq j |}.

Definition with_attemptsMade (a : Z) (j : Job) : Job :=
  {| id := id j; name := name j; data := data j; opts := opts j;
     attemptsMade := a; progress := progress j;
     processedOn := processedOn j; seq := seq j |}.

(** [await job.updateProgress(p)]: the job's progress is set and reported,
    unless the command fails. *)
Definition updateProgress (p : Z) : M World unit :=
  fun w =>
    match redis_faults w with
    | true :: rest =>
        (Throw "Connection is closed.",
         {| job := job w; reports := reports w; published := published w;
            console_errors := console_errors w;
            redis_faults := rest; pubsub_up := pubsub_up w |})
    | faults =>
        (Ok tt,
         {| job := with_progress p (job w);
            reports := reports w ++ [p];
            published := published w;
            console_errors := console_errors w;
            redis_faults := tl faults; pubsub_up := pubsub_up w |})
    end.

(** [console.error(...)]. *)
Definition console_error (line : string) : M World unit :=
  modify (fun w =>
    {| job := job w; reports := reports w; published := published w;
       console_errors := console_errors w ++ [line];
       redis_faults := redis_faults w; pubsub_up := pubsub_up w |}).

(** [publishTaskEvent]: the serialized data goes out on the channel; a
    failure to publish is printed and goes no further. *)
Definition publishTaskEvent (channel : string) (data : JsVal) : M World unit :=
  fun w =>
    if pubsub_up w then
      (Ok tt,
       {| job := job w; reports := reports w;
          published := published w ++ [(channel, JSON_stringify data)];
          console_errors := console_errors w;
          redis_faults := redis_faults w; pubsub_up := true |})
    else console_error "Failed to publish event: Connection is closed." w.

(** [data.k] in a processor, where [data] is [job.data]. *)
Definition prop (j : Job) (k : string) : JsVal :=
  match own k (jd_props (data j)) with
  | Some v => v
  | None => JUndefined
  end.

(** [generateId()]. *)
Definition generateId (amb : Ambient) : string :=
  string_of_Z (now_ms amb) ++ "-" ++ random36 amb.

Definition processEmailTask (amb : Ambient) : M World JsVal :=
  j <- gets job ;;
  log_value (js_or (prop j "recipient") (JStr "user@example.com")) ;;;
  log_value (js_or (prop j "subject") (JStr "Notification")) ;;;
  (* await delay(randomDelay(500, 1500)) *)
  ret (JObj [("status", JStr "sent");
             ("recipient", js_or (prop j "recipient") (JStr "user@example.com"));
             ("subject", js_or (prop j "subject") (JStr "Notification"));
             ("sentAt", JStr (now_iso amb));
             ("messageId", JStr (generateId amb))]).

Definition processReportTask (amb : Ambient) : M World JsVal :=
  j <- gets job ;;
  log_value (js_or (prop j "reportType") (JStr "general")) ;;;
  log_value (js_or (prop j "format") (JStr "PDF")) ;;;
  (* await delay(randomDelay(2000, 4000)) *)
  for_loop 4 20 (fun i => i <=? 80) (fun i => i + 20)
    (fun i => updateProgress i (* ; await delay(500) *)) ;;;
  ret (JObj [("status", JStr "generated");
             ("reportType", js_or (prop j "reportType") (JStr "general"));
             ("format", js_or (prop j "format") (JStr "PDF"));
             ("fileSize", JNum (random_floor amb 5000 + 1000));
             ("downloadUrl",
              JStr ("https://reports.example.com/" ++ generateId amb ++ ".pdf"));
             ("generatedAt", JStr (now_iso amb));
             ("reportId", JStr (generateId amb))]).

(** [data.recordCount || 100]. *)
Definition recordCount_of (j : Job) : Z :=
  match jd_recordCount (data j) with
  | Some n => if n =? 0 then 100 else n
  | None => 100
  end.

(** [Math.min(Math.floor((i / recordCount) * 80) + 10, 90)], in exact
    arithmetic. *)
Definition data_progress (recordCount i : Z) : Z :=
  Z.min ((i * 80) / recordCount + 10) 90.

Definition processDataProcessingTask (amb : Ambient) : M World JsVal :=
  j <- gets job ;;
  log_value (js_or (prop j "batchId") (JStr "unknown")) ;;;
  let recordCount := recordCount_of j in
  for_loop (Z.to_nat recordCount) 0 (fun i => i <? recordCount) (fun i => i + 10)
    (fun i => (* await delay(100) ; *) updateProgress (data_progress recordCount i)) ;;;
  ret (JObj [("status", JStr "processed");
             ("batchId", js_or (prop j "batchId") (JStr (generateId amb)));
             ("recordsProcessed", JNum recordCount);
             ("recordsFailed", JNum (random_floor amb 5));
             ("processingTime", JNum (recordCount * 10));
             ("processedAt", JStr (now_iso amb))]).

(** [data.operations || ['resize', 'compress', 'watermark']]. *)
Definition operations_of (j : Job) : list string :=
  match jd_operations (data j) with
  | Some ops => ops
  | None => ["resize"; "compress"; "watermark"]
  end.

(** [Math.floor(((i + 1) / operations.length) * 80) + 10], in exact
    arithmetic. *)
Definition image_progress (len i : Z) : Z :=
  ((i + 1) * 80) / len + 10.

Definition processImageProcessingTask (amb : Ambient) : M World JsVal :=
  j <- gets job ;;
  log_value (js_or (prop j "imageUrl") (JStr "image.jpg")) ;;;
  let operations := operations_of j in
  let len := Z.of_nat (List.length operations) in
  for_loop (List.length operations) 0 (fun i => i <? len) (fun i => i + 1)
    (fun i => (* await delay(randomDelay(800, 1500)) ; *)
              updateProgress (image_progress len i)) ;;;
  ret (JObj [("status", JStr "processed");
             ("originalImage", js_or (prop j "imageUrl") (JStr "image.jpg"));
             ("processedImage",
              JStr ("https://cdn.example.com/processed/" ++ generateId amb ++ ".jpg"));
             ("operations", JArr (map JStr operations));
             ("dimensions",
              JObj [("width", js_or (prop j "targetWidth") (JNum 1920));
                    ("height", js_or (prop j "targetHeight") (JNum 1080))]);
             ("fileSize", JNum (random_floor amb 2000 + 500));
             ("processedAt", JStr (now_iso amb));
             ("imageId", JStr (generateId amb))]).

(** The [default:] branch of [processTask]. *)
Definition processGenericTask (amb : Ambient) : M World JsVal :=
  j <- gets job ;;
  (* await delay(randomDelay(1000, 2000)) *)
  ret (JObj [("status", JStr "completed");
             ("taskType", JStr (name j));
             ("message", JStr ("Task " ++ name j ++ " completed successfully"));
             ("processedAt", JStr (now_iso amb))]).

(** The task types that have a processor of their own. *)
Definition has_processor (nm : string) : bool :=
  String.eqb nm "email" || String.eqb nm "report" ||
  String.eqb nm "dataProcessing" || String.eqb nm "imageProcessing".

(** [{...result, jobId, taskType, processingStarted, processingCompleted}]. *)
Definition stamp_result (amb : Ambient) (j : Job) (result : JsVal) : JsVal :=
  let o := match result with JObj o => o | _ => [] end in
  JObj (set_prop "processingCompleted" (JStr (now_iso amb))
       (set_prop "processingStarted"
          (JStr (toISOString amb (match processedOn j with
                                  | Some t => if t =? 0 then now_ms amb else t
                                  | None => now_ms amb
                                  end)))
       (set_prop "taskType" (JStr (name j))
       (set_prop "jobId" (JStr (id j)) o)))).

(** [processTask]: the processor of the job's type, or the generic one; an
    error is printed and thrown again as [Task processing failed: ...]. *)
Definition processTask (amb : Ambient) : M World JsVal :=
  j <- gets job ;;
  try_catch
    (result <-
       (if String.eqb (name j) "email" then processEmailTask amb
        else if String.eqb (name j) "report" then processReportTask amb
        else if String.eqb (name j) "dataProcessing" then processDataProcessingTask amb
        else if String.eqb (name j) "imageProcessing" then processImageProcessingTask amb
        else processGenericTask amb) ;;
     ret (stamp_result amb j result))
    (fun msg =>
       console_error ("Error processing task " ++ name j ++ ": " ++ msg) ;;;
       throw ("Task processing failed: " ++ msg)).

(** [userId: job.data.userId]. *)
Definition userId_value (j : Job) : JsVal :=
  match jd_userId (data j) with
  | Some u => JStr u
  | None => JUndefined
  end.

Definition completed_event (amb : Ambient) (j : Job) (result : JsVal) : JsVal :=
  JObj [("jobId", JStr (id j));
        ("taskType", JStr (name j));
        ("userId", userId_value j);
        ("result", result);
        ("duration", JNum (elapsed_ms amb));
        ("completedAt", JStr (now_iso amb));
        ("workerName", JStr (WORKER_NAME amb))].

Definition failed_event (amb : Ambient) (j : Job) (msg : string) : JsVal :=
  JObj [("jobId", JStr (id j));
        ("taskType", JStr (name j));
        ("userId", userId_value j);
        ("error", JStr msg);
        ("attemptsMade", JNum (attemptsMade j + 1));
        ("failedAt", JStr (now_iso amb));
        ("workerName", JStr (WORKER_NAME amb))].

(** The processor function given to [new Worker('tasks', ...)]. *)
Definition processor (amb : Ambient) : M World JsVal :=
  try_catch
    (updateProgress 10 ;;;
     result <- processTask amb ;;
     updateProgress 90 ;;;
     j <- gets job ;;
     publishTaskEvent "task:completed" (completed_event amb j result) ;;;
     updateProgress 100 ;;;
     ret result)
    (fun msg =>
       j <- gets job ;;
       console_error ("Job " ++ id j ++ " failed: " ++ msg) ;;;
       publishTaskEvent "task:failed" (failed_event amb j msg) ;;;
       throw msg).

(** The states of a job record. *)
Inductive JobState : Type :=
| Queued
| Active
| Completed (returnvalue : JsVal)
| Failed (failedReason : string)
| Delayed (nextEligibleAt : Z).

(** Modelled from the spec: the backoff of the queue library, which is not in
    the sources: [delay = baseDelay * 2^(attemptsMade)], capped at a maximum
    delay.  The options of the source give the type and the base delay. *)
Definition backoff_delay_ms (cap : Z) (b : BackoffOptions) (attemptsMade : Z) : Z :=
  Z.min (backoff_delay b * 2 ^ attemptsMade) cap.

(** Modelled from the spec: what the queue library does with the outcome of
    an attempt, which is not in the sources.  On success the job is
    completed.  On an error [attemptsMade] is incremented; the job is delayed
    by the backoff when [attemptsMade < maxAttempts] and failed otherwise. *)
Definition settle (amb : Ambient) (j : Job) (r : Res JsVal) : Job * JobState :=
  match r with
  | Ok result => (j, Completed result)
  | Throw msg =>
      let made := attemptsMade j + 1 in
      let j' := with_attemptsMade made j in
      if made <? attempts (opts j)
      then (j', Delayed (now_ms amb +
                         backoff_delay_ms (max_backoff_delay amb) (backoff (opts j)) made))
      else (j', Failed msg)
  end.

(** One attempt as seen from outside: the progress the job carried when the
    attempt began, the values reported during it, its outcome and the state
    the job is left in. *)
Record Attempt : Type := {
  start_progress : Z;
  reported : list Z;
  outcome : Res JsVal;
  new_events : list (string * Wire);
  state_after : JobState
}.

Definition fresh_logs (w : World) : World :=
  {| job := job w; reports := []; published := [];
     console_errors := console_errors w;
     redis_faults := redis_faults w; pubsub_up := pubsub_up w |}.

Definition with_job (j : Job) (w : World) : World :=
  {| job := j; reports := reports w; published := published w;
     console_errors := console_errors w;
     redis_faults := redis_faults w; pubsub_up := pubsub_up w |}.

(** One attempt on the job of [w], observed from empty logs. *)
Definition run_attempt (amb : Ambient) (w : World) : Attempt * World :=
  let (r, w') := processor amb (fresh_logs w) in
  let (j', st) := settle amb (job w') r in
  ({| start_progress := progress (job w);
      reported := reports w';
      outcome := r;
      new_events := published w';
      state_after := st |},
   with_job j' w').

(** Modelled from the spec: the progress of a job is reset to 0 on each new
    attempt. *)
Definition new_attempt (w : World) : World :=
  with_job (with_progress 0 (job w)) w.

(** Modelled from the spec: a delayed job becomes queued again once its
    backoff has elapsed and is then dispatched for its next attempt, which
    begins with the progress reset; a completed or failed job is not run
    again.  [run_job] lists the attempts of one job, at most [fuel] of
    them. *)
Fixpoint run_job (fuel : nat) (amb : Ambient) (w : World) : list Attempt :=
  match fuel with
  | O => []
  | S fuel' =>
      let (a, w') := run_attempt amb (new_attempt w) in
      match state_after a with
      | Delayed _ => a :: run_job fuel' amb w'
      | _ => [a]
      end
  end.

(** A worker slot that has just received [j], with the given connections. *)
Definition start_world (j : Job) (faults : list bool) (pubsub : bool) : World :=
  {| job := j; reports := []; published := []; console_errors := [];
     redis_faults := faults; pubsub_up := pubsub |}.

(** The world after [updateProgress p] has gone through. *)
Definition progressed (p : Z) (w : World) : World :=
  {| job := with_progress p (job w);
     reports := reports w ++ [p];
     published := published w;
     console_errors := console_errors w;
     redis_faults := tl (redis_faults w);
     pubsub_up := pubsub_up w |}.

(** The result of the generic processor for a job. *)
Definition generic_result (amb : Ambient) (j : Job) : JsVal :=
  JObj [("status", JStr "completed");
        ("taskType", JStr (name j));
        ("message", JStr ("Task " ++ name j ++ " completed successfully"));
        ("processedAt", JStr (now_iso amb))].

(** Two job objects that differ at most in their progress. *)
Definition same_job (j j' : Job) : Prop :=
  with_progress 0 j = with_progress 0 j'.

(** Since [w0], the events [pre] have been published and nothing else, the
    publishing connection works, and the job is the same but for its
    progress. *)
Definition After (w0 : World) (pre : list (string * Wire)) (w : World) : Prop :=
  published w = (published w0 ++ pre)%list /\
  pubsub_up w = true /\
  same_job (job w) (job w0).

(** The reports of an attempt that has reported: the first is 10, they never
    decrease, and they lie between 10 and [b]. *)
Definition rising_to (b : Z) (l : list Z) : Prop :=
  hd_error l = Some 10 /\
  StronglySorted Z.le l /\
  Forall (fun x => 10 <= x <= b) l.

Definition reports_rise_to (b : Z) (w : World) : Prop := rising_to b (reports w).

End Worker.

(** ** The notification router ([pubsub/subscriber.js]) *)

Module Subscriber.
Import Js Env Eff.
Local Open Scope eff_scope.

(** Where an emit goes: [io.to(room)] or all connected clients ([io]). *)
Inductive Target : Type :=
| ToRoom (room : string)
| ToAll.

(** [target.emit(event, payload)]. *)
Record Emit : Type := {
  target : Target;
  event : string;
  payload : JsVal
}.

(** The Socket.io server as the subscriber uses it (the emits made so far)
    and the console. *)
Record Sub : Type := {
  emitted : list Emit;
  warnings : list string;
  errors : list (string * Wire)
}.

Definition emit (t : Target) (ev : string) (n : JsVal) : M Sub unit :=
  modify (fun s =>
    {| emitted := emitted s ++ [{| target := t; event := ev; payload := n |}];
       warnings := warnings s;
       errors := errors s |}).

Definition console_warn (line : string) : M Sub unit :=
  modify (fun s =>
    {| emitted := emitted s; warnings := warnings s ++ [line]; errors := errors s |}).

Definition console_error (line : string) (raw : Wire) : M Sub unit :=
  modify (fun s =>
    {| emitted := emitted s; warnings := warnings s;
       errors := errors s ++ [(line, raw)] |}).

(** [data.userId && data.userId !== 'anonymous']. *)
Definition has_recipient (userId : JsVal) : bool :=
  truthy userId && strict_neq_str userId "anonymous".

(** [`user:${data.userId}`]. *)
Definition user_room (userId : JsVal) : Res string :=
  Js.bind (to_string userId) (fun u => Ok ("user:" ++ u)).

Definition handleTaskCompleted (amb : Ambient) (data : JsVal) : M Sub unit :=
  taskType <- lift (get data "taskType") ;;
  taskType_text <- lift (to_string taskType) ;;
  jobId <- lift (get data "jobId") ;;
  result <- lift (get data "result") ;;
  duration <- lift (get data "duration") ;;
  completedAt <- lift (get data "completedAt") ;;
  workerName <- lift (get data "workerName") ;;
  let notification :=
    JObj [("type", JStr "success");
          ("event", JStr "task:completed");
          ("title", JStr "Task Completed Successfully");
          ("message", JStr ("Your " ++ taskType_text ++ " task has been completed"));
          ("data", JObj [("jobId", jobId);
                         ("taskType", taskType);
                         ("result", result);
                         ("duration", duration);
                         ("completedAt", completedAt);
                         ("workerName", workerName)]);
          ("timestamp", JStr (now_iso amb))] in
  userId <- lift (get data "userId") ;;
  if has_recipient userId then
    room <- lift (user_room userId) ;;
    emit (ToRoom room) "notification" notification ;;;
    room <- lift (user_room userId) ;;
    emit (ToRoom room) "task:completed" notification ;;;
    log_value userId
  else
    emit ToAll "notification" notification.

Definition handleTaskFailed (amb : Ambient) (data : JsVal) : M Sub unit :=
  taskType <- lift (get data "taskType") ;;
  taskType_text <- lift (to_string taskType) ;;
  jobId <- lift (get data "jobId") ;;
  error <- lift (get data "error") ;;
  attemptsMade <- lift (get data "attemptsMade") ;;
  failedAt <- lift (get data "failedAt") ;;
  workerName <- lift (get data "workerName") ;;
  let notification :=
    JObj [("type", JStr "error");
          ("event", JStr "task:failed");
          ("title", JStr "Task Failed");
          ("message", JStr ("Your " ++ taskType_text ++ " task has failed"));
          ("data", JObj [("jobId", jobId);
                         ("taskType", taskType);
                         ("error", error);
                         ("attemptsMade", attemptsMade);
                         ("failedAt", failedAt);
                         ("workerName", workerName)]);
          ("timestamp", JStr (now_iso amb))] in
  userId <- lift (get data "userId") ;;
  if has_recipient userId then
    room <- lift (user_room userId) ;;
    emit (ToRoom room) "notification" notification ;;;
    room <- lift (user_room userId) ;;
    emit (ToRoom room) "task:failed" notification ;;;
    log_value userId
  else
    emit ToAll "notification" notification.

Definition handleTaskStarted (amb : Ambient) (data : JsVal) : M Sub unit :=
  taskType <- lift (get data "taskType") ;;
  taskType_text <- lift (to_string taskType) ;;
  jobId <- lift (get data "jobId") ;;
  startedAt <- lift (get data "startedAt") ;;
  let notification :=
    JObj [("type", JStr "info");
          ("event", JStr "task:started");
          ("title", JStr "Task Started");
          ("message", JStr ("Your " ++ taskType_text ++ " task is being processed"));
          ("data", JObj [("jobId", jobId);
                         ("taskType", taskType);
                         ("startedAt", startedAt)]);
          ("timestamp", JStr (now_iso amb))] in
  userId <- lift (get data "userId") ;;
  if has_recipient userId then
    room <- lift (user_room userId) ;;
    emit (ToRoom room) "notification" notification ;;;
    log_value userId
  else
    ret tt.

Definition handleSystemBroadcast (amb : Ambient) (data : JsVal) : M Sub unit :=
  title <- lift (get data "title") ;;
  message <- lift (get data "message") ;;
  inner <- lift (get data "data") ;;
  let notification :=
    JObj [("type", JStr "info");
          ("event", JStr "system:broadcast");
          ("title", js_or title (JStr "System Announcement"));
          ("message", message);
          ("data", js_or inner (JObj []));
          ("timestamp", JStr (now_iso amb))] in
  emit ToAll "notification" notification ;;;
  emit ToAll "system:broadcast" notification.

(** The [switch (channel)] of the ['message'] listener. *)
Definition handler_for (amb : Ambient) (channel : string) (data : JsVal)
  : M Sub unit :=
  if String.eqb channel "task:completed" then handleTaskCompleted amb data
  else if String.eqb channel "task:failed" then handleTaskFailed amb data
  else if String.eqb channel "task:started" then handleTaskStarted amb data
  else if String.eqb channel "system:broadcast" then handleSystemBroadcast amb data
  else console_warn ("Unknown channel: " ++ channel).

(** The body of the [try] in the ['message'] listener. *)
Definition route_message (amb : Ambient) (channel : string) (message : Wire)
  : M Sub unit :=
  data <- lift (JSON_parse message) ;;
  jobId <- lift (get data "jobId") ;;
  log_value jobId ;;;
  userId <- lift (get data "userId") ;;
  log_value userId ;;;
  handler_for amb channel data.

(** The ['message'] listener: what the body throws is printed together with
    the raw message, and goes no further. *)
Definition on_message (amb : Ambient) (channel : string) (message : Wire)
  : M Sub unit :=
  try_catch
    (route_message amb channel message)
    (fun msg => console_error ("Error processing message: " ++ msg) message).

(** The state of the subscriber after one message, and after a sequence of
    messages taken in order. *)
Definition deliver (amb : Ambient) (s : Sub) (m : string * Wire) : Sub :=
  snd (on_message amb (fst m) (snd m) s).

Definition deliver_all (amb : Ambient) (ms : list (string * Wire)) (s : Sub) : Sub :=
  fold_left (deliver amb) ms s.

Definition idle : Sub := {| emitted := []; warnings := []; errors := [] |}.

(** [s] after the emits [es]. *)
Definition add_emits (s : Sub) (es : list Emit) : Sub :=
  {| emitted := emitted s ++ es; warnings := warnings s; errors := errors s |}.

(** [s] with the emits and warnings of [d] added. *)
Definition framed (s d : Sub) : Sub :=
  {| emitted := emitted s ++ emitted d;
     warnings := warnings s ++ warnings d;
     errors := errors s |}.

(** [s] after the listener has caught [msg] on [raw]. *)
Definition add_error (s : Sub) (msg : string) (raw : Wire) : Sub :=
  {| emitted := emitted s;
     warnings := warnings s;
     errors := errors s ++ [("Error processing message: " ++ msg, raw)] |}.

End Subscriber.
(** ** Further parts of the services

    The modules from here to the sample inputs embed code the modules above
    leave out: the reconnection delay of the Redis connections, the utilities
    of the task processors, the page arithmetic of [GET /api/users], the
    socket handlers of the notification service, the worker's performance
    counters and the retry loop of the API tester. *)

(** *** The Redis connections ([retryStrategy]) *)

Module Connection.

(** [retryStrategy: (times) => Math.min(times * 50, 2000)], the same
    function on every connection the services open; [times] is the number of
    the reconnection attempt, counted from 1. *)
Definition retryStrategy (times : Z) : Z :=
  let delay := Z.min (times * 50) 2000 in
  delay.

End Connection.

(** *** Utilities of the task processors ([processors/taskProcessor.js]) *)

Module TaskUtil.
Import Env.

(** [randomDelay(min, max)]:
    [Math.floor(Math.random() * (max - min + 1)) + min]. *)
Definition randomDelay (amb : Ambient) (min max : Z) : Z :=
  random_floor amb (max - min + 1) + min.

(** [Math.random()] lies in [0, 1): for a positive integer [n],
    [Math.floor(Math.random() * n)] is one of [0 .. n - 1]. *)
Definition unit_interval (amb : Ambient) : Prop :=
  forall n, 0 < n -> 0 <= random_floor amb n < n.

(** The pauses the processors take, in milliseconds: the email, report and
    generic processors pause once, the image processor once per
    operation. *)
Definition email_pause (amb : Ambient) : Z := randomDelay amb 500 1500.
Definition report_pause (amb : Ambient) : Z := randomDelay amb 2000 4000.
Definition image_pause (amb : Ambient) : Z := randomDelay amb 800 1500.
Definition generic_pause (amb : Ambient) : Z := randomDelay amb 1000 2000.

End TaskUtil.

(** *** The pages of [GET /api/users] ([routes/users.js]) *)

Module Users.

(** [(parseInt(page) - 1) * parseInt(limit)], for a page and a limit given
    as integers. *)
Definition skip (page limit : Z) : Z := (page - 1) * limit.

(** [Math.ceil(total / parseInt(limit))], in exact arithmetic, for a limit
    other than 0. *)
Definition totalPages (total limit : Z) : Z := - ((- total) / limit).

(** The positions, counted from 0 in the sorted result, that the query of
    page [page] returns: [limit] of them after [skip]. *)
Definition on_page (page limit i : Z) : bool :=
  (skip page limit <=? i) && (i <? skip page limit + limit).

End Users.
(** *** The socket handlers ([socket/socketHandler.js]) *)

Module Sockets.
Import Js Env Eff Subscriber.
Local Open Scope eff_scope.

(** A connected socket: its id, the [userId] and [username] the [identify]
    handler stores on it ([undefined] until then), the rooms it is in, and
    the events emitted to its client so far. *)
Record Socket : Type := {
  socket_id : string;
  userId : JsVal;
  username : JsVal;
  rooms : list string;
  received : list (string * JsVal)
}.

(** The Socket.io server with the variables of the handler module: the
    connected sockets (those whose [connection] handler has run and that
    have not disconnected), the [connectedClients] map (socket id to user
    info), the two counters, and the number of clients the engine counts
    ([io.engine.clientsCount]).  The engine counts a client from its
    handshake on, so that number is kept apart from the connected sockets:
    the handlers read it and never change it. *)
Record Io : Type := {
  sockets : list Socket;
  connectedClients : list (string * JsVal);
  totalConnections : Z;
  peakConnections : Z;
  clientsCount : Z
}.

Definition no_clients : Io :=
  {| sockets := []; connectedClients := []; totalConnections := 0;
     peakConnections := 0; clientsCount := 0 |}.

Definition is_socket (sid : string) (s : Socket) : bool :=
  String.eqb (socket_id s) sid.

Definition in_room (room : string) (s : Socket) : bool :=
  existsb (String.eqb room) (rooms s).

Definition find_socket (sid : string) (io : Io) : option Socket :=
  find (is_socket sid) (sockets io).

Definition with_sockets (l : list Socket) (io : Io) : Io :=
  {| sockets := l; connectedClients := connectedClients io;
     totalConnections := totalConnections io;
     peakConnections := peakConnections io;
     clientsCount := clientsCount io |}.

Definition with_connectedClients (m : list (string * JsVal)) (io : Io) : Io :=
  {| sockets := sockets io; connectedClients := m;
     totalConnections := totalConnections io;
     peakConnections := peakConnections io;
     clientsCount := clientsCount io |}.

(** The client of [s] receives [ev]. *)
Definition push (ev : string) (payload : JsVal) (s : Socket) : Socket :=
  {| socket_id := socket_id s; userId := userId s; username := username s;
     rooms := rooms s; received := received s ++ [(ev, payload)] |}.

(** An emit to the connected sockets that [p] selects. *)
Definition emit_where (p : Socket -> bool) (ev : string) (payload : JsVal)
  : M Io unit :=
  modify (fun io =>
    with_sockets (map (fun s => if p s then push ev payload s else s) (sockets io)) io).

(** [socket.emit], [socket.to(room).emit], [socket.broadcast.emit],
    [io.emit] and [io.to(room).emit]. *)
Definition socket_emit (sid : string) : string -> JsVal -> M Io unit :=
  emit_where (is_socket sid).

Definition socket_to_emit (sid room : string) : string -> JsVal -> M Io unit :=
  emit_where (fun s => in_room room s && negb (is_socket sid s)).

Definition socket_broadcast_emit (sid : string) : string -> JsVal -> M Io unit :=
  emit_where (fun s => negb (is_socket sid s)).

Definition io_emit : string -> JsVal -> M Io unit :=
  emit_where (fun _ => true).

Definition io_to_emit (room : string) : string -> JsVal -> M Io unit :=
  emit_where (in_room room).

Definition update_socket (sid : string) (f : Socket -> Socket) : M Io unit :=
  modify (fun io =>
    with_sockets (map (fun s => if is_socket sid s then f s else s) (sockets io)) io).

(** [socket.join(room)] and [socket.leave(room)]: the rooms of a socket are
    a set. *)
Definition join (room : string) (s : Socket) : Socket :=
  if in_room room s then s
  else {| socket_id := socket_id s; userId := userId s; username := username s;
          rooms := rooms s ++ [room]; received := received s |}.

Definition leave (room : string) (s : Socket) : Socket :=
  {| socket_id := socket_id s; userId := userId s; username := username s;
     rooms := filter (fun r => negb (String.eqb r room)) (rooms s);
     received := received s |}.

Definition socket_join (sid room : string) : M Io unit := update_socket sid (join room).
Definition socket_leave (sid room : string) : M Io unit := update_socket sid (leave room).

(** [socket.userId = userId; socket.username = username]. *)
Definition set_user (u n : JsVal) (s : Socket) : Socket :=
  {| socket_id := socket_id s; userId := u; username := n;
     rooms := rooms s; received := received s |}.

(** [Map.prototype.set] and [Map.prototype.delete]: a key that is present
    keeps its place, a new key goes last. *)
Fixpoint Map_set (k : string) (v : JsVal) (m : list (string * JsVal))
  : list (string * JsVal) :=
  match m with
  | [] => [(k, v)]
  | (k', v') :: r =>
      if String.eqb k' k then (k', v) :: r else (k', v') :: Map_set k v r
  end.

Definition Map_delete (k : string) (m : list (string * JsVal))
  : list (string * JsVal) :=
  filter (fun e => negb (String.eqb (fst e) k)) m.

(** [const { k } = data]: a [TypeError] on [null] and [undefined]. *)
Definition destructure (data : JsVal) (k : string) : Res JsVal :=
  match data with
  | JUndefined =>
      Throw ("Cannot destructure property '" ++ k ++ "' of 'data' as it is undefined.")
  | JNull =>
      Throw ("Cannot destructure property '" ++ k ++ "' of 'data' as it is null.")
  | _ => get data k
  end.

(** The body of [io.on('connection', ...)] up to the registration of the
    socket's handlers; the socket is connected already, in a room named by
    its id. *)
Definition on_connection (amb : Ambient) (sid : string) : M Io unit :=
  modify (fun io =>
    {| sockets := sockets io; connectedClients := connectedClients io;
       totalConnections := totalConnections io + 1;
       peakConnections := peakConnections io;
       clientsCount := clientsCount io |}) ;;;
  currentConnections <- gets clientsCount ;;
  modify (fun io =>
    if peakConnections io <? currentConnections
    then {| sockets := sockets io; connectedClients := connectedClients io;
            totalConnections := totalConnections io;
            peakConnections := currentConnections;
            clientsCount := clientsCount io |}
    else io) ;;;
  socket_emit sid "connected"
    (JObj [("message", JStr "Successfully connected to notification service");
           ("socketId", JStr sid);
           ("timestamp", JStr (now_iso amb))]).

(** [socket.on('identify', ...)]. *)
Definition on_identify (amb : Ambient) (sid : string) (data : JsVal) : M Io unit :=
  userId <- lift (destructure data "userId") ;;
  username <- lift (destructure data "username") ;;
  let socket_username := js_or username userId in
  update_socket sid (set_user userId socket_username) ;;;
  modify (fun io =>
    with_connectedClients
      (Map_set sid (JObj [("userId", userId);
                          ("username", socket_username);
                          ("connectedAt", JStr (now_iso amb))])
         (connectedClients io)) io) ;;;
  room <- lift (user_room userId) ;;
  socket_join sid room ;;;
  log_value socket_username ;;;
  socket_emit sid "identified"
    (JObj [("userId", userId);
           ("username", socket_username);
           ("room", JStr room);
           ("timestamp", JStr (now_iso amb))]).

(** [socket.username || 'Anonymous']. *)
Definition username_or (s : Socket) (other : string) : JsVal :=
  js_or (username s) (JStr other).

(** [socket.on('join_room', ...)], for a client that sends [{ room }] with a
    string as room. *)
Definition on_join_room (amb : Ambient) (s : Socket) (room : string) : M Io unit :=
  socket_join (socket_id s) room ;;;
  socket_emit (socket_id s) "room_joined"
    (JObj [("room", JStr room);
           ("message", JStr ("Successfully joined room: " ++ room));
           ("timestamp", JStr (now_iso amb))]) ;;;
  socket_to_emit (socket_id s) room "user_joined_room"
    (JObj [("socketId", JStr (socket_id s));
           ("username", username_or s "Anonymous");
           ("room", JStr room);
           ("timestamp", JStr (now_iso amb))]).

(** [socket.on('leave_room', ...)], for a client that sends [{ room }] with
    a string as room. *)
Definition on_leave_room (amb : Ambient) (s : Socket) (room : string) : M Io unit :=
  socket_leave (socket_id s) room ;;;
  socket_emit (socket_id s) "room_left"
    (JObj [("room", JStr room);
           ("message", JStr ("Successfully left room: " ++ room));
           ("timestamp", JStr (now_iso amb))]) ;;;
  socket_to_emit (socket_id s) room "user_left_room"
    (JObj [("socketId", JStr (socket_id s));
           ("username", username_or s "Anonymous");
           ("room", JStr room);
           ("timestamp", JStr (now_iso amb))]).

(** [socket.on('ping', ...)]. *)
Definition on_ping (amb : Ambient) (s : Socket) : M Io unit :=
  socket_emit (socket_id s) "pong" (JObj [("timestamp", JStr (now_iso amb))]).

(** [socket.on('request_notification', ...)]. *)
Definition on_request_notification (amb : Ambient) (s : Socket) (data : JsVal)
  : M Io unit :=
  title <- lift (get data "title") ;;
  message <- lift (get data "message") ;;
  inner <- lift (get data "data") ;;
  socket_emit (socket_id s) "notification"
    (JObj [("type", JStr "custom");
           ("title", js_or title (JStr "Notification"));
           ("message", js_or message (JStr "You have a new notification"));
           ("data", js_or inner (JObj []));
           ("timestamp", JStr (now_iso amb))]).

(** [socket.on('broadcast', ...)]. *)
Definition on_broadcast (amb : Ambient) (s : Socket) (data : JsVal) : M Io unit :=
  if truthy (userId s) then
    log_value (userId s) ;;;
    message <- lift (get data "message") ;;
    io_emit "broadcast_message"
      (JObj [("from", js_or (username s) (userId s));
             ("message", message);
             ("timestamp", JStr (now_iso amb))])
  else ret tt.

(** [socket.on('disconnect', ...)]; the socket has left its rooms and the
    server already. *)
Definition on_disconnect (amb : Ambient) (s : Socket) : M Io unit :=
  log_value (username_or s "Unknown") ;;;
  modify (fun io =>
    with_connectedClients (Map_delete (socket_id s) (connectedClients io)) io) ;;;
  if truthy (userId s) then
    socket_broadcast_emit (socket_id s) "user_disconnected"
      (JObj [("userId", userId s);
             ("username", username s);
             ("timestamp", JStr (now_iso amb))])
  else ret tt.

(** What the clients make happen on the server; with [EngineClients n]
    the number of clients the engine counts becomes [n] (a handshake or the
    closing of a transport, which no handler of the sources sees). *)
Inductive ClientEvent : Type :=
| Connection (sid : string)
| Identify (sid : string) (data : JsVal)
| JoinRoom (sid : string) (room : string)
| LeaveRoom (sid : string) (room : string)
| Ping (sid : string)
| RequestNotification (sid : string) (data : JsVal)
| Broadcast (sid : string) (data : JsVal)
| Disconnect (sid : string)
| EngineClients (n : Z).

Definition new_socket (sid : string) : Socket :=
  {| socket_id := sid; userId := JUndefined; username := JUndefined;
     rooms := [sid]; received := [] |}.

(** The handler of an event of a connected socket; the event of a socket
    that is not connected does not occur and changes nothing. *)
Definition for_socket (sid : string) (h : Socket -> M Io unit) : M Io unit :=
  fun io =>
    match find_socket sid io with
    | Some s => h s io
    | None => (Ok tt, io)
    end.

(** One event.  Socket.io gives a new connection an id that no connected
    socket has; on a disconnection it removes the socket and then calls the
    handler. *)
Definition on_event (amb : Ambient) (e : ClientEvent) : M Io unit :=
  match e with
  | Connection sid =>
      fun io =>
        match find_socket sid io with
        | Some _ => (Ok tt, io)
        | None =>
            on_connection amb sid (with_sockets (sockets io ++ [new_socket sid]) io)
        end
  | Identify sid data => for_socket sid (fun s => on_identify amb (socket_id s) data)
  | JoinRoom sid room => for_socket sid (fun s => on_join_room amb s room)
  | LeaveRoom sid room => for_socket sid (fun s => on_leave_room amb s room)
  | Ping sid => for_socket sid (on_ping amb)
  | RequestNotification sid data =>
      for_socket sid (fun s => on_request_notification amb s data)
  | Broadcast sid data => for_socket sid (fun s => on_broadcast amb s data)
  | Disconnect sid =>
      for_socket sid (fun s =>
        modify (fun io =>
          with_sockets (filter (fun s' => negb (is_socket sid s')) (sockets io)) io) ;;;
        on_disconnect amb s)
  | EngineClients n =>
      modify (fun io =>
        {| sockets := sockets io; connectedClients := connectedClients io;
           totalConnections := totalConnections io;
           peakConnections := peakConnections io;
           clientsCount := n |})
  end.

(** The events in order; an error no handler catches ends the run. *)
Fixpoint on_events (amb : Ambient) (es : list ClientEvent) : M Io unit :=
  match es with
  | [] => ret tt
  | e :: rest => on_event amb e ;;; on_events amb rest
  end.

(** [sendNotificationToUser], [sendNotificationToRoom] and
    [broadcastNotification]. *)
Definition sendNotificationToUser (userId notification : JsVal) : M Io unit :=
  room <- lift (user_room userId) ;;
  io_to_emit room "notification" notification.

Definition sendNotificationToRoom (room : string) (notification : JsVal) : M Io unit :=
  io_to_emit room "notification" notification.

Definition broadcastNotification (notification : JsVal) : M Io unit :=
  io_emit "notification" notification.

(** An emit of the subscriber, made on this server. *)
Definition perform (e : Emit) : M Io unit :=
  match target e with
  | ToRoom room => io_to_emit room (event e) (payload e)
  | ToAll => io_emit (event e) (payload e)
  end.

Fixpoint perform_all (es : list Emit) : M Io unit :=
  match es with
  | [] => ret tt
  | e :: rest => perform e ;;; perform_all rest
  end.

(** Whether socket [sid] is connected and in [room]. *)
Definition member (sid room : string) (io : Io) : bool :=
  match find_socket sid io with
  | Some s => in_room room s
  | None => false
  end.

(** What the client of socket [sid] has received; nothing when the socket is
    not connected. *)
Definition inbox (sid : string) (io : Io) : list (string * JsVal) :=
  match find_socket sid io with
  | Some s => received s
  | None => []
  end.

(** Socket [sid] is connected. *)
Definition connected (sid : string) (io : Io) : Prop :=
  find_socket sid io <> None.

(** Every key of [connectedClients] is the id of a connected socket. *)
Definition tracked_are_connected (io : Io) : Prop :=
  forall k, In k (map fst (connectedClients io)) -> connected k io.

End Sockets.
(** *** The worker's performance counters ([worker.js]) *)

Module Metrics.

Record Counters : Type := {
  processedCount : Z;
  failedCount : Z;
  totalProcessingTime : Z
}.

Definition zero : Counters :=
  {| processedCount := 0; failedCount := 0; totalProcessingTime := 0 |}.

(** What the counters listen to: a job completed, with its [finishedOn] and
    [processedOn] timestamps when it has them; a job failed; the 30-second
    timer. *)
Inductive Signal : Type :=
| completed (finishedOn processedOn : option Z)
| failed
| interval.

(** [job.finishedOn && job.processedOn]: both present and not 0. *)
Definition both_set (finishedOn processedOn : option Z) : option (Z * Z) :=
  match finishedOn, processedOn with
  | Some f, Some p => if (f =? 0) || (p =? 0) then None else Some (f, p)
  | _, _ => None
  end.

(** The time a completed job adds to [totalProcessingTime]. *)
Definition processing_time (finishedOn processedOn : option Z) : Z :=
  match both_set finishedOn processedOn with
  | Some (f, p) => f - p
  | None => 0
  end.

(** The listeners of [worker.on('completed')] and [worker.on('failed')], and
    the end of the timer's callback, which resets the counters after it has
    printed them. *)
Definition on_signal (c : Counters) (s : Signal) : Counters :=
  match s with
  | completed f p =>
      {| processedCount := processedCount c + 1;
         failedCount := failedCount c;
         totalProcessingTime :=
           match both_set f p with
           | Some (f', p') => totalProcessingTime c + (f' - p')
           | None => totalProcessingTime c
           end |}
  | failed =>
      {| processedCount := processedCount c;
         failedCount := failedCount c + 1;
         totalProcessingTime := totalProcessingTime c |}
  | interval => zero
  end.

Definition after_signals (l : list Signal) : Counters := fold_left on_signal l zero.

(** The signals of a list up to its first tick of the timer, and the signals
    since the last tick. *)
Fixpoint until_interval (l : list Signal) : list Signal :=
  match l with
  | [] => []
  | interval :: _ => []
  | s :: rest => s :: until_interval rest
  end.

Definition since_interval (l : list Signal) : list Signal :=
  rev (until_interval (rev l)).

Definition is_completed (s : Signal) : bool :=
  match s with completed _ _ => true | _ => false end.

Definition is_failed (s : Signal) : bool :=
  match s with failed => true | _ => false end.

Definition signal_time (s : Signal) : Z :=
  match s with
  | completed f p => processing_time f p
  | _ => 0
  end.

End Metrics.

(** *** The retry loop of the API tester ([tests/api-tester.js]) *)

Module Tester.

(** What [axios] does with one request: it resolves with a response of some
    status ([validateStatus] accepts every status), or it rejects, the error
    carrying the status of a response when there was one. *)
Inductive Reply : Type :=
| Resolved (status : Z)
| Rejected (status : option Z).

(** A row of [testMatrix]; [row_status] is [None] for ["--"]. *)
Record Row : Type := {
  row_status : option Z;
  success : bool
}.

(** The variables of the tester, together with the number of requests sent
    (which the tester does not keep). *)
Record Tally : Type := {
  testMatrix : list Row;
  successCount : Z;
  failCount : Z;
  requests : Z
}.

Definition empty_tally : Tally :=
  {| testMatrix := []; successCount := 0; failCount := 0; requests := 0 |}.

(** What [testEndpoint] resolves to: the data of the response of some
    attempt, [null], or [undefined] when the loop runs out. *)
Inductive Outcome : Type :=
| Data (attempt : Z)
| Null
| Undefined.

(** [res.status >= 200 && res.status < 400]. *)
Definition is_success (status : Z) : bool := (200 <=? status) && (status <? 400).

Definition sent (t : Tally) : Tally :=
  {| testMatrix := testMatrix t; successCount := successCount t;
     failCount := failCount t; requests := requests t + 1 |}.

(** The [try] block after a response. *)
Definition record_response (status : Z) (t : Tally) : Tally :=
  let success := is_success status in
  {| testMatrix := testMatrix t ++ [{| row_status := Some status; success := success |}];
     successCount := if success then successCount t + 1 else successCount t;
     failCount := if success then failCount t else failCount t + 1;
     requests := requests t |}.

(** The [catch] block on the last attempt. *)
Definition record_rejection (status : option Z) (t : Tally) : Tally :=
  {| testMatrix :=
       testMatrix t ++
       [{| row_status := match status with
                         | Some s => if s =? 0 then None else Some s
                         | None => None
                         end;
           success := false |}];
     successCount := successCount t;
     failCount := failCount t + 1;
     requests := requests t |}.

(** The loop of [testEndpoint] from [attempt] on, [fuel] bounding the rounds
    left; [reply n] is what the request of attempt [n] meets. *)
Fixpoint attempts_from (fuel : nat) (attempt retries : Z) (reply : Z -> Reply)
  (t : Tally) : Outcome * Tally :=
  match fuel with
  | O => (Undefined, t)
  | S fuel' =>
      if attempt <=? retries then
        match reply attempt with
        | Resolved status =>
            let t' := record_response status (sent t) in
            if is_success status || negb (status =? 503) then (Data attempt, t')
            else attempts_from fuel' (attempt + 1) retries reply t'
        | Rejected status =>
            if attempt <? retries
            then attempts_from fuel' (attempt + 1) retries reply (sent t)
            else (Null, record_rejection status (sent t))
        end
      else (Undefined, t)
  end.

(** [testEndpoint(ep, i, retries, delay)], for a call that no other call
    interleaves with: the loop runs [retries + 1] rounds at most. *)
Definition testEndpoint (retries : Z) (reply : Z -> Reply) (t : Tally)
  : Outcome * Tally :=
  attempts_from (Z.to_nat (retries + 1)) 0 retries reply t.

End Tester.
(** *** What the processors return, and what publishing can change *)

Module Views.
Import Js Env Producer Eff Worker.

(** The objects the four processors return, for the job they were given. *)
Definition email_result (amb : Ambient) (j : Job) : JsVal :=
  JObj [("status", JStr "sent");
        ("recipient", js_or (prop j "recipient") (JStr "user@example.com"));
        ("subject", js_or (prop j "subject") (JStr "Notification"));
        ("sentAt", JStr (now_iso amb));
        ("messageId", JStr (generateId amb))].

Definition report_result (amb : Ambient) (j : Job) : JsVal :=
  JObj [("status", JStr "generated");
        ("reportType", js_or (prop j "reportType") (JStr "general"));
        ("format", js_or (prop j "format") (JStr "PDF"));
        ("fileSize", JNum (random_floor amb 5000 + 1000));
        ("downloadUrl",
         JStr ("https://reports.example.com/" ++ generateId amb ++ ".pdf"));
        ("generatedAt", JStr (now_iso amb));
        ("reportId", JStr (generateId amb))].

Definition dataProcessing_result (amb : Ambient) (j : Job) : JsVal :=
  JObj [("status", JStr "processed");
        ("batchId", js_or (prop j "batchId") (JStr (generateId amb)));
        ("recordsProcessed", JNum (recordCount_of j));
        ("recordsFailed", JNum (random_floor amb 5));
        ("processingTime", JNum (recordCount_of j * 10));
        ("processedAt", JStr (now_iso amb))].

Definition imageProcessing_result (amb : Ambient) (j : Job) : JsVal :=
  JObj [("status", JStr "processed");
        ("originalImage", js_or (prop j "imageUrl") (JStr "image.jpg"));
        ("processedImage",
         JStr ("https://cdn.example.com/processed/" ++ generateId amb ++ ".jpg"));
        ("operations", JArr (map JStr (operations_of j)));
        ("dimensions",
         JObj [("width", js_or (prop j "targetWidth") (JNum 1920));
               ("height", js_or (prop j "targetHeight") (JNum 1080))]);
        ("fileSize", JNum (random_floor amb 2000 + 500));
        ("processedAt", JStr (now_iso amb));
        ("imageId", JStr (generateId amb))].

(** The result of the [switch] of [processTask], by the name of the job. *)
Definition result_of (amb : Ambient) (j : Job) : JsVal :=
  if String.eqb (name j) "email" then email_result amb j
  else if String.eqb (name j) "report" then report_result amb j
  else if String.eqb (name j) "dataProcessing" then dataProcessing_result amb j
  else if String.eqb (name j) "imageProcessing" then imageProcessing_result amb j
  else generic_result amb j.


(** Two runs of the worker that differ at most in the publishing connection,
    in what has been published and in what has been printed. *)
Definition agree (w1 w2 : World) : Prop :=
  job w1 = job w2 /\ reports w1 = reports w2 /\ redis_faults w1 = redis_faults w2.

(** A statement sequence whose outcome, job, reports and use of the worker's
    connection do not depend on the publishing connection. *)
Definition blind_to_publishing {A} (m : M World A) : Prop :=
  forall w1 w2, agree w1 w2 ->
    fst (m w1) = fst (m w2) /\ agree (snd (m w1)) (snd (m w2)).

(** The publishing connection of [w] set to [up]. *)
Definition with_pubsub (up : bool) (w : World) : World :=
  {| job := job w; reports := reports w; published := published w;
     console_errors := console_errors w;
     redis_faults := redis_faults w; pubsub_up := up |}.

(** Since [w0] nothing has been published. *)
Definition silent_since (w0 w : World) : Prop :=
  published w = published w0 /\ pubsub_up w = false.

End Views.

(** ** Concrete inputs used by the examples *)

Module Samples.
Import Js Env Producer Routes.

Definition amb0 : Ambient :=
  {| now_ms := 1700000000000;
     now_iso := "2023-11-14T22:13:20.000Z";
     toISOString := fun _ => "2023-11-14T22:13:19.000Z";
     elapsed_ms := 1200;
     random36 := "k3j9x2m1q";
     random_floor := fun _ => 0;
     WORKER_NAME := "worker-1";
     max_backoff_delay := 30000 |}.

Definition email_task (p : option Z) (u : option string) : TaskData :=
  {| td_type := "email";
     td_data := JObj [("recipient", JStr "test@example.com")];
     td_priority := p;
     td_userId := u;
     td_createdAt := None |}.

(** Two tasks, the first submitted with priority 1, the second with 2. *)
Definition task_p1 : TaskData := email_task (Some 1) (Some "alice").
Definition task_p2 : TaskData := email_task (Some 2) (Some "bob").

(** A job as the producer creates it for a task of the given type, and a
    job of a type no processor is written for. *)
Definition job_of_type (nm : string) (u : option string) : Job :=
  {| id := nm ++ "-1700000000000-k3j9x2m1q";
     name := nm;
     data := {| jd_type := nm;
                jd_data := JObj [];
                jd_userId := u;
                jd_createdAt := "2023-11-14T22:13:20.000Z";
                jd_recordCount := None;
                jd_operations := None;
                jd_props := [] |};
     opts := {| priority := 5;
                jobId := nm ++ "-1700000000000-k3j9x2m1q";
                attempts := 3;
                backoff := default_backoff;
                removeOnComplete := default_removeOnComplete;
                removeOnFail := default_removeOnFail |};
     attemptsMade := 0;
     progress := 0;
     processedOn := None;
     seq := 0%nat |}.

Definition report_job : Job := job_of_type "report" (Some "alice").
Definition email_job : Job := job_of_type "email" (Some "alice").
Definition video_job : Job := job_of_type "video" (Some "alice").

(** The request of the API tester, and the same request for a type outside
    the validator's list. *)
Definition email_request : TaskRequest :=
  {| body_type := "email";
     body_data := JObj [("recipient", JStr "test@example.com");
                        ("subject", JStr "API Test")];
     body_priority := Some 5;
     body_userId := Some "tester" |}.

Definition video_request : TaskRequest :=
  {| body_type := "video";
     body_data := JObj [];
     body_priority := Some 5;
     body_userId := Some "tester" |}.

(** A request that names no user. *)
Definition nameless_request : TaskRequest :=
  {| body_type := "report";
     body_data := JObj [];
     body_priority := None;
     body_userId := None |}.

(** Event bodies as they arrive at the subscriber: for alice, for a user
    given as the empty string, and a system announcement. *)
Definition event_for (u : JsVal) : JsVal :=
  JObj [("jobId", JStr "email-1700000000000-k3j9x2m1q");
        ("taskType", JStr "email");
        ("userId", u)].

Definition alice_event : JsVal := event_for (JStr "alice").
Definition blank_user_event : JsVal := event_for (JStr "").

Definition announcement : JsVal :=
  JObj [("title", JStr "Maintenance");
        ("message", JStr "Restart at noon");
        ("recipient", JStr "alice")].

End Samples.

(** * Properties *)

(** ** Reasoning rules for stateful code that may throw *)

Module EffFacts.
Import Js Eff.

Section Rules.
Context {S : Type}.
Implicit Types (P : S -> Prop) (E : string -> S -> Prop).

Lemma hoare_ret {A} P (a : A) (Q : A -> S -> Prop) E :
  (forall s, P s -> Q a s) -> hoare P (ret a) Q E.
Proof. intros H s Hs. now apply H. Qed.

Lemma hoare_throw {A} P msg (Q : A -> S -> Prop) E :
  (forall s, P s -> E msg s) -> hoare P (throw msg) Q E.
Proof. intros H s Hs. now apply H. Qed.

Lemma hoare_lift {A} P (r : Res A) (Q : A -> S -> Prop) E :
  (forall s, P s -> match r with Ok a => Q a s | Throw e => E e s end) ->
  hoare P (lift r) Q E.
Proof. intros H s Hs. unfold lift. specialize (H s Hs). now destruct r. Qed.

Lemma hoare_gets {A} P (f : S -> A) (Q : A -> S -> Prop) E :
  (forall s, P s -> Q (f s) s) -> hoare P (gets f) Q E.
Proof. intros H s Hs. now apply H. Qed.

Lemma hoare_modify P (f : S -> S) (Q : unit -> S -> Prop) E :
  (forall s, P s -> Q tt (f s)) -> hoare P (modify f) Q E.
Proof. intros H s Hs. now apply H. Qed.

Lemma hoare_bind {A B} P (m : M S A) (k : A -> M S B)
  (Q1 : A -> S -> Prop) (Q : B -> S -> Prop) E :
  hoare P m Q1 E ->
  (forall a, hoare (Q1 a) (k a) Q E) ->
  hoare P (bind m k) Q E.
Proof.
  intros Hm Hk s Hs. unfold bind. specialize (Hm s Hs).
  destruct (m s) as [[a|e] s']; [now apply Hk | exact Hm].
Qed.

Lemma hoare_try_catch {A} P (m : M S A) (h : string -> M S A)
  (Q : A -> S -> Prop) (E1 E : string -> S -> Prop) :
  hoare P m Q E1 ->
  (forall e, hoare (E1 e) (h e) Q E) ->
  hoare P (try_catch m h) Q E.
Proof.
  intros Hm Hh s Hs. unfold try_catch. specialize (Hm s Hs).
  destruct (m s) as [[a|e] s']; [exact Hm | now apply Hh].
Qed.

Lemma hoare_conseq {A} P P' (m : M S A) (Q Q' : A -> S -> Prop) E E' :
  hoare P' m Q' E' ->
  (forall s, P s -> P' s) ->
  (forall a s, Q' a s -> Q a s) ->
  (forall e s, E' e s -> E e s) ->
  hoare P m Q E.
Proof.
  intros Hm HP HQ HE s Hs. specialize (Hm s (HP s Hs)).
  destruct (m s) as [[a|e] s']; auto.
Qed.

Lemma preserves_ret {A} P (a : A) : preserves P (ret a).
Proof. now apply hoare_ret. Qed.

Lemma preserves_throw {A} P msg : preserves (A := A) P (throw msg).
Proof. now apply hoare_throw. Qed.

Lemma preserves_lift {A} P (r : Res A) : preserves P (lift r).
Proof. apply hoare_lift. intros; now destruct r. Qed.

Lemma preserves_gets {A} P (f : S -> A) : preserves P (gets f).
Proof. now apply hoare_gets. Qed.

Lemma preserves_log_value P v : preserves P (log_value v).
Proof.
  unfold log_value. eapply hoare_bind; [apply preserves_lift|].
  intros ?. apply preserves_ret.
Qed.

Lemma preserves_bind {A B} P (m : M S A) (k : A -> M S B) :
  preserves P m -> (forall a, preserves P (k a)) -> preserves P (bind m k).
Proof. intros Hm Hk. eapply hoare_bind; [exact Hm | exact Hk]. Qed.

Lemma preserves_try_catch {A} P (m : M S A) h :
  preserves P m -> (forall e, preserves P (h e)) -> preserves P (try_catch m h).
Proof. intros Hm Hh. eapply hoare_try_catch; [exact Hm | exact Hh]. Qed.

Lemma preserves_if {A} P (b : bool) (m1 m2 : M S A) :
  preserves P m1 -> preserves P m2 -> preserves P (if b then m1 else m2).
Proof. now destruct b. Qed.

Lemma preserves_for_loop P fuel cond step (body : Z -> M S unit) :
  (forall i, preserves P (body i)) ->
  forall i, preserves P (for_loop fuel i cond step body).
Proof.
  intros Hb. induction fuel as [|fuel IH]; intros i; simpl.
  - apply preserves_ret.
  - destruct (cond i); [|apply preserves_ret].
    apply preserves_bind; [apply Hb | intros ?; apply IH].
Qed.

(** A loop whose condition fails after [n] rounds at the latest runs the
    same with any larger bound on its rounds. *)
Lemma for_loop_enough cond step (body : Z -> M S unit) n :
  forall i extra s,
    cond (Nat.iter n step i) = false ->
    for_loop (n + extra) i cond step body s = for_loop n i cond step body s.
Proof.
  induction n as [|n IH]; intros i extra s H.
  - simpl in H. destruct extra; simpl; [reflexivity | now rewrite H].
  - simpl. destruct (cond i); [|reflexivity].
    unfold bind. destruct (body i s) as [[[]|e] s']; [|reflexivity].
    apply IH. now rewrite <- Nat.iter_succ_r.
Qed.

End Rules.

End EffFacts.



(** ** Dispatch order and the producer's priority *)

Module ProducerFacts.
Import Js Env Producer Samples.

Lemma precedes_cases (a b : Job) :
  (precedes a b = true /\ prio a <= prio b) \/
  (precedes a b = false /\ prio b <= prio a).
Proof.
  unfold precedes.
  destruct (Z.ltb_spec (prio a) (prio b)); simpl; [left; split; [reflexivity|lia]|].
  destruct (Z.eqb_spec (prio a) (prio b)); simpl; [|right; split; [reflexivity|lia]].
  destruct (seq a <=? seq b)%nat; [left|right]; split; auto; lia.
Qed.

Lemma extract_min_nonempty (j : Job) (l : list Job) :
  exists m r, extract_min (j :: l) = Some (m, r).
Proof.
  revert j; induction l as [|a l IH]; intro j.
  - now exists j, [].
  - destruct (IH a) as (m & r & E).
    change (extract_min (j :: a :: l))
      with (match extract_min (a :: l) with
            | None => Some (j, [])
            | Some (m, rest') =>
                if precedes j m then Some (j, a :: l) else Some (m, j :: rest')
            end).
    rewrite E. destruct (precedes j m); eauto.
Qed.

Lemma extract_min_perm (l : list Job) :
  forall m r, extract_min l = Some (m, r) -> Permutation l (m :: r).
Proof.
  induction l as [|j l IH]; intros m r E; simpl in E; [discriminate|].
  destruct (extract_min l) as [[m' r']|] eqn:El.
  - destruct (precedes j m'); inversion E; subst.
    + apply Permutation_refl.
    + eapply Permutation_trans; [apply perm_skip, IH; reflexivity | apply perm_swap].
  - inversion E; subst. destruct l as [|a l]; [apply Permutation_refl|].
    destruct (extract_min_nonempty a l) as (? & ? & ?); congruence.
Qed.

Lemma extract_min_least (l : list Job) :
  forall m r, extract_min l = Some (m, r) -> Forall (fun x => prio m <= prio x) r.
Proof.
  induction l as [|j l IH]; intros m r E; simpl in E; [discriminate|].
  destruct (extract_min l) as [[m' r']|] eqn:El.
  - specialize (IH _ _ eq_refl).
    pose proof (extract_min_perm _ _ _ El) as P.
    destruct (precedes_cases j m') as [[C Hle]|[C Hle]];
      rewrite C in E; inversion E; subst.
    + apply (Permutation_Forall (Permutation_sym P)).
      constructor; [exact Hle|].
      eapply Forall_impl; [|exact IH]. simpl; intros; lia.
    + constructor; [exact Hle | exact IH].
  - inversion E; subst. constructor.
Qed.

Lemma dispatch_n_sorted (n : nat) :
  forall q, (List.length (waiting q) <= n)%nat ->
    Permutation (waiting q) (dispatch_n n q) /\
    StronglySorted (fun a b => prio a <= prio b) (dispatch_n n q).
Proof.
  induction n as [|n IH]; intros q Hlen.
  - destruct (waiting q) eqn:W; simpl in Hlen; [|lia].
    simpl. split; constructor.
  - simpl. unfold dispatch.
    destruct (extract_min (waiting q)) as [[m r]|] eqn:E.
    + pose proof (extract_min_perm _ _ _ E) as P.
      pose proof (extract_min_least _ _ _ E) as L.
      set (q' := {| waiting := r; next_seq := next_seq q; store_up := store_up q |}).
      assert (Hlen' : (List.length (waiting q') <= n)%nat).
      { apply Permutation_length in P. simpl in P. simpl. lia. }
      destruct (IH q' Hlen') as [P' S'].
      split.
      * eapply Permutation_trans; [exact P|]. now apply perm_skip.
      * constructor; [exact S'|].
        apply (Permutation_Forall P'). exact L.
    + destruct (waiting q) as [|j l] eqn:W; [split; constructor|].
      destruct (extract_min_nonempty j l) as (? & ? & ?); congruence.
Qed.

Lemma dispatch_order_sorted (q : Queue) :
  Permutation (waiting q) (dispatch_order q) /\
  StronglySorted (fun a b => prio a <= prio b) (dispatch_order q).
Proof. apply dispatch_n_sorted. lia. Qed.

(** In a list sorted by priority value, of two jobs of the list the one with
    the strictly lower value comes first. *)
Lemma sorted_before (l : list Job) (a b : Job) :
  StronglySorted (fun a b => prio a <= prio b) l ->
  In a l -> In b l -> prio a < prio b -> before a b l.
Proof.
  intros S Ha Hb Hlt.
  destruct (in_split _ _ Ha) as (l1 & l2 & ->).
  exists l1, l2. split; [reflexivity|].
  apply in_app_or in Hb. destruct Hb as [Hb|[Hb|Hb]]; [|subst; lia|exact Hb].
  exfalso. clear Ha. induction l1 as [|c l1 IH]; [contradiction|].
  simpl in S. inversion S as [|? ? S' F]; subst.
  destruct Hb as [->|Hb].
  - rewrite Forall_forall in F.
    assert (prio b <= prio a) by (apply F, in_or_app; right; now left).
    lia.
  - now apply IH.
Qed.

Lemma addTaskToQueue_job amb t q j q' :
  addTaskToQueue amb t q = (Ok j, q') ->
  prio j = 10 - requested_priority t /\
  waiting q' = (waiting q ++ [j])%list.
Proof.
  unfold addTaskToQueue, Queue_add. destruct (store_up q); [|discriminate].
  intro E. inversion E; subst. now split.
Qed.

Lemma addTaskToQueue_throw amb t q e q' :
  addTaskToQueue amb t q = (Throw e, q') -> q' = q.
Proof.
  unfold addTaskToQueue, Queue_add. destruct (store_up q); [discriminate|].
  now inversion 1.
Qed.

Lemma add_all_jobs amb (ts : list TaskData) :
  forall q js q', add_all amb ts q = (js, q') ->
    (forall j, In j (waiting q) -> In j (waiting q')) /\
    (forall t j, In (t, j) js ->
       prio j = 10 - requested_priority t /\ In j (waiting q')).
Proof.
  induction ts as [|t ts IH]; intros q js q' E; simpl in E.
  - inversion E; subst. split; [auto|contradiction].
  - destruct (addTaskToQueue amb t q) as [[j|e] q1] eqn:A.
    + destruct (add_all amb ts q1) as [js1 q2] eqn:R. inversion E; subst.
      destruct (IH _ _ _ R) as [Hold Hnew].
      destruct (addTaskToQueue_job _ _ _ _ _ A) as [Hp Hw].
      split.
      * intros x Hx. apply Hold. rewrite Hw. apply in_or_app. now left.
      * intros t' j' [Heq|Hin].
        -- inversion Heq; subst. split; [exact Hp|].
           apply Hold. rewrite Hw. apply in_or_app. right. now left.
        -- now apply Hnew.
    + apply addTaskToQueue_throw in A. subst q1. now apply IH.
Qed.

(** The sample jobs are the jobs the producer creates. *)
Example report_job_is_produced :
  fst (addTaskToQueue amb0
         {| td_type := "report"; td_data := JObj [];
            td_priority := None; td_userId := Some "alice";
            td_createdAt := None |} empty_queue)
  = Ok report_job.
Proof. reflexivity. Qed.

(** Four tasks submitted with priorities 1, 10, none (5) and 10 leave the
    queue in the order second, fourth, third, first. *)
Example dispatch_order_of_four :
  map seq (dispatch_order
             (snd (add_all amb0 [email_task (Some 1) None; email_task (Some 10) None;
                                 email_task None None; email_task (Some 10) None]
                     empty_queue)))
  = [1; 3; 2; 0]%nat.
Proof. reflexivity. Qed.

(** C1, as amended: of two tasks added before any dispatch, the one
    submitted with the numerically HIGHER priority is dispatched first: the
    producer hands [10 - priority] to a queue that serves the lowest value
    first. *)
Theorem C1_higher_requested_priority_dispatched_first :
  forall amb ts q js q' t1 j1 t2 j2,
    add_all amb ts q = (js, q') ->
    In (t1, j1) js -> In (t2, j2) js ->
    requested_priority t1 > requested_priority t2 ->
    before j1 j2 (dispatch_order q').
Proof.
  intros amb ts q js q' t1 j1 t2 j2 E H1 H2 Hgt.
  destruct (add_all_jobs _ _ _ _ _ E) as [_ Hnew].
  destruct (Hnew _ _ H1) as [P1 W1], (Hnew _ _ H2) as [P2 W2].
  destruct (dispatch_order_sorted q') as [P S].
  apply sorted_before; [exact S| | |lia].
  - now apply (Permutation_in _ P).
  - now apply (Permutation_in _ P).
Qed.

Lemma C1_higher_requested_priority_dispatched_first_witness :
  before
    (snd (nth 1 (fst (add_all amb0 [task_p1; task_p2] empty_queue))
            (task_p1, Build_Job "" "" (Build_JobData "" JNull None "" None None [])
                        (Build_JobsOptions 0 "" 0 default_backoff
                           default_removeOnComplete default_removeOnFail)
                        0 0 None 0%nat)))
    (snd (nth 0 (fst (add_all amb0 [task_p1; task_p2] empty_queue))
            (task_p1, Build_Job "" "" (Build_JobData "" JNull None "" None None [])
                        (Build_JobsOptions 0 "" 0 default_backoff
                           default_removeOnComplete default_removeOnFail)
                        0 0 None 0%nat)))
    (dispatch_order (snd (add_all amb0 [task_p1; task_p2] empty_queue))).
Proof.
  apply (C1_higher_requested_priority_dispatched_first
           amb0 [task_p1; task_p2] empty_queue _ _ task_p2 _ task_p1 _ eq_refl).
  - right. left. reflexivity.
  - left. reflexivity.
  - vm_compute. reflexivity.
Defined.

(** C1 as stated fails: the task submitted with priority 1 is dispatched
    after the task submitted with priority 2. *)
Lemma C1_counterexample :
  ~ (forall amb ts q js q' t1 j1 t2 j2,
       add_all amb ts q = (js, q') ->
       In (t1, j1) js -> In (t2, j2) js ->
       requested_priority t1 < requested_priority t2 ->
       j1 = j2 \/ before j1 j2 (dispatch_order q')).
Proof.
  intro H.
  specialize (H amb0 [task_p1; task_p2] empty_queue _ _ task_p1 _ task_p2 _ eq_refl
                (or_introl eq_refl) (or_intror (or_introl eq_refl))).
  assert (L : requested_priority task_p1 < requested_priority task_p2)
    by (vm_compute; reflexivity).
  specialize (H L). clear L.
  destruct H as [H | (l1 & l2 & E & I)].
  - apply (f_equal seq) in H. vm_compute in H. discriminate.
  - apply (f_equal (map seq)) in E. rewrite map_app in E. simpl in E.
    apply (in_map seq) in I.
    vm_compute in E.
    destruct l1 as [|a [|b l1]]; simpl in E.
    + discriminate.
    + injection E as _ E. destruct l2; [contradiction|discriminate].
    + injection E as _ _ E. destruct l1; discriminate.
Qed.

End ProducerFacts.

(** ** Task submission *)

Module RoutesFacts.
Import Js Env Producer Routes Samples.

Lemma isIn_In allowed s : isIn allowed s = true <-> In s allowed.
Proof.
  unfold isIn. rewrite existsb_exists. split.
  - intros (x & Hx & E). apply String.eqb_eq in E. now subst.
  - intro H. exists s. split; [exact H | apply String.eqb_refl].
Qed.

Lemma optional_isInt_spec lo hi p :
  optional_isInt lo hi p = true <->
  match p with None => True | Some n => lo <= n <= hi end.
Proof.
  destruct p as [n|]; simpl; [|tauto].
  rewrite andb_true_iff, !Z.leb_le. tauto.
Qed.

Lemma validateTask_nil req : validateTask req = [] <-> acceptable req.
Proof.
  unfold validateTask, acceptable.
  rewrite <- isIn_In, <- (optional_isInt_spec 1 10).
  destruct (isIn task_types (body_type req)),
           (isObject (body_data req)),
           (optional_isInt 1 10 (body_priority req)); simpl;
    split; intro H; try discriminate; try tauto;
    destruct H as (? & ? & ?); discriminate.
Qed.

Example video_request_is_rejected :
  fst (post_task amb0 video_request empty_queue)
  = {| status := 400;
       body := JObj [("errors", JArr [JObj [("msg", JStr "Invalid task type")]])] |}.
Proof. reflexivity. Qed.

Example email_request_is_queued :
  status (fst (post_task amb0 email_request empty_queue)) = 201 /\
  map name (waiting (snd (post_task amb0 email_request empty_queue))) = ["email"].
Proof. split; reflexivity. Qed.

(** C6, as amended: a submission is answered 400, and leaves the queue as it
    was, exactly when its type is not one of [email], [report],
    [dataProcessing], [imageProcessing], or its data is not an object, or it
    gives a priority outside 1..10; any other submission is added to the
    queue when the store accepts it, and the caller gets 201 with the id of
    the job, its type, the status [queued] and the priority. *)
Theorem C6_submission_is_validated_against_the_type_list :
  forall amb req q,
    (status (fst (post_task amb req q)) = 400 <-> ~ acceptable req) /\
    (~ acceptable req -> snd (post_task amb req q) = q) /\
    (acceptable req -> store_up q = true ->
     exists job,
       waiting (snd (post_task amb req q)) = (waiting q ++ [job])%list /\
       name job = body_type req /\
       prio job = 10 - priority_or_default (body_priority req) /\
       status (fst (post_task amb req q)) = 201 /\
       get (body (fst (post_task amb req q))) "task" =
         Ok (JObj [("id", JStr (id job));
                   ("type", JStr (body_type req));
                   ("status", JStr "queued");
                   ("priority", JNum (priority_or_default (body_priority req)));
                   ("queuedAt", JStr (now_iso amb))])).
Proof.
  intros amb req q. unfold post_task.
  destruct (validateTask req) as [|m ms] eqn:V.
  - assert (A : acceptable req) by now apply validateTask_nil.
    unfold addTaskToQueue, Queue_add.
    destruct (store_up q) eqn:U; simpl;
      (split; [split; [discriminate | tauto] | split; [tauto|]]).
    + intros _ _. eexists. repeat split.
    + intros _ ?. discriminate.
  - assert (A : ~ acceptable req).
    { intro A. apply validateTask_nil in A. congruence. }
    simpl. split; [tauto | split; [reflexivity | tauto]].
Qed.

Lemma C6_submission_is_validated_against_the_type_list_witness :
  exists job,
    waiting (snd (post_task amb0 email_request empty_queue))
      = (waiting empty_queue ++ [job])%list /\
    name job = body_type email_request /\
    prio job = 10 - priority_or_default (body_priority email_request) /\
    status (fst (post_task amb0 email_request empty_queue)) = 201 /\
    get (body (fst (post_task amb0 email_request empty_queue))) "task" =
      Ok (JObj [("id", JStr (id job));
                ("type", JStr (body_type email_request));
                ("status", JStr "queued");
                ("priority",
                 JNum (priority_or_default (body_priority email_request)));
                ("queuedAt", JStr (now_iso amb0))]).
Proof.
  apply (proj2 (proj2 (C6_submission_is_validated_against_the_type_list
                         amb0 email_request empty_queue))).
  - unfold acceptable. simpl. repeat split; [now left | lia | lia].
  - reflexivity.
Defined.

(** C6 as stated fails: a submission of type [video] with priority 5 is
    answered 400 although its type is not empty and its priority is within
    1..10. *)
Lemma C6_counterexample :
  ~ (forall amb req q,
       status (fst (post_task amb req q)) = 400 <->
       (body_type req = "" \/
        exists p, body_priority req = Some p /\ (p < 1 \/ 10 < p))).
Proof.
  intro H. destruct (H amb0 video_request empty_queue) as [H1 _].
  destruct (H1 eq_refl) as [E|(p & E & R)].
  - discriminate.
  - inversion E; subst. lia.
Qed.

End RoutesFacts.

(** ** The worker: progress reports *)

Module WorkerFacts.
Import Js Env Producer Eff Worker EffFacts Samples.
Local Open Scope eff_scope.

Lemma rising_to_weaken b b' l : b <= b' -> rising_to b l -> rising_to b' l.
Proof.
  intros Hb (Hh & Hs & Hf). repeat split; auto.
  eapply Forall_impl; [|exact Hf]. simpl; intros; lia.
Qed.

Lemma StronglySorted_snoc (l : list Z) (p : Z) :
  StronglySorted Z.le l -> Forall (fun x => x <= p) l ->
  StronglySorted Z.le (l ++ [p]).
Proof.
  induction 1 as [|a l Hs IH Ha]; intro F; simpl.
  - repeat constructor.
  - inversion F; subst. constructor; [now apply IH|].
    apply Forall_app; split; [exact Ha | now constructor].
Qed.

Lemma rising_to_snoc b p l : b <= p -> rising_to b l -> rising_to p (l ++ [p]).
Proof.
  intros Hb (Hh & Hs & Hf).
  destruct l as [|x l]; [discriminate|].
  assert (10 <= b) by (inversion Hf; subst; lia).
  repeat split.
  - exact Hh.
  - apply StronglySorted_snoc; [exact Hs|].
    eapply Forall_impl; [|exact Hf]. simpl; intros; lia.
  - apply Forall_app; split.
    + eapply Forall_impl; [|exact Hf]. simpl; intros; lia.
    + constructor; [lia|constructor].
Qed.

Lemma updateProgress_rises b p :
  b <= p ->
  hoare (reports_rise_to b) (updateProgress p) (fun _ => reports_rise_to p) (fun _ => reports_rise_to p).
Proof.
  intros Hb w Hw. unfold updateProgress.
  destruct (redis_faults w) as [|[|] rest]; unfold reports_rise_to; simpl;
    solve [ now apply (rising_to_snoc b) | now apply (rising_to_weaken b) ].
Qed.

Lemma updateProgress_first :
  hoare (fun w => reports w = []) (updateProgress 10)
        (fun _ => reports_rise_to 10) (fun _ w => reports w = []).
Proof.
  intros w Hw. unfold updateProgress.
  destruct (redis_faults w) as [|[|] rest]; unfold reports_rise_to, rising_to; simpl;
    try exact Hw; rewrite Hw; simpl;
    (repeat split; [repeat constructor | repeat constructor; lia]).
Qed.

(** Printing and publishing leave the reports alone. *)
Lemma console_error_reports (P : list Z -> Prop) line :
  preserves (fun w => P (reports w)) (console_error line).
Proof. apply hoare_modify. auto. Qed.

Lemma publishTaskEvent_reports (P : list Z -> Prop) ch d :
  preserves (fun w => P (reports w)) (publishTaskEvent ch d).
Proof.
  intros w Hw. unfold publishTaskEvent.
  destruct (pubsub_up w); simpl; exact Hw.
Qed.

(** A loop that reports [f i] at each round, when [f] does not decrease from
    a round to the next and stays below [hi]. *)
Lemma for_loop_rises (R : Z -> Prop) (f : Z -> Z) cond step hi :
  (forall i, R i -> cond i = true ->
     R (step i) /\ f i <= hi /\ (cond (step i) = true -> f i <= f (step i))) ->
  forall fuel i b,
    R i -> (cond i = true -> b <= f i) -> b <= hi ->
    hoare (reports_rise_to b)
          (for_loop fuel i cond step (fun i => updateProgress (f i)))
          (fun _ => reports_rise_to hi) (fun _ => reports_rise_to hi).
Proof.
  intros Hstep. induction fuel as [|fuel IH]; intros i b Ri Hb Hhi; simpl.
  - apply hoare_ret. intros w. now apply rising_to_weaken.
  - destruct (cond i) eqn:C.
    + destruct (Hstep i Ri C) as (Rs & Hfi & Hmono).
      eapply hoare_bind.
      * eapply hoare_conseq; [apply (updateProgress_rises b (f i)); auto | auto | | ].
        -- intros a w Hw. exact Hw.
        -- intros e w. now apply rising_to_weaken.
      * intros ?. now apply IH.
    + apply hoare_ret. intros w. now apply rising_to_weaken.
Qed.

Lemma data_progress_bounds rc i :
  0 <= i -> i < rc -> 10 <= data_progress rc i <= 90.
Proof.
  intros Hi Hrc. unfold data_progress.
  assert (0 <= i * 80 / rc) by (apply Z.div_pos; lia). lia.
Qed.

Lemma data_progress_mono rc i :
  0 <= i -> i < rc -> data_progress rc i <= data_progress rc (i + 10).
Proof.
  intros Hi Hrc. unfold data_progress.
  assert (i * 80 / rc <= (i + 10) * 80 / rc) by (apply Z.div_le_mono; lia).
  lia.
Qed.

Lemma image_progress_bounds len i :
  0 <= i -> i < len -> 10 <= image_progress len i <= 90.
Proof.
  intros Hi Hlen. unfold image_progress.
  assert (0 <= (i + 1) * 80 / len) by (apply Z.div_pos; lia).
  assert ((i + 1) * 80 / len <= 80)
    by (apply Z.div_le_upper_bound; nia).
  lia.
Qed.

Lemma image_progress_mono len i :
  0 <= i -> i < len -> image_progress len i <= image_progress len (i + 1).
Proof.
  intros Hi Hlen. unfold image_progress.
  assert ((i + 1) * 80 / len <= (i + 1 + 1) * 80 / len)
    by (apply Z.div_le_mono; lia).
  lia.
Qed.

Ltac keep_rises :=
  repeat first
    [ apply preserves_ret
    | apply preserves_log_value
    | apply preserves_gets
    | apply preserves_bind; [|intros ?] ].

Lemma processEmailTask_rises amb b : preserves (reports_rise_to b) (processEmailTask amb).
Proof. unfold processEmailTask. keep_rises. Qed.

Lemma processGenericTask_rises amb b : preserves (reports_rise_to b) (processGenericTask amb).
Proof. unfold processGenericTask. keep_rises. Qed.

Lemma keep_then {A} (m : M World A) b hi :
  b <= hi -> preserves (reports_rise_to b) m ->
  hoare (reports_rise_to b) m (fun _ => reports_rise_to b) (fun _ => reports_rise_to hi).
Proof.
  intros Hb H. eapply hoare_conseq; [exact H| auto | auto |].
  intros ? w; now apply rising_to_weaken.
Qed.

Lemma upto {A} (m : M World A) b hi :
  b <= hi -> preserves (reports_rise_to b) m ->
  hoare (reports_rise_to b) m (fun _ => reports_rise_to hi) (fun _ => reports_rise_to hi).
Proof.
  intros Hb H. eapply hoare_conseq; [exact H| auto | |];
    intros ? w; now apply rising_to_weaken.
Qed.

Lemma processReportTask_rises amb :
  hoare (reports_rise_to 10) (processReportTask amb) (fun _ => reports_rise_to 90) (fun _ => reports_rise_to 90).
Proof.
  unfold processReportTask.
  eapply hoare_bind; [apply keep_then; [lia|apply preserves_gets]|]. intros j.
  eapply hoare_bind; [apply keep_then; [lia|apply preserves_log_value]|]. intros ?.
  eapply hoare_bind; [apply keep_then; [lia|apply preserves_log_value]|]. intros ?.
  eapply hoare_bind; [|intros ?; apply preserves_ret].
  apply (for_loop_rises (fun i => 20 <= i) (fun i => i)); lia.
Qed.

Lemma processDataProcessingTask_rises amb :
  hoare (reports_rise_to 10) (processDataProcessingTask amb)
        (fun _ => reports_rise_to 90) (fun _ => reports_rise_to 90).
Proof.
  unfold processDataProcessingTask.
  eapply hoare_bind; [apply keep_then; [lia|apply preserves_gets]|]. intros j.
  eapply hoare_bind; [apply keep_then; [lia|apply preserves_log_value]|]. intros ?.
  eapply hoare_bind; [|intros ?; apply preserves_ret].
  apply (for_loop_rises (fun i => 0 <= i) (data_progress (recordCount_of j))); try lia.
  - intros i Hi C. apply Z.ltb_lt in C. repeat split; try lia.
    + apply data_progress_bounds; lia.
    + intros _. apply data_progress_mono; lia.
  - intros C. apply Z.ltb_lt in C. apply data_progress_bounds; lia.
Qed.

Lemma processImageProcessingTask_rises amb :
  hoare (reports_rise_to 10) (processImageProcessingTask amb)
        (fun _ => reports_rise_to 90) (fun _ => reports_rise_to 90).
Proof.
  unfold processImageProcessingTask.
  eapply hoare_bind; [apply keep_then; [lia|apply preserves_gets]|]. intros j.
  eapply hoare_bind; [apply keep_then; [lia|apply preserves_log_value]|]. intros ?.
  eapply hoare_bind; [|intros ?; apply preserves_ret].
  apply (for_loop_rises (fun i => 0 <= i)
           (image_progress (Z.of_nat (List.length (operations_of j))))); try lia.
  - intros i Hi C. apply Z.ltb_lt in C. repeat split; try lia.
    + apply image_progress_bounds; lia.
    + intros C'. apply Z.ltb_lt in C'. apply image_progress_mono; lia.
  - intros C. apply Z.ltb_lt in C. apply image_progress_bounds; lia.
Qed.

Lemma processTask_rises amb :
  hoare (reports_rise_to 10) (processTask amb) (fun _ => reports_rise_to 90) (fun _ => reports_rise_to 90).
Proof.
  unfold processTask.
  eapply hoare_bind; [apply keep_then; [lia|apply preserves_gets]|]. intros j.
  eapply hoare_try_catch with (E1 := fun _ => reports_rise_to 90).
  - eapply hoare_bind; [|intros ?; apply preserves_ret].
    repeat match goal with
           | |- hoare _ (if ?c then _ else _) _ _ => destruct c
           end.
    + apply upto; [lia|apply processEmailTask_rises].
    + apply processReportTask_rises.
    + apply processDataProcessingTask_rises.
    + apply processImageProcessingTask_rises.
    + apply upto; [lia|apply processGenericTask_rises].
  - intros e. apply preserves_bind; [apply (console_error_reports (rising_to 90))|].
    intros ?. apply preserves_throw.
Qed.

(** The reports of one run of the processor, begun with none: none at all, or
    10 first and then values that never decrease, up to 100. *)
Lemma processor_rises amb :
  hoare (fun w => reports w = []) (processor amb)
        (fun _ => reports_rise_to 100)
        (fun _ w => reports w = [] \/ reports_rise_to 100 w).
Proof.
  unfold processor.
  eapply hoare_try_catch with (E1 := fun _ w => reports w = [] \/ reports_rise_to 100 w).
  - eapply hoare_bind.
    { eapply hoare_conseq; [apply updateProgress_first | auto | |].
      - intros ? w H. exact H.
      - intros ? w H. now left. }
    intros ?. eapply hoare_bind.
    { eapply hoare_conseq; [apply processTask_rises | auto | |].
      - intros ? w H. exact H.
      - intros ? w H. right. now apply (rising_to_weaken 90). }
    intros result. eapply hoare_bind.
    { eapply hoare_conseq; [apply (updateProgress_rises 90 90); lia | auto | |].
      - intros ? w H. exact H.
      - intros ? w H. right. now apply (rising_to_weaken 90). }
    intros ?. eapply hoare_bind.
    { eapply hoare_conseq; [apply (preserves_gets (reports_rise_to 90)) | auto | |].
      - intros ? w H. exact H.
      - intros ? w H. right. now apply (rising_to_weaken 90). }
    intros j. eapply hoare_bind.
    { eapply hoare_conseq;
        [apply (publishTaskEvent_reports (rising_to 90)) | auto | |].
      - intros ? w H. exact H.
      - intros ? w H. right. now apply (rising_to_weaken 90). }
    intros ?. eapply hoare_bind.
    { eapply hoare_conseq; [apply (updateProgress_rises 90 100); lia | auto | |].
      - intros ? w H. exact H.
      - intros ? w H. now right. }
    intros ?. apply hoare_ret. auto.
  - intros e.
    set (P := fun l : list Z => l = [] \/ rising_to 100 l).
    change (hoare (A := JsVal) (fun w => P (reports w))
              (j <- gets job ;;
               console_error ("Job " ++ id j ++ " failed: " ++ e) ;;;
               publishTaskEvent "task:failed" (failed_event amb j e) ;;;
               throw e)
              (fun _ => reports_rise_to 100) (fun _ w => P (reports w))).
    eapply hoare_bind; [apply preserves_gets|]. intros j.
    eapply hoare_bind; [apply console_error_reports|]. intros ?.
    eapply hoare_bind; [apply publishTaskEvent_reports|]. intros ?.
    apply hoare_throw. auto.
Qed.

(** The bounds on the rounds of the three loops are never what ends them. *)
Lemma iter_add (c : Z) (n : nat) (i : Z) :
  Nat.iter n (fun i => i + c) i = i + c * Z.of_nat n.
Proof.
  induction n as [|n IH]; [simpl; lia|].
  rewrite Nat.iter_succ, IH. lia.
Qed.

Lemma report_loop_complete (body : Z -> M World unit) extra w :
  for_loop (4 + extra) 20 (fun i => i <=? 80) (fun i => i + 20) body w
  = for_loop 4 20 (fun i => i <=? 80) (fun i => i + 20) body w.
Proof. apply for_loop_enough. reflexivity. Qed.

Lemma data_loop_complete (body : Z -> M World unit) rc extra w :
  for_loop (Z.to_nat rc + extra) 0 (fun i => i <? rc) (fun i => i + 10) body w
  = for_loop (Z.to_nat rc) 0 (fun i => i <? rc) (fun i => i + 10) body w.
Proof.
  apply for_loop_enough. rewrite iter_add. apply Z.ltb_ge. lia.
Qed.

Lemma image_loop_complete (body : Z -> M World unit) (ops : list string) extra w :
  for_loop (List.length ops + extra) 0
    (fun i => i <? Z.of_nat (List.length ops)) (fun i => i + 1) body w
  = for_loop (List.length ops) 0
      (fun i => i <? Z.of_nat (List.length ops)) (fun i => i + 1) body w.
Proof.
  apply for_loop_enough. rewrite iter_add. apply Z.ltb_ge. lia.
Qed.

Lemma run_attempt_rises amb w :
  let a := fst (run_attempt amb w) in
  StronglySorted Z.le (reported a) /\
  Forall (fun x => 10 <= x <= 100) (reported a) /\
  (reported a = [] \/ hd_error (reported a) = Some 10).
Proof.
  unfold run_attempt.
  pose proof (processor_rises amb (fresh_logs w) eq_refl) as H.
  destruct (processor amb (fresh_logs w)) as [r w'].
  destruct (settle amb (job w') r) as [j' st]. simpl.
  assert (G : reports w' = [] \/ reports_rise_to 100 w') by (destruct r; auto).
  destruct G as [G|(Hh & Hs & Hf)].
  - rewrite G. repeat split; [constructor | constructor | now left].
  - repeat split; auto.
Qed.

Lemma run_attempt_start amb w :
  start_progress (fst (run_attempt amb w)) = progress (job w).
Proof.
  unfold run_attempt. destruct (processor amb (fresh_logs w)) as [r w'].
  now destruct (settle amb (job w') r).
Qed.

Lemma run_job_attempts fuel amb :
  forall w a, In a (run_job fuel amb w) ->
    exists w1, progress (job w1) = 0 /\ a = fst (run_attempt amb w1).
Proof.
  induction fuel as [|fuel IH]; intros w a Ha; simpl in Ha; [contradiction|].
  destruct (run_attempt amb (new_attempt w)) as [a0 w'] eqn:R.
  assert (E0 : a0 = fst (run_attempt amb (new_attempt w))) by now rewrite R.
  destruct (state_after a0); simpl in Ha;
    try (destruct Ha as [<-|[]]; now exists (new_attempt w)).
  destruct Ha as [<-|Ha]; [now exists (new_attempt w) | now apply (IH w')].
Qed.

Example reports_of_a_report_job :
  map reported (run_job 3 amb0 (start_world report_job [] true))
  = [[10; 20; 40; 60; 80; 90; 100]].
Proof. reflexivity. Qed.

Example reports_of_a_data_job :
  map reported
      (run_job 3 amb0 (start_world (job_of_type "dataProcessing" None) [] true))
  = [[10; 10; 18; 26; 34; 42; 50; 58; 66; 74; 82; 90; 100]].
Proof. reflexivity. Qed.

Example reports_of_an_image_job :
  map reported
      (run_job 3 amb0 (start_world (job_of_type "imageProcessing" None) [] true))
  = [[10; 36; 63; 90; 90; 100]].
Proof. reflexivity. Qed.

(** C9: every attempt of a job begins with the progress at 0, to which the
    queue resets it on each new attempt; the values the attempt then reports
    never decrease from there and lie between 0 and 100, the first of them
    being 10. *)
Theorem C9_progress_reports_of_an_attempt :
  forall fuel amb w a,
    In a (run_job fuel amb w) ->
    start_progress a = 0 /\
    StronglySorted Z.le (start_progress a :: reported a) /\
    Forall (fun x => 0 <= x <= 100) (reported a) /\
    (reported a = [] \/ hd_error (reported a) = Some 10).
Proof.
  intros fuel amb w a Ha.
  destruct (run_job_attempts _ _ _ _ Ha) as (w1 & H0 & ->).
  destruct (run_attempt_rises amb w1) as (Hs & Hf & Hh).
  rewrite run_attempt_start, H0.
  split; [reflexivity|]. split; [|split; [|exact Hh]].
  - constructor; [exact Hs|].
    eapply Forall_impl; [|exact Hf]. simpl. intros; lia.
  - eapply Forall_impl; [|exact Hf]. simpl. intros; lia.
Qed.

(** A report job whose fourth progress update fails: the first attempt
    reports 10, 20, 40 and throws, the second begins at 0 again and runs to
    the end. *)
Lemma C9_progress_reports_of_an_attempt_witness :
  let a := nth 1 (run_job 3 amb0 (start_world report_job [false; false; false; true] true))
               {| start_progress := 0; reported := []; outcome := Throw "";
                  new_events := []; state_after := Queued |} in
  start_progress a = 0 /\
  StronglySorted Z.le (start_progress a :: reported a) /\
  Forall (fun x => 0 <= x <= 100) (reported a) /\
  (reported a = [] \/ hd_error (reported a) = Some 10).
Proof.
  apply (C9_progress_reports_of_an_attempt 3 amb0
           (start_world report_job [false; false; false; true] true)).
  vm_compute. right. left. reflexivity.
Defined.

End WorkerFacts.

(** ** The worker: published events and outcomes *)

Module WorkerEventFacts.
Import Js Env Producer Eff Worker EffFacts Samples.
Local Open Scope eff_scope.

Lemma same_job_refl j : same_job j j.
Proof. reflexivity. Qed.

Lemma same_job_progress p j j0 : same_job j j0 -> same_job (with_progress p j) j0.
Proof. unfold same_job. now destruct j, j0. Qed.

Lemma same_job_fields j j0 :
  same_job j j0 ->
  id j = id j0 /\ name j = name j0 /\ data j = data j0 /\
  opts j = opts j0 /\ attemptsMade j = attemptsMade j0.
Proof.
  unfold same_job, with_progress. destruct j, j0; simpl.
  intro E. inversion E. now subst.
Qed.

Lemma completed_event_same amb j j0 r :
  same_job j j0 -> completed_event amb j r = completed_event amb j0 r.
Proof.
  intro H. destruct (same_job_fields _ _ H) as (Hi & Hn & Hd & _).
  unfold completed_event, userId_value. now rewrite Hi, Hn, Hd.
Qed.

Lemma failed_event_same amb j j0 e :
  same_job j j0 -> failed_event amb j e = failed_event amb j0 e.
Proof.
  intro H. destruct (same_job_fields _ _ H) as (Hi & Hn & Hd & _ & Ha).
  unfold failed_event, userId_value. now rewrite Hi, Hn, Hd, Ha.
Qed.

Section Since.
Variable w0 : World.
Variable pre : list (string * Wire).

Lemma updateProgress_after p : preserves (After w0 pre) (updateProgress p).
Proof.
  intros w (Hp & Hu & Hj). unfold updateProgress.
  destruct (redis_faults w) as [|[|] rest]; simpl; repeat split; auto;
    now apply same_job_progress.
Qed.

Lemma console_error_after line : preserves (After w0 pre) (console_error line).
Proof. apply hoare_modify. intros w H. exact H. Qed.

Lemma publishTaskEvent_after ch d :
  hoare (After w0 pre) (publishTaskEvent ch d)
        (fun _ => After w0 (pre ++ [(ch, JSON_stringify d)]))
        (fun _ _ => False).
Proof.
  intros w (Hp & Hu & Hj). unfold publishTaskEvent. rewrite Hu. simpl.
  repeat split; auto. rewrite Hp. now rewrite app_assoc.
Qed.

Ltac keep_after :=
  repeat first
    [ apply preserves_ret
    | apply preserves_throw
    | apply preserves_log_value
    | apply preserves_gets
    | apply updateProgress_after
    | apply console_error_after
    | apply preserves_for_loop; intros ?
    | apply preserves_bind; [|intros ?]
    | apply preserves_try_catch; [|intros ?]
    | apply preserves_if ].

Lemma processTask_after amb : preserves (After w0 pre) (processTask amb).
Proof.
  unfold processTask, processEmailTask, processReportTask,
    processDataProcessingTask, processImageProcessingTask, processGenericTask.
  keep_after.
Qed.

End Since.

(** What one run of the processor publishes when the publishing connection
    works: [task:completed] and nothing else when it returns; [task:failed]
    last when it throws, preceded by [task:completed] only if the error came
    after the completion had been published. *)
Lemma processor_events amb w0 :
  pubsub_up w0 = true ->
  match processor amb w0 with
  | (Ok res, w') =>
      After w0 [("task:completed",
                 JSON_stringify (completed_event amb (job w0) res))] w'
  | (Throw e, w') =>
      exists pre,
      After w0 (pre ++ [("task:failed",
                         JSON_stringify (failed_event amb (job w0) e))]) w' /\
      (pre = [] \/
       exists res, pre = [("task:completed",
                           JSON_stringify (completed_event amb (job w0) res))])
  end.
Proof.
  intro Hup.
  set (done := fun res =>
         [("task:completed", JSON_stringify (completed_event amb (job w0) res))]).
  assert (H0 : After w0 [] w0).
  { repeat split; auto. now rewrite app_nil_r. }
  enough (H : hoare (After w0 [])
            (processor amb)
            (fun res => After w0 (done res))
            (fun e w' =>
               exists pre,
                 After w0 (pre ++ [("task:failed",
                     JSON_stringify (failed_event amb (job w0) e))]) w' /\
                 (pre = [] \/ exists res, pre = done res)))
    by exact (H w0 H0).
  unfold processor.
  eapply hoare_try_catch
    with (E1 := fun _ w => After w0 [] w \/ exists res, After w0 (done res) w).
  - eapply hoare_bind.
    { eapply hoare_conseq; [apply (updateProgress_after w0 []) | auto | |].
      - intros ? w H. exact H.
      - intros ? w H. now left. }
    intros ?. eapply hoare_bind.
    { eapply hoare_conseq; [apply (processTask_after w0 []) | auto | |].
      - intros ? w H. exact H.
      - intros ? w H. now left. }
    intros result. eapply hoare_bind.
    { eapply hoare_conseq; [apply (updateProgress_after w0 []) | auto | |].
      - intros ? w H. exact H.
      - intros ? w H. now left. }
    intros ?. eapply hoare_bind
      with (Q1 := fun j w => After w0 [] w /\ same_job j (job w0)).
    { apply hoare_gets. intros w H. split; [exact H|]. apply H. }
    intros j. eapply hoare_bind with (Q1 := fun _ => After w0 (done result)).
    { intros w [H Hj].
      pose proof (publishTaskEvent_after w0 []
                    "task:completed" (completed_event amb j result) w H) as P.
      destruct (publishTaskEvent "task:completed" (completed_event amb j result) w)
        as [[?|?] w']; [|contradiction].
      unfold done. now rewrite <- (completed_event_same amb j (job w0) result Hj). }
    intros ?. eapply hoare_bind.
    { eapply hoare_conseq; [apply (updateProgress_after w0 (done result)) | auto | |].
      - intros ? w H. exact H.
      - intros ? w H. right. now exists result. }
    intros ?. apply hoare_ret. auto.
  - intros e.
    eapply hoare_bind
      with (Q1 := fun j w => (After w0 [] w \/ exists res, After w0 (done res) w)
                             /\ same_job j (job w0)).
    { apply hoare_gets. intros w H. split; [exact H|].
      destruct H as [H|[res H]]; apply H. }
    intros j. eapply hoare_bind
      with (Q1 := fun _ w => (After w0 [] w \/ exists res, After w0 (done res) w)
                             /\ same_job j (job w0)).
    { apply hoare_modify. intros w H. exact H. }
    intros ?. eapply hoare_bind
      with (Q1 := fun _ w =>
              exists pre,
                After w0 (pre ++ [("task:failed",
                    JSON_stringify (failed_event amb (job w0) e))]) w /\
                (pre = [] \/ exists res, pre = done res)).
    { intros w [H Hj].
      rewrite (failed_event_same amb j (job w0) e Hj).
      destruct H as [H|[res H]].
      - pose proof (publishTaskEvent_after w0 [] "task:failed"
                      (failed_event amb (job w0) e) w H) as P.
        destruct (publishTaskEvent "task:failed" (failed_event amb (job w0) e) w)
          as [[?|?] w']; [|contradiction].
        exists []. split; [exact P | now left].
      - pose proof (publishTaskEvent_after w0 (done res) "task:failed"
                      (failed_event amb (job w0) e) w H) as P.
        destruct (publishTaskEvent "task:failed" (failed_event amb (job w0) e) w)
          as [[?|?] w']; [|contradiction].
        exists (done res). split; [exact P | right; now exists res]. }
    intros ?. apply hoare_throw. auto.
Qed.

Lemma updateProgress_ok p w :
  Forall (fun b => b = false) (redis_faults w) ->
  updateProgress p w = (Ok tt, progressed p w) /\
  Forall (fun b => b = false) (redis_faults (progressed p w)).
Proof.
  intro F. unfold updateProgress, progressed.
  destruct (redis_faults w) as [|b rest]; simpl.
  - split; [reflexivity | constructor].
  - inversion F; subst. split; [reflexivity | assumption].
Qed.

Lemma processTask_generic amb w :
  has_processor (name (job w)) = false ->
  processTask amb w =
  (Ok (stamp_result amb (job w) (generic_result amb (job w))), w).
Proof.
  unfold has_processor. intro H.
  repeat (apply orb_false_iff in H; destruct H as [H ?]).
  unfold processTask, Eff.bind, gets, try_catch. simpl.
  repeat match goal with E : String.eqb _ _ = false |- _ => rewrite E; clear E end.
  reflexivity.
Qed.

(** A job whose every attempt fails at once: three attempts, each publishing
    [task:failed], the job delayed twice and then failed. *)
Example always_failing_job :
  map (fun a => (map fst (new_events a),
                 match state_after a with
                 | Delayed _ => "delayed"
                 | Failed reason => "failed: " ++ reason
                 | _ => "other"
                 end))
      (run_job 5 amb0 (start_world report_job [true; true; true; true] true))
  = [(["task:failed"], "delayed");
     (["task:failed"], "delayed");
     (["task:failed"], "failed: Connection is closed.")].
Proof. reflexivity. Qed.

(** C3, as amended: every error of the processor publishes [task:failed] for
    that attempt, carrying [attemptsMade + 1], whether or not attempts
    remain; the error is thrown on, and the job is then delayed for a retry
    when attempts remain and failed when none does. *)
Theorem C3_task_failed_published_on_every_error :
  forall amb w e w',
    pubsub_up w = true ->
    processor amb w = (Throw e, w') ->
    (exists pre,
       published w' =
       (published w ++ pre ++
         [("task:failed", JSON_stringify (failed_event amb (job w) e))])%list) /\
    get (failed_event amb (job w) e) "attemptsMade"
      = Ok (JNum (attemptsMade (job w) + 1)) /\
    (attemptsMade (job w) + 1 < attempts (opts (job w)) ->
       exists j' d, settle amb (job w') (Throw e) = (j', Delayed d)) /\
    (attempts (opts (job w)) <= attemptsMade (job w) + 1 ->
       exists j', settle amb (job w') (Throw e) = (j', Failed e)).
Proof.
  intros amb w e w' Hup Hrun.
  pose proof (processor_events amb w Hup) as H. rewrite Hrun in H.
  destruct H as (pre & (Hp & _ & Hj) & _).
  destruct (same_job_fields _ _ Hj) as (_ & _ & _ & Ho & Ha).
  split; [|split; [reflexivity|split]].
  - exists pre. exact Hp.
  - intro Hlt. unfold settle. rewrite Ho, Ha.
    apply Z.ltb_lt in Hlt. rewrite Hlt. eauto.
  - intro Hge. unfold settle. rewrite Ho, Ha.
    apply Z.ltb_ge in Hge. rewrite Hge. eauto.
Qed.

(** A report job on its first attempt whose first progress update fails. *)
Lemma C3_task_failed_published_on_every_error_witness :
  let w := start_world report_job [true] true in
  let e := "Connection is closed." in
  let w' := snd (processor amb0 w) in
  (exists pre,
     published w' =
     (published w ++ pre ++
       [("task:failed", JSON_stringify (failed_event amb0 (job w) e))])%list) /\
  exists j' d, settle amb0 (job w') (Throw e) = (j', Delayed d).
Proof.
  destruct (C3_task_failed_published_on_every_error amb0
              (start_world report_job [true] true) "Connection is closed."
              (snd (processor amb0 (start_world report_job [true] true))))
    as (H1 & _ & H2 & _).
  - reflexivity.
  - vm_compute. reflexivity.
  - split; [exact H1|]. apply H2. vm_compute. reflexivity.
Defined.

(** C3 as stated fails: the first attempt of a job with three attempts
    throws, and [task:failed] is published although attempts remain. *)
Lemma C3_counterexample :
  ~ (forall amb j faults e w',
       processor amb (start_world j faults true) = (Throw e, w') ->
       (In "task:failed" (map fst (published w')) <->
        attempts (opts j) <= attemptsMade j + 1)).
Proof.
  intro H.
  specialize (H amb0 report_job [true] "Connection is closed."
                (snd (processor amb0 (start_world report_job [true] true)))).
  assert (R : processor amb0 (start_world report_job [true] true) =
              (Throw "Connection is closed.",
               snd (processor amb0 (start_world report_job [true] true))))
    by (vm_compute; reflexivity).
  destruct (H R) as [H1 _].
  assert (I : In "task:failed"
                (map fst (published
                   (snd (processor amb0 (start_world report_job [true] true))))))
    by (vm_compute; left; reflexivity).
  specialize (H1 I). vm_compute in H1. apply H1. reflexivity.
Qed.

(** C2, as amended: a job whose type has no processor of its own is handled
    by the generic processor: [processTask] returns a result with status
    [completed] and never throws; when the worker's connections work the
    attempt succeeds, [task:completed] is published and the job is
    completed.  Such a job is neither failed for its type nor dropped. *)
Theorem C2_unknown_type_is_processed_generically :
  forall amb w,
    has_processor (name (job w)) = false ->
    processTask amb w =
      (Ok (stamp_result amb (job w) (generic_result amb (job w))), w) /\
    get (stamp_result amb (job w) (generic_result amb (job w))) "status"
      = Ok (JStr "completed") /\
    (Forall (fun b => b = false) (redis_faults w) ->
     pubsub_up w = true ->
     exists res w',
       processor amb w = (Ok res, w') /\
       res = stamp_result amb (job w) (generic_result amb (job w)) /\
       published w' =
         (published w ++
           [("task:completed", JSON_stringify (completed_event amb (job w) res))])%list /\
       snd (settle amb (job w') (Ok res)) = Completed res).
Proof.
  intros amb w Hn. split; [now apply processTask_generic|]. split; [reflexivity|].
  intros F Hup.
  destruct (updateProgress_ok 10 w F) as [E1 F1].
  assert (G : processTask amb (progressed 10 w) =
              (Ok (stamp_result amb (job w) (generic_result amb (job w))),
               progressed 10 w)).
  { rewrite processTask_generic by exact Hn. reflexivity. }
  destruct (updateProgress_ok 90 (progressed 10 w) F1) as [E2 F2].
  pose proof (processor_events amb w Hup) as Hev.
  assert (R : exists w', processor amb w =
            (Ok (stamp_result amb (job w) (generic_result amb (job w))), w')).
  { unfold processor, try_catch, Eff.bind. rewrite E1, G, E2.
    unfold gets, publishTaskEvent. simpl. rewrite Hup.
    match goal with
    | |- context [updateProgress 100 ?w1] =>
        destruct (updateProgress_ok 100 w1) as [E3 _]; [exact F2|rewrite E3]
    end.
    eexists. reflexivity. }
  destruct R as [w' R]. rewrite R in Hev. destruct Hev as (Hp & _ & _).
  eexists _, w'. repeat split; [exact R | exact Hp].
Qed.

Lemma C2_unknown_type_is_processed_generically_witness :
  let w := start_world video_job [] true in
  exists res w',
    processor amb0 w = (Ok res, w') /\
    res = stamp_result amb0 (job w) (generic_result amb0 (job w)) /\
    published w' =
      (published w ++
        [("task:completed", JSON_stringify (completed_event amb0 (job w) res))])%list /\
    snd (settle amb0 (job w') (Ok res)) = Completed res.
Proof.
  apply (proj2 (proj2 (C2_unknown_type_is_processed_generically
                         amb0 (start_world video_job [] true) eq_refl))).
  - constructor.
  - reflexivity.
Defined.

(** C2 as stated fails: a job of type [video] is completed, not failed with
    reason [unknown task type]. *)
Lemma C2_counterexample :
  ~ (forall amb j faults pubsub,
       has_processor (name j) = false ->
       state_after (fst (run_attempt amb (start_world j faults pubsub)))
       = Failed "unknown task type").
Proof.
  intro H. specialize (H amb0 video_job [] true eq_refl).
  vm_compute in H. discriminate.
Qed.

End WorkerEventFacts.

(** ** The notification router *)

Module SubscriberFacts.
Import Js Env Eff Subscriber Samples.
Local Open Scope eff_scope.

Ltac case_res :=
  repeat match goal with
  | |- context [match ?X with Ok _ => _ | Throw _ => _ end] =>
      lazymatch X with
      | Ok _ => fail
      | Throw _ => fail
      | _ => destruct X eqn:?
      end
  | |- context [if ?b then _ else _] => destruct b eqn:?
  end.

Ltac run_handler :=
  unfold handleTaskCompleted, handleTaskFailed, handleTaskStarted,
    handleSystemBroadcast, console_warn, user_room, log_value, emit, modify,
    Eff.bind, Js.bind, lift, ret.

Ltac same_sub :=
  try congruence;
  unfold framed, add_emits; simpl;
  rewrite ?app_nil_r, <- ?app_assoc; simpl;
  try reflexivity;
  match goal with
  | |- (_, ?s) = (_, _) => destruct s; reflexivity
  end.

(** A handler does on any state what it does on the idle one: it throws
    before it emits anything, or adds its emits. *)
Lemma handleTaskCompleted_uniform amb data s :
  handleTaskCompleted amb data s =
  match handleTaskCompleted amb data idle with
  | (Ok _, d) => (Ok tt, framed s d)
  | (Throw e, _) => (Throw e, s)
  end.
Proof. run_handler. case_res; same_sub. Qed.

Lemma handleTaskFailed_uniform amb data s :
  handleTaskFailed amb data s =
  match handleTaskFailed amb data idle with
  | (Ok _, d) => (Ok tt, framed s d)
  | (Throw e, _) => (Throw e, s)
  end.
Proof. run_handler. case_res; same_sub. Qed.

Lemma handleTaskStarted_uniform amb data s :
  handleTaskStarted amb data s =
  match handleTaskStarted amb data idle with
  | (Ok _, d) => (Ok tt, framed s d)
  | (Throw e, _) => (Throw e, s)
  end.
Proof. run_handler. case_res; same_sub. Qed.

Lemma handleSystemBroadcast_uniform amb data s :
  handleSystemBroadcast amb data s =
  match handleSystemBroadcast amb data idle with
  | (Ok _, d) => (Ok tt, framed s d)
  | (Throw e, _) => (Throw e, s)
  end.
Proof. run_handler. case_res; same_sub. Qed.

Lemma handler_for_uniform amb ch data s :
  handler_for amb ch data s =
  match handler_for amb ch data idle with
  | (Ok _, d) => (Ok tt, framed s d)
  | (Throw e, _) => (Throw e, s)
  end.
Proof.
  unfold handler_for.
  destruct (String.eqb ch "task:completed"); [apply handleTaskCompleted_uniform|].
  destruct (String.eqb ch "task:failed"); [apply handleTaskFailed_uniform|].
  destruct (String.eqb ch "task:started"); [apply handleTaskStarted_uniform|].
  destruct (String.eqb ch "system:broadcast"); [apply handleSystemBroadcast_uniform|].
  run_handler. same_sub.
Qed.

Lemma route_message_uniform amb ch msg s :
  route_message amb ch msg s =
  match route_message amb ch msg idle with
  | (Ok _, d) => (Ok tt, framed s d)
  | (Throw e, _) => (Throw e, s)
  end.
Proof.
  unfold route_message, log_value, Eff.bind, lift, ret.
  destruct (JSON_parse msg) as [data|]; [|reflexivity].
  destruct (get data "jobId") as [jobId|]; [|reflexivity].
  destruct (to_string jobId); [|reflexivity].
  destruct (get data "userId") as [userId|]; [|reflexivity].
  destruct (to_string userId); [|reflexivity].
  apply handler_for_uniform.
Qed.

Ltac read_fields H :=
  repeat match type of H with
  | context [match get ?d ?k with Ok _ => _ | Throw _ => _ end] =>
      destruct (get d k); [|discriminate H]
  end.

Ltac targeted_or_broadcast H :=
  match type of H with
  | context [has_recipient ?u] =>
      destruct (has_recipient u);
      [ destruct (to_string u); [|discriminate H];
        inversion H; subst; eexists; eexists; split; [reflexivity|];
        unfold add_emits; simpl; rewrite <- ?app_assoc; reflexivity
      | inversion H; subst; eexists; reflexivity ]
  end.

(** The emits of the handlers, by recipient. *)
Lemma handleTaskCompleted_emits amb data s s' userId :
  handleTaskCompleted amb data s = (Ok tt, s') ->
  get data "userId" = Ok userId ->
  exists n,
    if has_recipient userId
    then exists room,
           user_room userId = Ok room /\
           s' = add_emits s [{| target := ToRoom room; event := "notification"; payload := n |};
                             {| target := ToRoom room; event := "task:completed"; payload := n |}]
    else s' = add_emits s [{| target := ToAll; event := "notification"; payload := n |}].
Proof.
  run_handler. intros H G.
  destruct (get data "taskType") as [ty|]; [|discriminate].
  destruct (to_string ty); [|discriminate].
  rewrite G in H. read_fields H. targeted_or_broadcast H.
Qed.

Lemma handleTaskFailed_emits amb data s s' userId :
  handleTaskFailed amb data s = (Ok tt, s') ->
  get data "userId" = Ok userId ->
  exists n,
    if has_recipient userId
    then exists room,
           user_room userId = Ok room /\
           s' = add_emits s [{| target := ToRoom room; event := "notification"; payload := n |};
                             {| target := ToRoom room; event := "task:failed"; payload := n |}]
    else s' = add_emits s [{| target := ToAll; event := "notification"; payload := n |}].
Proof.
  run_handler. intros H G.
  destruct (get data "taskType") as [ty|]; [|discriminate].
  destruct (to_string ty); [|discriminate].
  rewrite G in H. read_fields H. targeted_or_broadcast H.
Qed.

Lemma handleTaskStarted_emits amb data s s' userId :
  handleTaskStarted amb data s = (Ok tt, s') ->
  get data "userId" = Ok userId ->
  if has_recipient userId
  then exists room n,
         user_room userId = Ok room /\
         s' = add_emits s [{| target := ToRoom room; event := "notification"; payload := n |}]
  else s' = s.
Proof.
  run_handler. intros H G.
  destruct (get data "taskType") as [ty|]; [|discriminate].
  destruct (to_string ty); [|discriminate].
  rewrite G in H. read_fields H.
  destruct (has_recipient userId).
  - destruct (to_string userId); [|discriminate H].
    inversion H; subst. eexists. eexists. split; reflexivity.
  - now inversion H.
Qed.

Lemma handleSystemBroadcast_emits amb data s s' :
  handleSystemBroadcast amb data s = (Ok tt, s') ->
  exists n,
    s' = add_emits s [{| target := ToAll; event := "notification"; payload := n |};
                      {| target := ToAll; event := "system:broadcast"; payload := n |}].
Proof.
  run_handler. intros H. read_fields H.
  inversion H; subst. eexists.
  unfold add_emits; simpl; rewrite <- ?app_assoc; reflexivity.
Qed.

(** A message that is routed without an error has reached the handler of
    its channel with the parsed data. *)
Lemma route_message_ok amb ch data s s' :
  route_message amb ch (Serialized data) s = (Ok tt, s') ->
  (exists userId, get data "userId" = Ok userId) /\
  handler_for amb ch data s = (Ok tt, s').
Proof.
  unfold route_message, log_value, Eff.bind, lift, ret. simpl.
  destruct (get data "jobId") as [jobId|]; [|discriminate].
  destruct (to_string jobId); [|discriminate].
  destruct (get data "userId") as [userId|]; [|discriminate].
  destruct (to_string userId); [|discriminate].
  intro H. split; [now exists userId | exact H].
Qed.

Lemma on_message_uniform amb ch msg s :
  on_message amb ch msg s =
  match route_message amb ch msg idle with
  | (Ok _, d) => (Ok tt, framed s d)
  | (Throw e, _) => (Ok tt, add_error s e msg)
  end.
Proof.
  unfold on_message, try_catch. rewrite route_message_uniform.
  destruct (route_message amb ch msg idle) as [[[]|e] d]; reflexivity.
Qed.

(** Two states of the subscriber with the same emits and warnings. *)
Lemma deliver_same_io amb m s1 s2 :
  emitted s1 = emitted s2 -> warnings s1 = warnings s2 ->
  emitted (deliver amb s1 m) = emitted (deliver amb s2 m) /\
  warnings (deliver amb s1 m) = warnings (deliver amb s2 m).
Proof.
  intros He Hw. unfold deliver. rewrite !on_message_uniform.
  destruct (route_message amb (fst m) (snd m) idle) as [[[]|e] d]; simpl;
    rewrite He, Hw; auto.
Qed.

Lemma deliver_all_same_io amb ms :
  forall s1 s2,
    emitted s1 = emitted s2 -> warnings s1 = warnings s2 ->
    emitted (deliver_all amb ms s1) = emitted (deliver_all amb ms s2) /\
    warnings (deliver_all amb ms s1) = warnings (deliver_all amb ms s2).
Proof.
  induction ms as [|m ms IH]; intros s1 s2 He Hw; simpl; [auto|].
  destruct (deliver_same_io amb m s1 s2 He Hw) as [He' Hw'].
  now apply IH.
Qed.

Example routing_of_sample_events :
  map (fun e => (target e, event e))
      (emitted (deliver_all amb0
                  [("task:completed", Serialized alice_event);
                   ("task:started", Serialized alice_event);
                   ("task:failed", Serialized blank_user_event);
                   ("task:completed", Serialized JNull);
                   ("system:broadcast", Serialized announcement)] idle))
  = [(ToRoom "user:alice", "notification");
     (ToRoom "user:alice", "task:completed");
     (ToRoom "user:alice", "notification");
     (ToAll, "notification");
     (ToAll, "notification");
     (ToAll, "system:broadcast")].
Proof. reflexivity. Qed.

(** C7: the listener never throws; a message that does not parse makes the
    body of the listener throw; and whenever the body throws on a message
    (it does not parse, or a handler throws), the error is printed with the
    raw message, nothing is emitted for it, and the messages that follow, on
    any channel, are handled as if it had not come. *)
Theorem C7_bad_message_is_logged_and_dropped :
  (forall amb ch msg s, exists s', on_message amb ch msg s = (Ok tt, s')) /\
  (forall amb ch raw s, exists e, route_message amb ch (Garbage raw) s = (Throw e, s)) /\
  (forall amb ch msg s e s0,
     route_message amb ch msg s = (Throw e, s0) ->
     on_message amb ch msg s = (Ok tt, add_error s e msg) /\
     forall later,
       emitted (deliver_all amb ((ch, msg) :: later) s)
         = emitted (deliver_all amb later s) /\
       warnings (deliver_all amb ((ch, msg) :: later) s)
         = warnings (deliver_all amb later s)).
Proof.
  split; [|split].
  - intros amb ch msg s. rewrite on_message_uniform.
    destruct (route_message amb ch msg idle) as [[[]|e] d]; eauto.
  - intros amb ch raw s. eexists. reflexivity.
  - intros amb ch msg s e s0 H.
    assert (E : on_message amb ch msg s = (Ok tt, add_error s e msg)).
    { rewrite on_message_uniform. rewrite route_message_uniform in H.
      destruct (route_message amb ch msg idle) as [[[]|e'] d];
        inversion H; subst; reflexivity. }
    split; [exact E|].
    intro later.
    change (deliver_all amb ((ch, msg) :: later) s)
      with (deliver_all amb later (snd (on_message amb ch msg s))).
    rewrite E. now apply deliver_all_same_io.
Qed.

(** A message that is not JSON, followed by a completion for alice. *)
Lemma C7_bad_message_is_logged_and_dropped_witness :
  on_message amb0 "task:completed" (Garbage "{oops") idle
    = (Ok tt, add_error idle "Unexpected token in JSON" (Garbage "{oops")) /\
  emitted (deliver_all amb0 [("task:completed", Garbage "{oops");
                             ("task:completed", Serialized alice_event)] idle)
    = emitted (deliver_all amb0 [("task:completed", Serialized alice_event)] idle).
Proof.
  destruct (proj2 (proj2 C7_bad_message_is_logged_and_dropped)
              amb0 "task:completed" (Garbage "{oops") idle
              "Unexpected token in JSON" idle eq_refl) as [H1 H2].
  split; [exact H1|].
  exact (proj1 (H2 [("task:completed", Serialized alice_event)])).
Defined.

Lemma has_recipient_false userId :
  has_recipient userId = false <->
  (userId = JUndefined \/ userId = JNull \/ userId = JBool false \/
   userId = JNum 0 \/ userId = JStr "" \/ userId = JStr "anonymous").
Proof.
  unfold has_recipient, truthy, strict_neq_str. split.
  - destruct userId as [| |[|]|n|u|l|o]; simpl; try discriminate; auto.
    + destruct (Z.eqb_spec n 0); [subst; auto 6 | discriminate].
    + destruct (String.eqb_spec u ""); [subst; auto 6|].
      destruct (String.eqb_spec u "anonymous"); [subst; auto 6 | discriminate].
  - intros [-> | [-> | [-> | [-> | [-> | ->]]]]]; reflexivity.
Qed.

(** C4, as amended: a [task:completed] or [task:failed] event whose userId
    is truthy (neither missing nor [null], [false], 0 or the empty string)
    and is not ['anonymous'] is emitted to the room [user:<userId>] only;
    with any other userId it is emitted to all connected clients; a
    [system:broadcast] event is emitted to all connected clients whatever
    its fields. *)
Theorem C4_notification_targeting :
  forall amb ch data s s' userId,
    route_message amb ch (Serialized data) s = (Ok tt, s') ->
    get data "userId" = Ok userId ->
    (ch = "task:completed" \/ ch = "task:failed" ->
     if has_recipient userId
     then exists room es,
            user_room userId = Ok room /\ s' = add_emits s es /\ es <> [] /\
            Forall (fun e => target e = ToRoom room) es
     else exists n es,
            s' = add_emits s es /\
            In {| target := ToAll; event := "notification"; payload := n |} es /\
            Forall (fun e => target e = ToAll) es) /\
    (ch = "system:broadcast" ->
     exists n,
       s' = add_emits s
              [{| target := ToAll; event := "notification"; payload := n |};
               {| target := ToAll; event := "system:broadcast"; payload := n |}]) /\
    (has_recipient userId = false <->
     userId = JUndefined \/ userId = JNull \/ userId = JBool false \/
     userId = JNum 0 \/ userId = JStr "" \/ userId = JStr "anonymous").
Proof.
  intros amb ch data s s' userId R G.
  destruct (route_message_ok _ _ _ _ _ R) as [_ H].
  split; [|split; [|apply has_recipient_false]].
  - intros [-> | ->].
    + change (handleTaskCompleted amb data s = (Ok tt, s')) in H.
      destruct (handleTaskCompleted_emits _ _ _ _ _ H G) as [n E].
      destruct (has_recipient userId).
      * destruct E as (room & Er & ->). exists room. eexists.
        repeat split; [exact Er | discriminate | repeat constructor].
      * subst s'. exists n. eexists.
        repeat split; [now left | repeat constructor].
    + change (handleTaskFailed amb data s = (Ok tt, s')) in H.
      destruct (handleTaskFailed_emits _ _ _ _ _ H G) as [n E].
      destruct (has_recipient userId).
      * destruct E as (room & Er & ->). exists room. eexists.
        repeat split; [exact Er | discriminate | repeat constructor].
      * subst s'. exists n. eexists.
        repeat split; [now left | repeat constructor].
  - intros ->. change (handleSystemBroadcast amb data s = (Ok tt, s')) in H.
    exact (handleSystemBroadcast_emits _ _ _ _ H).
Qed.

(** A completion for alice goes to alice's room. *)
Lemma C4_notification_targeting_witness :
  exists room es,
    user_room (JStr "alice") = Ok room /\
    snd (route_message amb0 "task:completed" (Serialized alice_event) idle)
      = add_emits idle es /\
    es <> [] /\
    Forall (fun e => target e = ToRoom room) es.
Proof.
  exact (proj1 (C4_notification_targeting amb0 "task:completed" alice_event idle
                  (snd (route_message amb0 "task:completed" (Serialized alice_event) idle))
                  (JStr "alice") eq_refl eq_refl)
           (or_introl eq_refl)).
Defined.

(** C4 as stated fails: a completion whose userId is the empty string is
    present and is not ['anonymous'], and it is emitted to all clients. *)
Lemma C4_counterexample :
  ~ (forall amb ch data s' userId,
       ch = "task:completed" \/ ch = "task:failed" ->
       route_message amb ch (Serialized data) idle = (Ok tt, s') ->
       get data "userId" = Ok userId ->
       userId <> JUndefined -> userId <> JStr "anonymous" ->
       Forall (fun e => exists room, target e = ToRoom room) (emitted s')).
Proof.
  intro H.
  specialize (H amb0 "task:completed" blank_user_event
                (snd (route_message amb0 "task:completed"
                        (Serialized blank_user_event) idle))
                (JStr "") (or_introl eq_refl) eq_refl eq_refl).
  assert (F : Forall (fun e => exists room, target e = ToRoom room)
                (emitted (snd (route_message amb0 "task:completed"
                                 (Serialized blank_user_event) idle))))
    by (apply H; discriminate).
  inversion F as [|e l [room Hr] _ E]. discriminate Hr.
Qed.

(** C5, as amended: a [task:completed] or [task:failed] event with a
    recipient is emitted to the recipient's room on both the [notification]
    channel and the channel of its own name; broadcast, it is emitted to all
    on the [notification] channel; a [task:started] event with a recipient is
    emitted to the room on the [notification] channel only, and without a
    recipient it is not emitted. *)
Theorem C5_channels_emitted :
  forall amb ch data s s' userId,
    route_message amb ch (Serialized data) s = (Ok tt, s') ->
    get data "userId" = Ok userId ->
    (ch = "task:completed" \/ ch = "task:failed" ->
     if has_recipient userId
     then exists room n,
            user_room userId = Ok room /\
            s' = add_emits s
                   [{| target := ToRoom room; event := "notification"; payload := n |};
                    {| target := ToRoom room; event := ch; payload := n |}]
     else exists n,
            In {| target := ToAll; event := "notification"; payload := n |}
               (emitted s')) /\
    (ch = "task:started" ->
     if has_recipient userId
     then exists room n,
            user_room userId = Ok room /\
            s' = add_emits s
                   [{| target := ToRoom room; event := "notification"; payload := n |}]
     else s' = s).
Proof.
  intros amb ch data s s' userId R G.
  destruct (route_message_ok _ _ _ _ _ R) as [_ H].
  split.
  - intros [-> | ->].
    + change (handleTaskCompleted amb data s = (Ok tt, s')) in H.
      destruct (handleTaskCompleted_emits _ _ _ _ _ H G) as [n E].
      destruct (has_recipient userId).
      * destruct E as (room & Er & ->). now exists room, n.
      * subst s'. exists n. simpl. apply in_or_app. right. now left.
    + change (handleTaskFailed amb data s = (Ok tt, s')) in H.
      destruct (handleTaskFailed_emits _ _ _ _ _ H G) as [n E].
      destruct (has_recipient userId).
      * destruct E as (room & Er & ->). now exists room, n.
      * subst s'. exists n. simpl. apply in_or_app. right. now left.
  - intros ->. change (handleTaskStarted amb data s = (Ok tt, s')) in H.
    exact (handleTaskStarted_emits _ _ _ _ _ H G).
Qed.

(** A failure for alice goes to alice's room on both channels. *)
Lemma C5_channels_emitted_witness :
  exists room n,
    user_room (JStr "alice") = Ok room /\
    snd (route_message amb0 "task:failed" (Serialized alice_event) idle)
      = add_emits idle
          [{| target := ToRoom room; event := "notification"; payload := n |};
           {| target := ToRoom room; event := "task:failed"; payload := n |}].
Proof.
  exact (proj1 (C5_channels_emitted amb0 "task:failed" alice_event idle
                  (snd (route_message amb0 "task:failed" (Serialized alice_event) idle))
                  (JStr "alice") eq_refl eq_refl)
           (or_intror eq_refl)).
Defined.

(** C5 as stated fails: a [task:started] event for alice is emitted on the
    [notification] channel and not on [task:started]. *)
Lemma C5_counterexample :
  ~ (forall amb ch data s',
       ch = "task:started" \/ ch = "task:completed" \/ ch = "task:failed" ->
       route_message amb ch (Serialized data) idle = (Ok tt, s') ->
       forall e, In e (emitted s') ->
         (exists n, In {| target := target e; event := "notification"; payload := n |}
                       (emitted s')) /\
         (exists n, In {| target := target e; event := ch; payload := n |}
                       (emitted s'))).
Proof.
  intro H.
  specialize (H amb0 "task:started" alice_event
                (snd (route_message amb0 "task:started" (Serialized alice_event) idle))
                (or_introl eq_refl) eq_refl).
  simpl in H.
  destruct (H _ (or_introl eq_refl)) as [_ [n [E|[]]]].
  discriminate E.
Qed.

End SubscriberFacts.

(** ** Backoff *)

Module BackoffFacts.
Import Js Env Producer Worker ProducerFacts Samples.





End BackoffFacts.

(** ** From a submission without a user to the broadcast *)

Module EndToEndFacts.
Import Js Env Producer Routes Eff Worker Subscriber.
Import RoutesFacts WorkerEventFacts SubscriberFacts Samples.

Lemma anonymous_completed_is_broadcast amb_w j res amb_n s :
  jd_userId (data j) = Some "anonymous" ->
  exists n,
    on_message amb_n "task:completed"
      (JSON_stringify (completed_event amb_w j res)) s
    = (Ok tt, add_emits s [{| target := ToAll; event := "notification"; payload := n |}]).
Proof.
  intro H. unfold completed_event, userId_value. rewrite H.
  destruct res; eexists; reflexivity.
Qed.

Lemma anonymous_failed_is_broadcast amb_w j e amb_n s :
  jd_userId (data j) = Some "anonymous" ->
  exists n,
    on_message amb_n "task:failed"
      (JSON_stringify (failed_event amb_w j e)) s
    = (Ok tt, add_emits s [{| target := ToAll; event := "notification"; payload := n |}]).
Proof.
  intro H. unfold failed_event, userId_value. rewrite H.
  eexists; reflexivity.
Qed.

Lemma post_task_admits amb req q :
  acceptable req -> store_up q = true ->
  exists job,
    waiting (snd (post_task amb req q)) = (waiting q ++ [job])%list /\
    jd_userId (data job) = Some (userId_or_anonymous (body_userId req)).
Proof.
  intros A U. apply validateTask_nil in A.
  unfold post_task, addTaskToQueue, Queue_add. rewrite A, U.
  eexists. split; reflexivity.
Qed.

(** C10: a task submitted without a userId is queued for the user
    ['anonymous']; and in every attempt on that job, whatever its progress
    and the attempts made, every event the worker publishes, a completion or
    a failure (there is at least one), is emitted by the subscriber to all
    connected clients on the [notification] channel, and to no room. *)
Theorem C10_task_without_userId_is_broadcast :
  forall amb req q,
    body_userId req = None -> acceptable req -> store_up q = true ->
    exists queued,
      waiting (snd (post_task amb req q)) = (waiting q ++ [queued])%list /\
      jd_userId (data queued) = Some "anonymous" /\
      forall amb_w w,
        data (job w) = data queued -> pubsub_up w = true ->
        exists new,
          published (snd (processor amb_w w)) = (published w ++ new)%list /\
          new <> [] /\
          forall ch msg,
            In (ch, msg) new ->
            (ch = "task:completed" \/ ch = "task:failed") /\
            forall amb_n s, exists n,
              on_message amb_n ch msg s
              = (Ok tt, add_emits s [{| target := ToAll;
                                        event := "notification";
                                        payload := n |}]).
Proof.
  intros amb req q Hu A U.
  destruct (post_task_admits amb req q A U) as (j & Hw & Hj).
  rewrite Hu in Hj. simpl in Hj.
  exists j. split; [exact Hw|]. split; [exact Hj|].
  intros amb_w w Hd Hup.
  assert (Ha : jd_userId (data (job w)) = Some "anonymous") by now rewrite Hd.
  pose proof (processor_events amb_w w Hup) as Hev.
  destruct (processor amb_w w) as [[res|e] w'].
  - destruct Hev as (Hp & _ & _). cbn [snd]. eexists. split; [exact Hp|].
    split; [discriminate|].
    intros ch msg [Heq|[]]. inversion Heq; subst. split; [now left|].
    intros amb_n s. now apply anonymous_completed_is_broadcast.
  - destruct Hev as (pre & (Hp & _ & _) & Hpre). cbn [snd].
    eexists. split; [exact Hp|].
    split; [destruct pre; discriminate|].
    intros ch msg Hin. apply in_app_or in Hin.
    destruct Hin as [Hin|[Heq|[]]].
    + destruct Hpre as [->|[res ->]]; [contradiction|].
      destruct Hin as [Heq|[]]. inversion Heq; subst. split; [now left|].
      intros amb_n s. now apply anonymous_completed_is_broadcast.
    + inversion Heq; subst. split; [now right|].
      intros amb_n s. now apply anonymous_failed_is_broadcast.
Qed.

(** The request that names no user, on the empty queue; the worker's second
    progress update fails, so that a failure is published. *)
Lemma C10_task_without_userId_is_broadcast_witness :
  exists queued,
    waiting (snd (post_task amb0 nameless_request empty_queue))
      = (waiting empty_queue ++ [queued])%list /\
    jd_userId (data queued) = Some "anonymous" /\
    exists new,
      published (snd (processor amb0 (start_world queued [false; true] true)))
        = (published (start_world queued [false; true] true) ++ new)%list /\
      new <> [] /\
      forall ch msg,
        In (ch, msg) new ->
        (ch = "task:completed" \/ ch = "task:failed") /\
        exists n,
          on_message amb0 ch msg idle
          = (Ok tt, add_emits idle [{| target := ToAll;
                                       event := "notification";
                                       payload := n |}]).
Proof.
  destruct (C10_task_without_userId_is_broadcast amb0 nameless_request empty_queue)
    as (queued & H1 & H2 & H3).
  - reflexivity.
  - unfold acceptable. simpl. repeat split. right. now left.
  - reflexivity.
  - exists queued. split; [exact H1|]. split; [exact H2|].
    destruct (H3 amb0 (start_world queued [false; true] true) eq_refl eq_refl)
      as (new & H4 & H5 & H6).
    exists new. split; [exact H4|]. split; [exact H5|].
    intros ch msg Hin. destruct (H6 ch msg Hin) as [H7 H8].
    split; [exact H7 | exact (H8 amb0 idle)].
Defined.

End EndToEndFacts.

(** ** Reconnection delays, pauses and pages *)

Module ConnectionFacts.
Import Connection.

(** X1: the delay before the [times]-th reconnection attempt is at least 50
    ms and never more than 2000 ms, it never decreases from one attempt to
    the next, and it is 2000 ms exactly from the 40th attempt on. *)
Theorem retryStrategy_is_capped_at_two_seconds :
  forall times,
    1 <= times ->
    50 <= retryStrategy times <= 2000 /\
    (retryStrategy times = 2000 <-> 40 <= times) /\
    (times < 40 -> retryStrategy times = times * 50) /\
    forall later, times <= later -> retryStrategy times <= retryStrategy later.
Proof.
  intros times H. unfold retryStrategy. repeat split; try lia.
Qed.

Lemma retryStrategy_is_capped_at_two_seconds_witness :
  50 <= retryStrategy 3 <= 2000 /\ retryStrategy 3 <= retryStrategy 100.
Proof.
  destruct (retryStrategy_is_capped_at_two_seconds 3) as (H1 & _ & _ & H2).
  - lia.
  - split; [exact H1 | apply H2; lia].
Defined.

End ConnectionFacts.

Module TaskUtilFacts.
Import Env TaskUtil Samples.

Lemma amb0_unit_interval : unit_interval amb0.
Proof. intros n Hn. simpl. lia. Qed.

(** X2: with [Math.random()] in [0, 1), [randomDelay(min, max)] lies between
    [min] and [max], both included, whenever [min <= max]; so the pauses of
    the processors lie within the ranges written in the code. *)
Theorem randomDelay_lies_between_min_and_max :
  forall amb min max,
    unit_interval amb -> min <= max ->
    min <= randomDelay amb min max <= max /\
    500 <= email_pause amb <= 1500 /\
    2000 <= report_pause amb <= 4000 /\
    800 <= image_pause amb <= 1500 /\
    1000 <= generic_pause amb <= 2000.
Proof.
  intros amb lo hi U H.
  assert (G : forall a b, a <= b -> a <= randomDelay amb a b <= b).
  { intros a b Hab. unfold randomDelay.
    pose proof (U (b - a + 1)). lia. }
  unfold email_pause, report_pause, image_pause, generic_pause.
  repeat split; apply G; lia.
Qed.

Lemma randomDelay_lies_between_min_and_max_witness :
  500 <= randomDelay amb0 500 1500 <= 1500.
Proof.
  apply (randomDelay_lies_between_min_and_max amb0 500 1500).
  - exact amb0_unit_interval.
  - lia.
Defined.

End TaskUtilFacts.

Module UsersFacts.
Import Users.

Lemma totalPages_bounds total limit :
  1 <= limit ->
  (totalPages total limit - 1) * limit < total <= totalPages total limit * limit.
Proof.
  intro H. unfold totalPages.
  pose proof (Z.div_mod (- total) limit ltac:(lia)) as D.
  pose proof (Z.mod_pos_bound (- total) limit ltac:(lia)) as B.
  nia.
Qed.

(** X3: for a limit of at least 1 and [total] results, every position of the
    result lies on exactly one page, and that page is one of
    [1 .. totalPages]; a page after [totalPages] holds no result, and page
    [totalPages] holds the last one. *)
Theorem pages_cover_each_result_once :
  forall total limit,
    1 <= limit -> 0 <= total ->
    (forall i, 0 <= i < total ->
       exists page,
         1 <= page <= totalPages total limit /\
         on_page page limit i = true /\
         forall other, on_page other limit i = true -> other = page) /\
    (forall page i, totalPages total limit < page ->
       on_page page limit i = true -> total <= i) /\
    (0 < total -> on_page (totalPages total limit) limit (total - 1) = true).
Proof.
  intros total limit Hl Ht.
  pose proof (totalPages_bounds total limit Hl) as B.
  unfold on_page, skip. split; [|split].
  - intros i Hi. exists (i / limit + 1).
    pose proof (Z.div_mod i limit ltac:(lia)) as D.
    pose proof (Z.mod_pos_bound i limit ltac:(lia)) as M.
    split; [|split].
    + split; [pose proof (Z.div_pos i limit); lia|].
      assert (i / limit < totalPages total limit); [|lia].
      apply Z.div_lt_upper_bound; nia.
    + apply andb_true_iff. split; [apply Z.leb_le | apply Z.ltb_lt]; nia.
    + intros other H. apply andb_true_iff in H. destruct H as [H1 H2].
      apply Z.leb_le in H1. apply Z.ltb_lt in H2.
      assert (other - 1 = i / limit); [|lia].
      apply (Z.div_unique i limit (other - 1) (i - (other - 1) * limit)); lia.
  - intros page i Hp H. apply andb_true_iff in H. destruct H as [H1 _].
    apply Z.leb_le in H1. nia.
  - intro Hpos. apply andb_true_iff.
    split; [apply Z.leb_le | apply Z.ltb_lt]; nia.
Qed.

Lemma pages_cover_each_result_once_witness :
  exists page,
    1 <= page <= totalPages 41 20 /\
    on_page page 20 40 = true /\
    forall other, on_page other 20 40 = true -> other = page.
Proof.
  destruct (pages_cover_each_result_once 41 20) as (H & _ & _).
  - lia.
  - lia.
  - apply (H 40). lia.
Defined.

End UsersFacts.

(** ** The worker's counters and the tester's tallies *)

Module MetricsFacts.
Import Metrics.

Lemma after_signals_snoc l s :
  after_signals (l ++ [s]) = on_signal (after_signals l) s.
Proof. unfold after_signals. now rewrite fold_left_app. Qed.

Lemma since_interval_snoc l s :
  since_interval (l ++ [s]) =
  match s with
  | interval => []
  | _ => (since_interval l ++ [s])%list
  end.
Proof.
  unfold since_interval. rewrite rev_app_distr. simpl.
  destruct s; reflexivity.
Qed.

(** X4: at any moment the counters hold exactly what has happened since the
    last tick of the 30-second timer (or since the start): the number of
    jobs completed, the number of jobs failed, and the sum of the processing
    times of the completed jobs that carry both timestamps.  Nothing older
    is counted. *)
Theorem counters_hold_the_current_interval :
  forall l,
    processedCount (after_signals l)
      = Z.of_nat (List.length (filter is_completed (since_interval l))) /\
    failedCount (after_signals l)
      = Z.of_nat (List.length (filter is_failed (since_interval l))) /\
    totalProcessingTime (after_signals l)
      = fold_right Z.add 0 (map signal_time (since_interval l)).
Proof.
  induction l as [|s l IH] using rev_ind.
  - repeat split.
  - rewrite after_signals_snoc, since_interval_snoc.
    destruct IH as (Hp & Hf & Ht).
    assert (S : forall (r : list Signal) x,
              fold_right Z.add 0 (map signal_time (r ++ [x]))
              = fold_right Z.add 0 (map signal_time r) + signal_time x).
    { induction r as [|a r IHr]; intro x; simpl; [lia | rewrite IHr; lia]. }
    destruct s as [f p| |].
    + rewrite !filter_app, !length_app, S. simpl.
      unfold processing_time. rewrite Hp, Hf, Ht.
      repeat split; try lia.
      destruct (both_set f p) as [[f' p']|]; lia.
    + rewrite !filter_app, !length_app, S. simpl.
      rewrite Hp, Hf, Ht. repeat split; lia.
    + repeat split.
Qed.

End MetricsFacts.

Module TesterFacts.
Import Tester.

Ltac conjs := repeat match goal with |- _ /\ _ => split end.
Ltac fin := try lia; try reflexivity; try (now intros ? []).

(** A row recorded for an answer 503. *)
Lemma retried_row status :
  is_success status || negb (status =? 503) = false ->
  status = 503 /\ is_success status = false.
Proof.
  intro H. apply orb_false_iff in H. destruct H as [H1 H2].
  apply negb_false_iff, Z.eqb_eq in H2. now split.
Qed.

Lemma attempts_from_tally fuel retries reply :
  forall attempt t,
    0 <= attempt ->
    fuel = Z.to_nat (retries + 1 - attempt) ->
    exists rows,
      testMatrix (snd (attempts_from fuel attempt retries reply t))
        = (testMatrix t ++ rows)%list /\
      successCount (snd (attempts_from fuel attempt retries reply t))
        = successCount t + Z.of_nat (List.length (filter success rows)) /\
      failCount (snd (attempts_from fuel attempt retries reply t))
        = failCount t
          + Z.of_nat (List.length (filter (fun r => negb (success r)) rows)) /\
      Z.of_nat (List.length rows)
        <= requests (snd (attempts_from fuel attempt retries reply t)) - requests t /\
      requests (snd (attempts_from fuel attempt retries reply t)) - requests t
        <= Z.max 0 (retries + 1 - attempt) /\
      (attempt <= retries ->
       1 <= requests (snd (attempts_from fuel attempt retries reply t)) - requests t) /\
      (forall r, In r (removelast rows) ->
         row_status r = Some 503 /\ success r = false).
Proof.
  induction fuel as [|fuel IH]; intros attempt t Ha Hf.
  - exists []. simpl. rewrite app_nil_r. conjs; fin.
  - simpl. destruct (Z.leb_spec attempt retries) as [Hle|Hgt]; [|lia].
    destruct (reply attempt) as [status|status].
    + destruct (is_success status || negb (status =? 503)) eqn:Stop.
      * eexists [_]. cbn [snd testMatrix successCount failCount requests
                          record_response sent].
        split; [reflexivity|].
        destruct (is_success status); simpl; conjs; fin.
      * destruct (retried_row _ Stop) as [-> Hs].
        destruct (IH (attempt + 1) (record_response 503 (sent t)))
          as (rows & H1 & H2 & H3 & H4 & H5 & H6 & H7); [lia | lia |].
        exists ({| row_status := Some 503; success := false |} :: rows).
        rewrite H1, H2, H3.
        cbn [testMatrix successCount failCount requests record_response sent] in *.
        change (is_success 503) with false in *. cbn [filter success negb List.length].
        rewrite <- app_assoc.
        conjs; fin.
        destruct rows as [|r0 rows]; [intros r []|].
        intros r [<-|Hin]; [split; reflexivity | now apply H7].
    + destruct (Z.ltb_spec attempt retries) as [Hlt|Hge].
      * destruct (IH (attempt + 1) (sent t))
          as (rows & H1 & H2 & H3 & H4 & H5 & H6 & H7); [lia | lia |].
        exists rows. rewrite H1, H2, H3.
        cbn [testMatrix successCount failCount requests sent] in *.
        conjs; fin; exact H7.
      * eexists [_]. cbn [snd testMatrix successCount failCount requests
                          record_rejection sent].
        split; [reflexivity|]. simpl. conjs; fin.
Qed.

(** X5: a call of [testEndpoint] with [retries >= 0] sends at least one
    request and at most [retries + 1]; it adds to [testMatrix] at most one
    row per request, adds to [successCount] and [failCount] exactly the
    numbers of successful and failed rows it adds, and every row it adds but
    the last is a failed 503. *)
Theorem testEndpoint_counts_the_rows_it_adds :
  forall retries reply t,
    0 <= retries ->
    exists rows,
      testMatrix (snd (testEndpoint retries reply t)) = (testMatrix t ++ rows)%list /\
      successCount (snd (testEndpoint retries reply t))
        = successCount t + Z.of_nat (List.length (filter success rows)) /\
      failCount (snd (testEndpoint retries reply t))
        = failCount t
          + Z.of_nat (List.length (filter (fun r => negb (success r)) rows)) /\
      Z.of_nat (List.length rows)
        <= requests (snd (testEndpoint retries reply t)) - requests t /\
      1 <= requests (snd (testEndpoint retries reply t)) - requests t <= retries + 1 /\
      (forall r, In r (removelast rows) ->
         row_status r = Some 503 /\ success r = false).
Proof.
  intros retries reply t H. unfold testEndpoint.
  destruct (attempts_from_tally (Z.to_nat (retries + 1)) retries reply 0 t)
    as (rows & H1 & H2 & H3 & H4 & H5 & H6 & H7); [lia | f_equal; lia |].
  exists rows. conjs; auto; lia.
Qed.

(** Two answers 503 and then an answer 200. *)
Lemma testEndpoint_counts_the_rows_it_adds_witness :
  exists rows,
    testMatrix (snd (testEndpoint 3
                       (fun n => if n <? 2 then Resolved 503 else Resolved 200)
                       empty_tally))
      = (testMatrix empty_tally ++ rows)%list /\
    forall r, In r (removelast rows) -> row_status r = Some 503 /\ success r = false.
Proof.
  destruct (testEndpoint_counts_the_rows_it_adds 3
              (fun n => if n <? 2 then Resolved 503 else Resolved 200) empty_tally)
    as (rows & H1 & _ & _ & _ & _ & H2).
  - lia.
  - exists rows. split; [exact H1 | exact H2].
Defined.

End TesterFacts.

(** ** The worker: results, the last report and the publishing connection *)

Module WorkerResultFacts.
Import Js Env Producer Routes Eff Worker Views.
Import EffFacts WorkerFacts WorkerEventFacts Samples.
Local Open Scope eff_scope.

Lemma hoare_const {A} (C : Prop) (m : M World A) :
  hoare (fun _ => C) m (fun _ _ => C) (fun _ _ => True).
Proof. intros w H. now destruct (m w) as [[a|e] w']. Qed.

(** A processor that has read the job returns the object written for it,
    whatever happens in between. *)
Ltac returns_result w0 :=
  let j := fresh "j" in
  eapply hoare_bind with (Q1 := fun j' _ => j' = job w0);
  [ apply hoare_gets; now intros ? -> | intros j ];
  repeat (eapply hoare_bind with (Q1 := fun _ _ => j = job w0);
          [ apply hoare_const | intros ? ]);
  apply hoare_ret; now intros ? ->.

Lemma processEmailTask_returns amb w0 :
  hoare (fun w => w = w0) (processEmailTask amb)
        (fun r _ => r = email_result amb (job w0)) (fun _ _ => True).
Proof. unfold processEmailTask. returns_result w0. Qed.

Lemma processReportTask_returns amb w0 :
  hoare (fun w => w = w0) (processReportTask amb)
        (fun r _ => r = report_result amb (job w0)) (fun _ _ => True).
Proof. unfold processReportTask. returns_result w0. Qed.

Lemma processDataProcessingTask_returns amb w0 :
  hoare (fun w => w = w0) (processDataProcessingTask amb)
        (fun r _ => r = dataProcessing_result amb (job w0)) (fun _ _ => True).
Proof. unfold processDataProcessingTask. returns_result w0. Qed.

Lemma processImageProcessingTask_returns amb w0 :
  hoare (fun w => w = w0) (processImageProcessingTask amb)
        (fun r _ => r = imageProcessing_result amb (job w0)) (fun _ _ => True).
Proof. unfold processImageProcessingTask. returns_result w0. Qed.

Lemma processGenericTask_returns amb w0 :
  hoare (fun w => w = w0) (processGenericTask amb)
        (fun r _ => r = generic_result amb (job w0)) (fun _ _ => True).
Proof. unfold processGenericTask. returns_result w0. Qed.

(** [processTask] returns the stamped result of the processor of the job's
    type, or throws an error it has wrapped. *)
Lemma processTask_returns amb w :
  match processTask amb w with
  | (Ok r, _) => r = stamp_result amb (job w) (result_of amb (job w))
  | (Throw e, _) => exists msg, e = "Task processing failed: " ++ msg
  end.
Proof.
  enough (H : hoare (fun w' => w' = w) (processTask amb)
                (fun r _ => r = stamp_result amb (job w) (result_of amb (job w)))
                (fun e _ => exists msg, e = "Task processing failed: " ++ msg))
    by exact (H w eq_refl).
  unfold processTask.
  eapply hoare_bind with (Q1 := fun j w' => j = job w /\ w' = w).
  { apply hoare_gets. now intros ? ->. }
  intros j.
  eapply hoare_try_catch with (E1 := fun _ _ => True).
  - eapply hoare_bind with (Q1 := fun r _ => j = job w /\ r = result_of amb (job w)).
    + intros w' [-> ->]. unfold result_of.
      repeat match goal with
             | |- context [if ?c then _ else _] => destruct c
             end.
      * pose proof (processEmailTask_returns amb w w eq_refl) as H.
        destruct (processEmailTask amb w) as [[r|e] w1]; auto.
      * pose proof (processReportTask_returns amb w w eq_refl) as H.
        destruct (processReportTask amb w) as [[r|e] w1]; auto.
      * pose proof (processDataProcessingTask_returns amb w w eq_refl) as H.
        destruct (processDataProcessingTask amb w) as [[r|e] w1]; auto.
      * pose proof (processImageProcessingTask_returns amb w w eq_refl) as H.
        destruct (processImageProcessingTask amb w) as [[r|e] w1]; auto.
      * pose proof (processGenericTask_returns amb w w eq_refl) as H.
        destruct (processGenericTask amb w) as [[r|e] w1]; auto.
    + intros r. apply hoare_ret. now intros ? [-> ->].
  - intros e. eapply hoare_bind with (Q1 := fun _ _ => True).
    + apply hoare_modify. auto.
    + intros ?. apply hoare_throw. intros. now exists e.
Qed.



(** The result does not depend on the progress the job carries. *)
Lemma result_same amb j j0 :
  same_job j j0 ->
  stamp_result amb j (result_of amb j) = stamp_result amb j0 (result_of amb j0).
Proof.
  unfold same_job, with_progress. destruct j, j0; simpl.
  intro E. inversion E; subst. reflexivity.
Qed.

Section SameJob.
Variable j0 : Job.

Lemma updateProgress_same p : preserves (fun w => same_job (job w) j0) (updateProgress p).
Proof.
  intros w H. unfold updateProgress.
  destruct (redis_faults w) as [|[|] rest]; simpl; auto;
    now apply same_job_progress.
Qed.

Lemma console_error_same line : preserves (fun w => same_job (job w) j0) (console_error line).
Proof. apply hoare_modify. auto. Qed.

Lemma publishTaskEvent_same ch d : preserves (fun w => same_job (job w) j0) (publishTaskEvent ch d).
Proof.
  intros w H. unfold publishTaskEvent. destruct (pubsub_up w); exact H.
Qed.

Lemma processTask_same amb : preserves (fun w => same_job (job w) j0) (processTask amb).
Proof.
  unfold processTask, processEmailTask, processReportTask,
    processDataProcessingTask, processImageProcessingTask, processGenericTask.
  repeat first
    [ apply preserves_ret
    | apply preserves_throw
    | apply preserves_log_value
    | apply preserves_gets
    | apply updateProgress_same
    | apply console_error_same
    | apply preserves_for_loop; intros ?
    | apply preserves_bind; [|intros ?]
    | apply preserves_try_catch; [|intros ?]
    | apply preserves_if ].
Qed.

End SameJob.

(** The [catch] of the worker's processor always throws again. *)
Lemma catch_rethrows amb e :
  hoare (fun _ => True)
        (j <- gets job ;;
         console_error ("Job " ++ id j ++ " failed: " ++ e) ;;;
         publishTaskEvent "task:failed" (failed_event amb j e) ;;;
         throw (A := JsVal) e)
        (fun _ _ => False) (fun _ _ => True).
Proof.
  eapply hoare_bind with (Q1 := fun _ _ => True); [now apply hoare_gets|].
  intros j. eapply hoare_bind with (Q1 := fun _ _ => True);
    [now apply hoare_modify|].
  intros ?. eapply hoare_bind with (Q1 := fun _ _ => True);
    [apply (hoare_const True)|].
  intros ?. now apply hoare_throw.
Qed.

Lemma updateProgress_sets p (C : Prop) :
  hoare (fun _ => C) (updateProgress p)
        (fun _ w => C /\ progress (job w) = p /\ exists l, reports w = (l ++ [p])%list)
        (fun _ _ => True).
Proof.
  intros w H. unfold updateProgress.
  destruct (redis_faults w) as [|[|] rest]; simpl; auto;
    (split; [exact H | split; [reflexivity | now exists (reports w)]]).
Qed.

(** An attempt that succeeds returns the stamped result of the job's
    processor, and ends with the report 100. *)
Lemma processor_returns amb w :
  match processor amb w with
  | (Ok r, w') =>
      r = stamp_result amb (job w) (result_of amb (job w)) /\
      progress (job w') = 100 /\
      exists l, reports w' = (l ++ [100])%list
  | (Throw _, _) => True
  end.
Proof.
  set (F := stamp_result amb (job w) (result_of amb (job w))).
  enough (H : hoare (fun w' => same_job (job w') (job w)) (processor amb)
                (fun r w' => r = F /\ progress (job w') = 100 /\
                             exists l, reports w' = (l ++ [100])%list)
                (fun _ _ => True))
    by exact (H w (same_job_refl _)).
  unfold processor.
  eapply hoare_try_catch with (E1 := fun _ _ => True).
  - eapply hoare_bind with (Q1 := fun _ w' => same_job (job w') (job w)).
    { eapply hoare_conseq; [apply (updateProgress_same (job w) 10) | auto | auto | auto]. }
    intros ?.
    eapply hoare_bind with (Q1 := fun r w' => r = F /\ same_job (job w') (job w)).
    { intros w1 H1.
      pose proof (processTask_returns amb w1) as R.
      pose proof (processTask_same (job w) amb w1 H1) as S.
      destruct (processTask amb w1) as [[r|e] w2]; [|exact I].
      split; [|exact S]. rewrite R. apply result_same. exact H1. }
    intros result.
    eapply hoare_bind with (Q1 := fun _ _ => result = F);
      [eapply hoare_conseq; [apply (hoare_const (result = F)) | | auto | auto];
       now intros ? [? ?]|].
    intros ?. eapply hoare_bind with (Q1 := fun _ _ => result = F);
      [apply hoare_const|].
    intros j. eapply hoare_bind with (Q1 := fun _ _ => result = F);
      [apply hoare_const|].
    intros ?. eapply hoare_bind; [apply (updateProgress_sets 100 (result = F))|].
    intros ?. apply hoare_ret. auto.
  - intros e. eapply hoare_conseq; [apply (catch_rethrows amb e) | auto | | auto].
    intros ? ? [].
Qed.

(** The reports of an attempt that throws stay below 100. *)
Lemma processor_throws_below amb :
  hoare (fun w => reports w = []) (processor amb)
        (fun _ _ => True)
        (fun _ w => reports w = [] \/ reports_rise_to 90 w).
Proof.
  unfold processor.
  eapply hoare_try_catch with (E1 := fun _ w => reports w = [] \/ reports_rise_to 90 w).
  - eapply hoare_bind.
    { eapply hoare_conseq; [apply updateProgress_first | auto | |].
      - intros ? w H. exact H.
      - intros ? w H. now left. }
    intros ?. eapply hoare_bind.
    { eapply hoare_conseq; [apply processTask_rises | auto | |].
      - intros ? w H. exact H.
      - intros ? w H. now right. }
    intros result. eapply hoare_bind.
    { eapply hoare_conseq; [apply (updateProgress_rises 90 90); lia | auto | |].
      - intros ? w H. exact H.
      - intros ? w H. now right. }
    intros ?. eapply hoare_bind.
    { eapply hoare_conseq; [apply (preserves_gets (reports_rise_to 90)) | auto | |].
      - intros ? w H. exact H.
      - intros ? w H. now right. }
    intros j. eapply hoare_bind.
    { eapply hoare_conseq;
        [apply (publishTaskEvent_reports (rising_to 90)) | auto | |].
      - intros ? w H. exact H.
      - intros ? w H. now right. }
    intros ?. eapply hoare_bind with (Q1 := fun _ _ => True).
    { intros w H. unfold updateProgress.
      destruct (redis_faults w) as [|[|] rest]; simpl; auto. }
    intros ?. now apply hoare_ret.
  - intros e.
    set (P := fun l : list Z => l = [] \/ rising_to 90 l).
    change (hoare (A := JsVal) (fun w => P (reports w))
              (j <- gets job ;;
               console_error ("Job " ++ id j ++ " failed: " ++ e) ;;;
               publishTaskEvent "task:failed" (failed_event amb j e) ;;;
               throw e)
              (fun _ _ => True) (fun _ w => P (reports w))).
    eapply hoare_bind with (Q1 := fun _ w => P (reports w));
      [now apply hoare_gets|].
    intros j. eapply hoare_bind; [apply console_error_reports|]. intros ?.
    eapply hoare_bind; [apply publishTaskEvent_reports|]. intros ?.
    apply hoare_throw. auto.
Qed.

(** X7: in an attempt that starts with no report made, 100 is reported
    exactly when the attempt succeeds: a successful attempt ends with the
    report 100 and leaves the job's progress at 100, and an attempt that
    throws has reported nothing above 90. *)
Theorem hundred_is_reported_exactly_on_success :
  forall amb w,
    reports w = [] ->
    match processor amb w with
    | (Ok _, w') =>
        progress (job w') = 100 /\ exists l, reports w' = (l ++ [100])%list
    | (Throw _, w') => Forall (fun x => x <= 90) (reports w')
    end.
Proof.
  intros amb w H.
  pose proof (processor_returns amb w) as R.
  pose proof (processor_throws_below amb w H) as T.
  destruct (processor amb w) as [[r|e] w'].
  - destruct R as (_ & R1 & R2). now split.
  - destruct T as [T|(_ & _ & T)].
    + rewrite T. constructor.
    + eapply Forall_impl; [|exact T]. simpl. intros; lia.
Qed.

(** A report job whose connection works, and one whose third update fails. *)
Lemma hundred_is_reported_exactly_on_success_witness :
  (exists l, reports (snd (processor amb0 (start_world report_job [] true)))
             = (l ++ [100])%list) /\
  Forall (fun x => x <= 90)
    (reports (snd (processor amb0 (start_world report_job [false; false; true] true)))).
Proof.
  split.
  - pose proof (hundred_is_reported_exactly_on_success amb0
                  (start_world report_job [] true) eq_refl) as H.
    vm_compute in H. vm_compute. exact (proj2 H).
  - pose proof (hundred_is_reported_exactly_on_success amb0
                  (start_world report_job [false; false; true] true) eq_refl) as H.
    vm_compute in H. vm_compute. exact H.
Defined.

(** What the processors return for a job that carries none of the fields
    they read. *)
Lemma results_of_a_bare_job amb j :
  jd_props (data j) = [] ->
  jd_recordCount (data j) = None ->
  jd_operations (data j) = None ->
  (name j = "email" ->
   get (stamp_result amb j (result_of amb j)) "recipient"
     = Ok (JStr "user@example.com") /\
   get (stamp_result amb j (result_of amb j)) "subject"
     = Ok (JStr "Notification")) /\
  (name j = "report" ->
   get (stamp_result amb j (result_of amb j)) "reportType" = Ok (JStr "general") /\
   get (stamp_result amb j (result_of amb j)) "format" = Ok (JStr "PDF")) /\
  (name j = "dataProcessing" ->
   get (stamp_result amb j (result_of amb j)) "recordsProcessed" = Ok (JNum 100)) /\
  (name j = "imageProcessing" ->
   get (stamp_result amb j (result_of amb j)) "originalImage"
     = Ok (JStr "image.jpg") /\
   get (stamp_result amb j (result_of amb j)) "operations"
     = Ok (JArr [JStr "resize"; JStr "compress"; JStr "watermark"])).
Proof.
  destruct j as [i n d o a p po s]. destruct d as [ty da u c rc ops props].
  simpl. intros -> -> ->.
  repeat match goal with
         | |- _ /\ _ => split
         | |- _ -> _ => intros ->
         end; reflexivity.
Qed.

(** X8: the fields a client submits in [data] are stored under
    [job.data.data], and the processors read [job.data]: for every task
    created through [POST /api/tasks], whatever its [data], an email is
    reported as sent to [user@example.com] with the subject [Notification],
    a report is of type [general] in [PDF], a data job processes 100
    records, and an image job works on [image.jpg] with the operations
    resize, compress and watermark. *)
Theorem submitted_fields_do_not_reach_the_processors :
  forall amb req q,
    status (fst (post_task amb req q)) = 201 ->
    exists queued,
      waiting (snd (post_task amb req q)) = (waiting q ++ [queued])%list /\
      name queued = body_type req /\
      jd_data (data queued) = body_data req /\
      forall amb_w w r w',
        name (job w) = name queued -> data (job w) = data queued ->
        processor amb_w w = (Ok r, w') ->
        (body_type req = "email" ->
         get r "recipient" = Ok (JStr "user@example.com") /\
         get r "subject" = Ok (JStr "Notification")) /\
        (body_type req = "report" ->
         get r "reportType" = Ok (JStr "general") /\
         get r "format" = Ok (JStr "PDF")) /\
        (body_type req = "dataProcessing" ->
         get r "recordsProcessed" = Ok (JNum 100)) /\
        (body_type req = "imageProcessing" ->
         get r "originalImage" = Ok (JStr "image.jpg") /\
         get r "operations"
           = Ok (JArr [JStr "resize"; JStr "compress"; JStr "watermark"])).
Proof.
  intros amb req q H. unfold post_task, addTaskToQueue, Queue_add in *.
  destruct (validateTask req); [|discriminate H].
  destruct (store_up q); [|discriminate H]. cbn [fst snd waiting].
  eexists. split; [reflexivity|]. split; [reflexivity|]. split; [reflexivity|].
  cbn [name data].
  intros amb_w w r w' Hn Hd R.
  pose proof (processor_returns amb_w w) as P. rewrite R in P.
  destruct P as (-> & _).
  assert (B := results_of_a_bare_job amb_w (job w)).
  rewrite Hd, Hn in B. specialize (B eq_refl eq_refl eq_refl).
  exact B.
Qed.

(** The request of the API tester, which names a recipient and a subject. *)
Lemma submitted_fields_do_not_reach_the_processors_witness :
  exists queued,
    waiting (snd (post_task amb0 email_request empty_queue))
      = (waiting empty_queue ++ [queued])%list /\
    jd_data (data queued)
      = JObj [("recipient", JStr "test@example.com"); ("subject", JStr "API Test")] /\
    get (match fst (processor amb0 (start_world queued [] true)) with
         | Ok r => r
         | Throw _ => JUndefined
         end) "recipient"
      = Ok (JStr "user@example.com").
Proof.
  destruct (submitted_fields_do_not_reach_the_processors amb0 email_request empty_queue)
    as (queued & H1 & H2 & H3 & H4).
  - reflexivity.
  - exists queued. split; [exact H1|]. split; [exact H3|].
    destruct (processor amb0 (start_world queued [] true)) as [[r|e] w'] eqn:R.
    + destruct (H4 amb0 (start_world queued [] true) r w' eq_refl eq_refl R)
        as ((H5 & _) & _); [reflexivity | exact H5].
    + exfalso. clear H4.
      assert (Q : queued = last (waiting (snd (post_task amb0 email_request empty_queue)))
                             queued)
        by (rewrite H1; simpl; reflexivity).
      rewrite Q in R. vm_compute in R. discriminate R.
Defined.

End WorkerResultFacts.

(** ** The worker: what the publishing connection cannot change *)

Module PublishingFacts.
Import Js Env Producer Eff Worker Views EffFacts Samples.
Local Open Scope eff_scope.

Lemma blind_ret {A} (a : A) : blind_to_publishing (ret a).
Proof. intros w1 w2 H. now split. Qed.

Lemma blind_throw {A} msg : blind_to_publishing (throw (A := A) msg).
Proof. intros w1 w2 H. now split. Qed.

Lemma blind_lift {A} (r : Res A) : blind_to_publishing (lift r).
Proof. intros w1 w2 H. now split. Qed.

Lemma blind_gets_job : blind_to_publishing (gets job).
Proof. intros w1 w2 H. split; [simpl; f_equal; apply H | exact H]. Qed.

Lemma blind_bind {A B} (m : M World A) (k : A -> M World B) :
  blind_to_publishing m -> (forall a, blind_to_publishing (k a)) ->
  blind_to_publishing (Eff.bind m k).
Proof.
  intros Hm Hk w1 w2 H. unfold Eff.bind.
  destruct (Hm w1 w2 H) as [E G].
  destruct (m w1) as [[a1|e1] s1], (m w2) as [[a2|e2] s2]; simpl in E, G;
    try discriminate E.
  - inversion E; subst. now apply Hk.
  - inversion E; subst. now split.
Qed.

Lemma blind_try_catch {A} (m : M World A) h :
  blind_to_publishing m -> (forall e, blind_to_publishing (h e)) ->
  blind_to_publishing (try_catch m h).
Proof.
  intros Hm Hh w1 w2 H. unfold try_catch.
  destruct (Hm w1 w2 H) as [E G].
  destruct (m w1) as [[a1|e1] s1], (m w2) as [[a2|e2] s2]; simpl in E, G;
    try discriminate E.
  - inversion E; subst. now split.
  - inversion E; subst. now apply Hh.
Qed.

Lemma blind_if {A} (b : bool) (m1 m2 : M World A) :
  blind_to_publishing m1 -> blind_to_publishing m2 ->
  blind_to_publishing (if b then m1 else m2).
Proof. now destruct b. Qed.

Lemma blind_log_value v : blind_to_publishing (log_value v).
Proof.
  unfold log_value. apply blind_bind; [apply blind_lift|].
  intros ?. apply blind_ret.
Qed.

Lemma blind_for_loop fuel cond step (body : Z -> M World unit) :
  (forall i, blind_to_publishing (body i)) ->
  forall i, blind_to_publishing (for_loop fuel i cond step body).
Proof.
  intros Hb. induction fuel as [|fuel IH]; intros i; simpl.
  - apply blind_ret.
  - destruct (cond i); [|apply blind_ret].
    apply blind_bind; [apply Hb | intros ?; apply IH].
Qed.

Lemma blind_updateProgress p : blind_to_publishing (updateProgress p).
Proof.
  intros w1 w2 (Hj & Hr & Hf). unfold updateProgress. rewrite Hf.
  destruct (redis_faults w2) as [|[|] rest]; simpl;
    (split; [reflexivity|]); unfold agree; simpl; rewrite ?Hj, ?Hr; auto.
Qed.

Lemma blind_console_error line : blind_to_publishing (console_error line).
Proof. intros w1 w2 H. split; [reflexivity | exact H]. Qed.

Lemma blind_publishTaskEvent ch d : blind_to_publishing (publishTaskEvent ch d).
Proof.
  intros w1 w2 H. unfold publishTaskEvent.
  destruct (pubsub_up w1), (pubsub_up w2); split; try reflexivity; exact H.
Qed.

Ltac blind :=
  repeat first
    [ apply blind_ret
    | apply blind_throw
    | apply blind_log_value
    | apply blind_gets_job
    | apply blind_updateProgress
    | apply blind_console_error
    | apply blind_publishTaskEvent
    | apply blind_for_loop; intros ?
    | apply blind_bind; [|intros ?]
    | apply blind_try_catch; [|intros ?]
    | apply blind_if ].

Lemma blind_processor amb : blind_to_publishing (processor amb).
Proof.
  unfold processor, processTask, processEmailTask, processReportTask,
    processDataProcessingTask, processImageProcessingTask, processGenericTask.
  blind.
Qed.

(** With the publishing connection down nothing is published, and the
    failure is printed once an event has been tried. *)
Section Down.
Variable w0 : World.

Lemma updateProgress_silent p : preserves (silent_since w0) (updateProgress p).
Proof.
  intros w H. unfold updateProgress.
  destruct (redis_faults w) as [|[|] rest]; exact H.
Qed.

Lemma console_error_silent line : preserves (silent_since w0) (console_error line).
Proof. apply hoare_modify. auto. Qed.

Lemma processTask_silent amb : preserves (silent_since w0) (processTask amb).
Proof.
  unfold processTask, processEmailTask, processReportTask,
    processDataProcessingTask, processImageProcessingTask, processGenericTask.
  repeat first
    [ apply preserves_ret
    | apply preserves_throw
    | apply preserves_log_value
    | apply preserves_gets
    | apply updateProgress_silent
    | apply console_error_silent
    | apply preserves_for_loop; intros ?
    | apply preserves_bind; [|intros ?]
    | apply preserves_try_catch; [|intros ?]
    | apply preserves_if ].
Qed.

Lemma publishTaskEvent_down ch d :
  hoare (silent_since w0) (publishTaskEvent ch d)
        (fun _ w => silent_since w0 w /\
                    In "Failed to publish event: Connection is closed."
                       (console_errors w))
        (fun _ _ => False).
Proof.
  intros w [Hp Hu]. unfold publishTaskEvent. rewrite Hu. simpl.
  split; [now split|]. apply in_or_app. right. now left.
Qed.

Lemma processor_down amb :
  hoare (silent_since w0) (processor amb)
        (fun _ w => silent_since w0 w /\
                    In "Failed to publish event: Connection is closed."
                       (console_errors w))
        (fun _ w => silent_since w0 w /\
                    In "Failed to publish event: Connection is closed."
                       (console_errors w)).
Proof.
  unfold processor.
  eapply hoare_try_catch with (E1 := fun _ => silent_since w0).
  - eapply hoare_bind; [apply updateProgress_silent|]. intros ?.
    eapply hoare_bind; [apply processTask_silent|]. intros result.
    eapply hoare_bind; [apply updateProgress_silent|]. intros ?.
    eapply hoare_bind; [apply preserves_gets|]. intros j.
    eapply hoare_bind
      with (Q1 := fun _ w => silent_since w0 w /\
                  In "Failed to publish event: Connection is closed."
                     (console_errors w)).
    { eapply hoare_conseq; [apply publishTaskEvent_down | auto | auto |].
      intros ? ? []. }
    intros ?. eapply hoare_bind
      with (Q1 := fun _ w => silent_since w0 w /\
                  In "Failed to publish event: Connection is closed."
                     (console_errors w)).
    { intros w [H I]. unfold updateProgress.
      destruct (redis_faults w) as [|[|] rest]; simpl; auto. }
    intros ?. apply hoare_ret. auto.
  - intros e. cbv beta.
    eapply hoare_bind with (Q1 := fun _ => silent_since w0);
      [apply hoare_gets; auto|].
    intros j.
    eapply hoare_bind with (Q1 := fun _ => silent_since w0);
      [apply hoare_modify; auto|].
    intros ?.
    eapply hoare_bind
      with (Q1 := fun _ w => silent_since w0 w /\
                  In "Failed to publish event: Connection is closed."
                     (console_errors w)).
    { eapply hoare_conseq; [apply publishTaskEvent_down | auto | auto |].
      intros ? ? []. }
    intros ?. apply hoare_throw. auto.
Qed.

End Down.

(** X9: whether the publishing connection works never decides an attempt:
    two runs that differ only in that connection (and in what was published
    and printed before) end with the same result or the same error, the
    same job, the same reports and the same use of the worker's connection.
    With the publishing connection down nothing is published and the
    failure to publish is printed. *)
Theorem publishing_never_decides_an_attempt :
  forall amb w1 w2,
    agree w1 w2 ->
    fst (processor amb w1) = fst (processor amb w2) /\
    agree (snd (processor amb w1)) (snd (processor amb w2)) /\
    (pubsub_up w1 = false ->
     published (snd (processor amb w1)) = published w1 /\
     In "Failed to publish event: Connection is closed."
        (console_errors (snd (processor amb w1)))).
Proof.
  intros amb w1 w2 H.
  destruct (blind_processor amb w1 w2 H) as [E G].
  split; [exact E|]. split; [exact G|].
  intro D.
  pose proof (processor_down w1 amb w1 (conj eq_refl D)) as P.
  destruct (processor amb w1) as [[r|e] w']; simpl;
    destruct P as [[P1 _] P2]; now split.
Qed.

(** The same report job with the publishing connection down and up. *)
Lemma publishing_never_decides_an_attempt_witness :
  fst (processor amb0 (start_world report_job [] false))
    = fst (processor amb0 (start_world report_job [] true)) /\
  published (snd (processor amb0 (start_world report_job [] false))) = [].
Proof.
  destruct (publishing_never_decides_an_attempt amb0
              (start_world report_job [] false) (start_world report_job [] true))
    as (H1 & _ & H2).
  - repeat split.
  - split; [exact H1|]. exact (proj1 (H2 eq_refl)).
Defined.

End PublishingFacts.

(** ** The notification router: what it emits, and in which order *)

Module RouterFacts.
Import Js Env Eff Subscriber SubscriberFacts Samples.
Local Open Scope eff_scope.

(** A message adds to the emits made so far what it emits on its own. *)
Lemma deliver_emits amb s m :
  emitted (deliver amb s m) = (emitted s ++ emitted (deliver amb idle m))%list.
Proof.
  unfold deliver. rewrite (on_message_uniform amb (fst m) (snd m) s).
  rewrite (on_message_uniform amb (fst m) (snd m) idle).
  destruct (route_message amb (fst m) (snd m) idle) as [[[]|e] d]; simpl;
    [reflexivity | now rewrite app_nil_r].
Qed.

(** X10: the router keeps no state between messages: the emits of a
    sequence of messages are the emits each message causes on its own, in
    the order in which the messages arrive, after the emits made before. *)
Theorem emits_follow_the_order_of_the_messages :
  forall amb ms s,
    emitted (deliver_all amb ms s)
    = (emitted s ++ List.concat (map (fun m => emitted (deliver amb idle m)) ms))%list.
Proof.
  intros amb ms. induction ms as [|m ms IH]; intro s; simpl.
  - now rewrite app_nil_r.
  - change (deliver_all amb (m :: ms) s) with (deliver_all amb ms (deliver amb s m)).
    rewrite IH, deliver_emits. now rewrite app_assoc.
Qed.

Lemma user_room_prefix userId room :
  user_room userId = Ok room -> exists u, room = "user:" ++ u.
Proof.
  unfold user_room. destruct (to_string userId) as [u|]; simpl; [|discriminate].
  intro H. inversion H. now exists u.
Qed.

(** The emits of one message. *)
Lemma message_emits amb ch msg :
  let es := emitted (deliver amb idle (ch, msg)) in
  (List.length es <= 2)%nat /\
  Forall (fun e =>
            (event e = "notification" /\
             (target e = ToAll \/ exists u, target e = ToRoom ("user:" ++ u))) \/
            ((event e = "task:completed" \/ event e = "task:failed") /\
             event e = ch /\
             exists u, target e = ToRoom ("user:" ++ u)) \/
            (event e = "system:broadcast" /\ event e = ch /\ target e = ToAll)) es.
Proof.
  unfold deliver. cbn [fst snd]. rewrite on_message_uniform.
  destruct (route_message amb ch msg idle) as [[[]|e] d] eqn:R; cbn [snd];
    [|simpl; split; [lia | constructor]].
  destruct msg as [data|raw]; [|discriminate R].
  destruct (route_message_ok _ _ _ _ _ R) as [[userId G] H].
  unfold framed. cbn [emitted idle app].
  unfold handler_for in H.
  destruct (String.eqb_spec ch "task:completed") as [->|_].
  { destruct (handleTaskCompleted_emits _ _ _ _ _ H G) as [n E].
    destruct (has_recipient userId).
    - destruct E as (room & Er & ->). destruct (user_room_prefix _ _ Er) as [u ->].
      simpl. split; [lia|].
      constructor; [left; split; [reflexivity | right; now exists u]|].
      constructor; [|constructor].
      right. left. split; [auto|]. split; [reflexivity | now exists u].
    - subst d. simpl. split; [lia|].
      constructor; [left; split; [reflexivity | now left] | constructor]. }
  destruct (String.eqb_spec ch "task:failed") as [->|_].
  { destruct (handleTaskFailed_emits _ _ _ _ _ H G) as [n E].
    destruct (has_recipient userId).
    - destruct E as (room & Er & ->). destruct (user_room_prefix _ _ Er) as [u ->].
      simpl. split; [lia|].
      constructor; [left; split; [reflexivity | right; now exists u]|].
      constructor; [|constructor].
      right. left. split; [auto|]. split; [reflexivity | now exists u].
    - subst d. simpl. split; [lia|].
      constructor; [left; split; [reflexivity | now left] | constructor]. }
  destruct (String.eqb_spec ch "task:started") as [->|_].
  { pose proof (handleTaskStarted_emits _ _ _ _ _ H G) as E.
    destruct (has_recipient userId).
    - destruct E as (room & n & Er & ->). destruct (user_room_prefix _ _ Er) as [u ->].
      simpl. split; [lia|].
      constructor; [left; split; [reflexivity | right; now exists u] | constructor].
    - subst d. simpl. split; [lia | constructor]. }
  destruct (String.eqb_spec ch "system:broadcast") as [->|_].
  { destruct (handleSystemBroadcast_emits _ _ _ _ H) as [n ->].
    simpl. split; [lia|].
    constructor; [left; split; [reflexivity | now left]|].
    constructor; [|constructor].
    right. right. split; [reflexivity|]. split; reflexivity. }
  unfold console_warn, modify in H. inversion H; subst.
  simpl. split; [lia | constructor].
Qed.

(** X11: whatever the messages, every emit of the router is on the
    [notification] channel (to all clients or to a room [user:...]), or on
    [task:completed] or [task:failed] to a room [user:...] for a message of
    that channel, or on [system:broadcast] to all clients for a message of
    that channel; nothing is ever emitted on [task:started] or on an unknown
    channel, and a message causes two emits at most. *)
Theorem router_emits_on_four_channels_only :
  forall amb ms s,
    exists new,
      emitted (deliver_all amb ms s) = (emitted s ++ new)%list /\
      (List.length new <= 2 * List.length ms)%nat /\
      Forall (fun e =>
                (event e = "notification" /\
                 (target e = ToAll \/ exists u, target e = ToRoom ("user:" ++ u))) \/
                ((event e = "task:completed" \/ event e = "task:failed") /\
                 In (event e) (map fst ms) /\
                 exists u, target e = ToRoom ("user:" ++ u)) \/
                (event e = "system:broadcast" /\
                 In (event e) (map fst ms) /\ target e = ToAll)) new.
Proof.
  intros amb ms. induction ms as [|[ch msg] ms IH]; intro s.
  - exists []. simpl. rewrite app_nil_r. repeat split; [lia | constructor].
  - change (deliver_all amb ((ch, msg) :: ms) s)
      with (deliver_all amb ms (deliver amb s (ch, msg))).
    destruct (IH (deliver amb s (ch, msg))) as (new & E & L & F).
    destruct (message_emits amb ch msg) as [L1 F1].
    exists (emitted (deliver amb idle (ch, msg)) ++ new)%list.
    rewrite E, deliver_emits, <- app_assoc. split; [reflexivity|].
    split; [rewrite length_app; simpl List.length; lia|].
    apply Forall_app. split.
    + eapply Forall_impl; [|exact F1]. cbn beta.
      intros e [H|[(H1 & H2 & H3)|(H1 & H2 & H3)]]; [now left | |].
      * right. left. split; [exact H1|]. split; [left; now symmetry | exact H3].
      * right. right. split; [exact H1|]. split; [left; now symmetry | exact H3].
    + eapply Forall_impl; [|exact F]. cbn beta.
      intros e [H|[(H1 & H2 & H3)|(H1 & H2 & H3)]]; [now left | |].
      * right. left. split; [exact H1|]. split; [now right | exact H3].
      * right. right. split; [exact H1|]. split; [now right | exact H3].
Qed.

End RouterFacts.

(** ** From a submission with a user to the user's room *)

Module DeliveryFacts.
Import Js Env Producer Routes Eff Worker Subscriber.
Import RoutesFacts WorkerEventFacts SubscriberFacts EndToEndFacts Samples.

Lemma has_recipient_name u :
  u <> "" -> u <> "anonymous" -> has_recipient (JStr u) = true.
Proof.
  intros H1 H2. unfold has_recipient. simpl.
  apply String.eqb_neq in H1, H2. now rewrite H1, H2.
Qed.

(** The notification the router builds for a completion and for a failure
    the worker has published. *)
Lemma completed_for_user amb_w j res amb_n s u :
  jd_userId (data j) = Some u -> u <> "" -> u <> "anonymous" ->
  exists n,
    on_message amb_n "task:completed"
      (JSON_stringify (completed_event amb_w j res)) s
    = (Ok tt,
       add_emits s
         [{| target := ToRoom ("user:" ++ u); event := "notification"; payload := n |};
          {| target := ToRoom ("user:" ++ u); event := "task:completed"; payload := n |}]) /\
    get n "type" = Ok (JStr "success") /\
    get n "message"
      = Ok (JStr ("Your " ++ name j ++ " task has been completed")) /\
    get n "data"
      = Ok (JObj [("jobId", JStr (id j));
                  ("taskType", JStr (name j));
                  ("result", jsonify res);
                  ("duration", JNum (elapsed_ms amb_w));
                  ("completedAt", JStr (now_iso amb_w));
                  ("workerName", JStr (WORKER_NAME amb_w))]).
Proof.
  intros H H1 H2. pose proof (has_recipient_name u H1 H2) as R.
  unfold completed_event, userId_value. rewrite H.
  unfold on_message, route_message, try_catch, handler_for, handleTaskCompleted,
    log_value, emit, modify, Eff.bind, lift, ret, user_room, Js.bind.
  destruct res; simpl; rewrite R; simpl; unfold add_emits; simpl;
    rewrite <- app_assoc; simpl;
    (eexists; split; [reflexivity|]; repeat split).
Qed.

Lemma failed_for_user amb_w j e amb_n s u :
  jd_userId (data j) = Some u -> u <> "" -> u <> "anonymous" ->
  exists n,
    on_message amb_n "task:failed"
      (JSON_stringify (failed_event amb_w j e)) s
    = (Ok tt,
       add_emits s
         [{| target := ToRoom ("user:" ++ u); event := "notification"; payload := n |};
          {| target := ToRoom ("user:" ++ u); event := "task:failed"; payload := n |}]) /\
    get n "type" = Ok (JStr "error") /\
    get n "message" = Ok (JStr ("Your " ++ name j ++ " task has failed")) /\
    get n "data"
      = Ok (JObj [("jobId", JStr (id j));
                  ("taskType", JStr (name j));
                  ("error", JStr e);
                  ("attemptsMade", JNum (attemptsMade j + 1));
                  ("failedAt", JStr (now_iso amb_w));
                  ("workerName", JStr (WORKER_NAME amb_w))]).
Proof.
  intros H H1 H2. pose proof (has_recipient_name u H1 H2) as R.
  unfold failed_event, userId_value. rewrite H.
  unfold on_message, route_message, try_catch, handler_for, handleTaskFailed,
    log_value, emit, modify, Eff.bind, lift, ret, user_room, Js.bind.
  simpl; rewrite R; simpl. unfold add_emits; simpl.
  rewrite <- app_assoc; simpl.
  eexists; split; [reflexivity|]; repeat split.
Qed.

(** X12: a task submitted with a userId other than the empty string and
    ['anonymous'] is queued for that user; and in every attempt on that job
    every event the worker publishes, a completion or a failure (there is at
    least one), is emitted by the subscriber to the room [user:<userId>]
    only, on the [notification] channel and on the channel of its own
    name. *)
Theorem task_with_userId_reaches_the_room_of_the_user :
  forall amb req q u,
    body_userId req = Some u -> u <> "" -> u <> "anonymous" ->
    acceptable req -> store_up q = true ->
    exists queued,
      waiting (snd (post_task amb req q)) = (waiting q ++ [queued])%list /\
      jd_userId (data queued) = Some u /\
      forall amb_w w,
        data (job w) = data queued -> pubsub_up w = true ->
        exists new,
          published (snd (processor amb_w w)) = (published w ++ new)%list /\
          new <> [] /\
          forall ch msg,
            In (ch, msg) new ->
            (ch = "task:completed" \/ ch = "task:failed") /\
            forall amb_n s, exists n,
              on_message amb_n ch msg s
              = (Ok tt,
                 add_emits s
                   [{| target := ToRoom ("user:" ++ u);
                       event := "notification"; payload := n |};
                    {| target := ToRoom ("user:" ++ u);
                       event := ch; payload := n |}]).
Proof.
  intros amb req q u Hu N1 N2 A U.
  destruct (post_task_admits amb req q A U) as (j & Hw & Hj).
  rewrite Hu in Hj. simpl in Hj.
  apply String.eqb_neq in N1 as N1'. rewrite N1' in Hj.
  exists j. split; [exact Hw|]. split; [exact Hj|].
  intros amb_w w Hd Hup.
  assert (Ha : jd_userId (data (job w)) = Some u) by now rewrite Hd.
  pose proof (processor_events amb_w w Hup) as Hev.
  destruct (processor amb_w w) as [[res|e] w'].
  - destruct Hev as (Hp & _ & _). cbn [snd]. eexists. split; [exact Hp|].
    split; [discriminate|].
    intros ch msg [Heq|[]]. inversion Heq; subst. split; [now left|].
    intros amb_n s.
    destruct (completed_for_user amb_w (job w) res amb_n s u Ha N1 N2) as (n & E & _).
    now exists n.
  - destruct Hev as (pre & (Hp & _ & _) & Hpre). cbn [snd].
    eexists. split; [exact Hp|].
    split; [destruct pre; discriminate|].
    intros ch msg Hin. apply in_app_or in Hin.
    destruct Hin as [Hin|[Heq|[]]].
    + destruct Hpre as [->|[res ->]]; [contradiction|].
      destruct Hin as [Heq|[]]. inversion Heq; subst. split; [now left|].
      intros amb_n s.
      destruct (completed_for_user amb_w (job w) res amb_n s u Ha N1 N2) as (n & E & _).
      now exists n.
    + inversion Heq; subst. split; [now right|].
      intros amb_n s.
      destruct (failed_for_user amb_w (job w) e amb_n s u Ha N1 N2) as (n & E & _).
      now exists n.
Qed.

(** The request of the API tester, for the user [tester]. *)
Lemma task_with_userId_reaches_the_room_of_the_user_witness :
  exists queued,
    waiting (snd (post_task amb0 email_request empty_queue))
      = (waiting empty_queue ++ [queued])%list /\
    jd_userId (data queued) = Some "tester" /\
    exists new,
      published (snd (processor amb0 (start_world queued [] true)))
        = (published (start_world queued [] true) ++ new)%list /\
      new <> [] /\
      forall ch msg,
        In (ch, msg) new ->
        exists n,
          on_message amb0 ch msg idle
          = (Ok tt,
             add_emits idle
               [{| target := ToRoom "user:tester";
                   event := "notification"; payload := n |};
                {| target := ToRoom "user:tester"; event := ch; payload := n |}]).
Proof.
  destruct (task_with_userId_reaches_the_room_of_the_user
              amb0 email_request empty_queue "tester")
    as (queued & H1 & H2 & H3).
  - reflexivity.
  - discriminate.
  - discriminate.
  - unfold acceptable. simpl. repeat split; [now left | lia | lia].
  - reflexivity.
  - exists queued. split; [exact H1|]. split; [exact H2|].
    destruct (H3 amb0 (start_world queued [] true) eq_refl eq_refl)
      as (new & H4 & H5 & H6).
    exists new. split; [exact H4|]. split; [exact H5|].
    intros ch msg Hin. destruct (H6 ch msg Hin) as [_ H8].
    exact (H8 amb0 idle).
Defined.

(** X13: the user is told the outcome of the attempt: when an attempt on a
    job of a user returns, the last event published is a completion whose
    notification carries the id and type of the job and the result the
    attempt returned, as serialized; when it throws, the last event
    published is a failure whose notification carries the error thrown and
    the number of the attempt. *)
Theorem notification_carries_the_outcome_of_the_attempt :
  forall amb_w w u,
    pubsub_up w = true ->
    jd_userId (data (job w)) = Some u -> u <> "" -> u <> "anonymous" ->
    match processor amb_w w with
    | (Ok res, w') =>
        exists msg,
          published w' = (published w ++ [("task:completed", msg)])%list /\
          forall amb_n s, exists n,
            emitted (deliver amb_n s ("task:completed", msg))
            = (emitted s ++
               [{| target := ToRoom ("user:" ++ u);
                   event := "notification"; payload := n |};
                {| target := ToRoom ("user:" ++ u);
                   event := "task:completed"; payload := n |}])%list /\
            get n "type" = Ok (JStr "success") /\
            get n "data"
              = Ok (JObj [("jobId", JStr (id (job w)));
                          ("taskType", JStr (name (job w)));
                          ("result", jsonify res);
                          ("duration", JNum (elapsed_ms amb_w));
                          ("completedAt", JStr (now_iso amb_w));
                          ("workerName", JStr (WORKER_NAME amb_w))])
    | (Throw e, w') =>
        exists pre msg,
          published w' = (published w ++ pre ++ [("task:failed", msg)])%list /\
          forall amb_n s, exists n,
            emitted (deliver amb_n s ("task:failed", msg))
            = (emitted s ++
               [{| target := ToRoom ("user:" ++ u);
                   event := "notification"; payload := n |};
                {| target := ToRoom ("user:" ++ u);
                   event := "task:failed"; payload := n |}])%list /\
            get n "type" = Ok (JStr "error") /\
            get n "data"
              = Ok (JObj [("jobId", JStr (id (job w)));
                          ("taskType", JStr (name (job w)));
                          ("error", JStr e);
                          ("attemptsMade", JNum (attemptsMade (job w) + 1));
                          ("failedAt", JStr (now_iso amb_w));
                          ("workerName", JStr (WORKER_NAME amb_w))])
    end.
Proof.
  intros amb_w w u Hup Ha N1 N2.
  pose proof (processor_events amb_w w Hup) as Hev.
  destruct (processor amb_w w) as [[res|e] w'].
  - destruct Hev as (Hp & _ & _). eexists. split; [exact Hp|].
    intros amb_n s.
    destruct (completed_for_user amb_w (job w) res amb_n s u Ha N1 N2)
      as (n & E & T & _ & D).
    exists n. unfold deliver. cbn [fst snd]. rewrite E. now repeat split.
  - destruct Hev as (pre & (Hp & _ & _) & _). exists pre. eexists.
    split; [exact Hp|].
    intros amb_n s.
    destruct (failed_for_user amb_w (job w) e amb_n s u Ha N1 N2)
      as (n & E & T & _ & D).
    exists n. unfold deliver. cbn [fst snd]. rewrite E. now repeat split.
Qed.

(** A report job of alice whose third progress update fails. *)
Lemma notification_carries_the_outcome_of_the_attempt_witness :
  exists pre msg,
    published (snd (processor amb0 (start_world report_job [false; false; true] true)))
    = (pre ++ [("task:failed", msg)])%list /\
    exists n,
      emitted (deliver amb0 idle ("task:failed", msg))
      = [{| target := ToRoom "user:alice"; event := "notification"; payload := n |};
         {| target := ToRoom "user:alice"; event := "task:failed"; payload := n |}] /\
      get n "type" = Ok (JStr "error").
Proof.
  pose proof (notification_carries_the_outcome_of_the_attempt amb0
                (start_world report_job [false; false; true] true) "alice"
                eq_refl eq_refl) as H.
  assert (N1 : "alice" <> "") by discriminate.
  assert (N2 : "alice" <> "anonymous") by discriminate.
  specialize (H N1 N2).
  destruct (processor amb0 (start_world report_job [false; false; true] true))
    as [[res|e] w'] eqn:R.
  - vm_compute in R. discriminate R.
  - destruct H as (pre & msg & Hp & Hn). exists pre, msg. split; [exact Hp|].
    destruct (Hn amb0 idle) as (n & E & T & _). exists n. split; [exact E | exact T].
Defined.

End DeliveryFacts.

(** ** Task submission: the three answers and the job that is queued *)

Module SubmissionFacts.
Import Js Env Producer Routes RoutesFacts Samples.


(** X15: the job queued for a valid request has a queue priority between 0
    and 9, which is 5 when the request names no priority and falls as the
    requested priority rises; it has made no attempt, may make 3, and its
    user is never the empty string: a missing or empty userId is stored as
    ['anonymous']. *)
Theorem queued_job_priority_is_between_0_and_9 :
  forall amb req q,
    acceptable req -> store_up q = true ->
    exists job,
      waiting (snd (post_task amb req q)) = (waiting q ++ [job])%list /\
      0 <= prio job <= 9 /\
      (body_priority req = None -> prio job = 5) /\
      (forall p, body_priority req = Some p -> prio job = 10 - p) /\
      attemptsMade job = 0 /\ attempts (opts job) = 3 /\
      (exists u, jd_userId (data job) = Some u /\ u <> "" /\
                 ((body_userId req = None \/ body_userId req = Some "") ->
                  u = "anonymous")).
Proof.
  intros amb req q A U. pose proof A as (_ & _ & P).
  apply validateTask_nil in A.
  unfold post_task, addTaskToQueue, Queue_add. rewrite A, U.
  cbn [fst snd waiting]. eexists. split; [reflexivity|].
  unfold prio, requested_priority, priority_or_default.
  cbn [opts priority td_priority attemptsMade attempts data jd_userId td_userId].
  destruct (body_priority req) as [p|].
  - split; [lia|]. split; [discriminate|]. split; [now intros ? [= ->]|].
    split; [reflexivity|]. split; [reflexivity|].
    eexists. split; [reflexivity|]. unfold userId_or_anonymous.
    destruct (body_userId req) as [u|]; [|split; [discriminate | reflexivity]].
    destruct (String.eqb_spec u ""); [split; [discriminate | reflexivity]|].
    split; [assumption|]. intros [H|H]; [discriminate | congruence].
  - split; [lia|]. split; [reflexivity|]. split; [discriminate|].
    split; [reflexivity|]. split; [reflexivity|].
    eexists. split; [reflexivity|]. unfold userId_or_anonymous.
    destruct (body_userId req) as [u|]; [|split; [discriminate | reflexivity]].
    destruct (String.eqb_spec u ""); [split; [discriminate | reflexivity]|].
    split; [assumption|]. intros [H|H]; [discriminate | congruence].
Qed.

(** The request that names neither a priority nor a user. *)
Lemma queued_job_priority_is_between_0_and_9_witness :
  exists job,
    waiting (snd (post_task amb0 nameless_request empty_queue))
      = (waiting empty_queue ++ [job])%list /\
    prio job = 5 /\
    jd_userId (data job) = Some "anonymous".
Proof.
  destruct (queued_job_priority_is_between_0_and_9 amb0 nameless_request empty_queue)
    as (job & H1 & _ & H2 & _ & _ & _ & (u & H3 & _ & H4)).
  - unfold acceptable. simpl. repeat split. right. now left.
  - reflexivity.
  - exists job. split; [exact H1|]. split; [exact (H2 eq_refl)|].
    rewrite H3. f_equal. apply H4. now left.
Defined.

End SubmissionFacts.

(** ** The socket handlers: tracked clients, rooms and delivery *)

Module SocketFacts.
Import Js Env Eff Subscriber Sockets EffFacts SubscriberFacts Samples.
Local Open Scope eff_scope.

(** *** The tracked clients *)

Lemma find_map (f : Socket -> Socket) sid l :
  (forall s, socket_id (f s) = socket_id s) ->
  find (is_socket sid) (map f l) = option_map f (find (is_socket sid) l).
Proof.
  intro Hf. induction l as [|s l IH]; simpl; [reflexivity|].
  unfold is_socket at 1 3. rewrite Hf.
  destruct (String.eqb (socket_id s) sid); [reflexivity | exact IH].
Qed.

Lemma push_id ev pl s : socket_id (push ev pl s) = socket_id s.
Proof. reflexivity. Qed.

Lemma join_id room s : socket_id (join room s) = socket_id s.
Proof. unfold join. now destruct (in_room room s). Qed.

Lemma leave_id room s : socket_id (leave room s) = socket_id s.
Proof. reflexivity. Qed.

Lemma set_user_id u n s : socket_id (set_user u n s) = socket_id s.
Proof. reflexivity. Qed.

Lemma cond_id (p : Socket -> bool) (f : Socket -> Socket) :
  (forall s, socket_id (f s) = socket_id s) ->
  forall s, socket_id (if p s then f s else s) = socket_id s.
Proof. intros H s. destruct (p s); [apply H | reflexivity]. Qed.

Lemma Map_set_keys k v m k' :
  In k' (map fst (Map_set k v m)) -> k' = k \/ In k' (map fst m).
Proof.
  induction m as [|[k0 v0] m IH]; simpl.
  - intros [H|[]]. now left.
  - destruct (String.eqb k0 k); simpl; [auto|].
    intros [H|H]; [auto|]. destruct (IH H); auto.
Qed.

Lemma Map_delete_keys k m k' :
  In k' (map fst (Map_delete k m)) -> k' <> k /\ In k' (map fst m).
Proof.
  unfold Map_delete. intro H. apply in_map_iff in H.
  destruct H as ([k0 v0] & <- & H). apply filter_In in H. destruct H as [H1 H2].
  simpl in *. split.
  - apply negb_true_iff, String.eqb_neq in H2. exact H2.
  - apply in_map_iff. now exists (k0, v0).
Qed.

Lemma find_app_some (p : Socket -> bool) l l' x :
  find p l = Some x -> find p (l ++ l') = Some x.
Proof.
  induction l as [|a l IH]; simpl; [discriminate|].
  destruct (p a); auto.
Qed.

Lemma find_filter_other k sid l x :
  find (is_socket k) l = Some x -> k <> sid ->
  find (is_socket k) (filter (fun s' => negb (is_socket sid s')) l) = Some x.
Proof.
  intros F N. induction l as [|a l IH]; [discriminate|].
  simpl in F. simpl. destruct (is_socket k a) eqn:Ka.
  - assert (Na : is_socket sid a = false).
    { unfold is_socket in *. apply String.eqb_eq in Ka.
      apply String.eqb_neq. congruence. }
    rewrite Na. simpl. now rewrite Ka.
  - destruct (negb (is_socket sid a)); simpl; [rewrite Ka|]; auto.
Qed.

Lemma find_socket_id sid io s : find_socket sid io = Some s -> socket_id s = sid.
Proof.
  unfold find_socket. intro F. apply find_some in F. destruct F as [_ F].
  unfold is_socket in F. now apply String.eqb_eq.
Qed.

Lemma connected_map (f : Socket -> Socket) k io :
  (forall s, socket_id (f s) = socket_id s) ->
  connected k (with_sockets (map f (sockets io)) io) <-> connected k io.
Proof.
  intro Hf. unfold connected, find_socket. simpl. rewrite find_map by exact Hf.
  destruct (find (is_socket k) (sockets io)); simpl; split; congruence.
Qed.

Section Tracked.
Variable sid : string.

Lemma mapped_tracked (f : Socket -> Socket) :
  (forall s, socket_id (f s) = socket_id s) ->
  preserves (fun io => tracked_are_connected io /\ connected sid io)
            (modify (fun io => with_sockets (map f (sockets io)) io)).
Proof.
  intros Hf. apply hoare_modify. intros io [H1 H2]. split.
  - intros k Hk. apply connected_map; [exact Hf|]. now apply H1.
  - apply connected_map; [exact Hf | exact H2].
Qed.

Lemma emit_where_tracked p ev pl :
  preserves (fun io => tracked_are_connected io /\ connected sid io)
            (emit_where p ev pl).
Proof. apply mapped_tracked. apply cond_id. apply push_id. Qed.

Lemma join_tracked sid0 room :
  preserves (fun io => tracked_are_connected io /\ connected sid io)
            (update_socket sid0 (join room)).
Proof. apply mapped_tracked. apply cond_id. apply join_id. Qed.

Lemma leave_tracked sid0 room :
  preserves (fun io => tracked_are_connected io /\ connected sid io)
            (update_socket sid0 (leave room)).
Proof. apply mapped_tracked. apply cond_id. apply leave_id. Qed.

Lemma set_user_tracked sid0 u n :
  preserves (fun io => tracked_are_connected io /\ connected sid io)
            (update_socket sid0 (set_user u n)).
Proof. apply mapped_tracked. apply cond_id. apply set_user_id. Qed.

Lemma Map_set_tracked v :
  preserves (fun io => tracked_are_connected io /\ connected sid io)
    (modify (fun io =>
       with_connectedClients (Map_set sid v (connectedClients io)) io)).
Proof.
  apply hoare_modify. intros io [H1 H2]. split; [|exact H2].
  intros k Hk. simpl in Hk. apply Map_set_keys in Hk.
  destruct Hk as [->|Hk]; [exact H2 | now apply H1].
Qed.

End Tracked.

Ltac keep_tracked :=
  unfold on_identify, on_join_room, on_leave_room, on_ping,
    on_request_notification, on_broadcast,
    socket_emit, socket_to_emit, socket_broadcast_emit, io_emit, io_to_emit,
    socket_join, socket_leave;
  repeat first
    [ apply preserves_ret
    | apply preserves_lift
    | apply preserves_log_value
    | apply emit_where_tracked
    | apply join_tracked
    | apply leave_tracked
    | apply set_user_tracked
    | apply Map_set_tracked
    | apply preserves_bind; [|intros ?]
    | apply preserves_if ].

Lemma hoare_for_socket (P : Io -> Prop) sid (h : Socket -> M Io unit)
  (Q : unit -> Io -> Prop) E :
  (forall io, P io -> Q tt io) ->
  (forall s, hoare (fun io => P io /\ find_socket sid io = Some s) (h s) Q E) ->
  hoare P (for_socket sid h) Q E.
Proof.
  intros H0 H io Hio. unfold for_socket.
  destruct (find_socket sid io) as [s|] eqn:F; [|now apply H0].
  now apply H.
Qed.

(** The handler of a connected socket keeps the tracked clients
    connected. *)
Lemma handler_tracked sid (h : Socket -> M Io unit) :
  (forall s, preserves (fun io => tracked_are_connected io /\
                                  connected (socket_id s) io) (h s)) ->
  hoare tracked_are_connected (for_socket sid h)
        (fun _ => tracked_are_connected) (fun _ _ => True).
Proof.
  intro H. apply hoare_for_socket; [auto|]. intros s.
  eapply hoare_conseq; [apply (H s) | | |].
  - intros io [H1 F]. split; [exact H1|].
    unfold connected. rewrite (find_socket_id _ _ _ F), F. discriminate.
  - intros ? io H1. exact (proj1 H1).
  - intros; exact I.
Qed.

Lemma on_event_tracked amb e :
  hoare tracked_are_connected (on_event amb e)
        (fun _ => tracked_are_connected) (fun _ _ => True).
Proof.
  destruct e as [sid|sid data|sid room|sid room|sid|sid data|sid data|sid|n];
    cbn [on_event];
    [ | apply handler_tracked; intros s; keep_tracked .. | | ].
  - intros io H. destruct (find_socket sid io) eqn:F; [exact H|].
    assert (G : tracked_are_connected
                  (with_sockets (sockets io ++ [new_socket sid]) io)).
    { intros k Hk. specialize (H k Hk). unfold connected, find_socket in *. simpl.
      destruct (find (is_socket k) (sockets io)) eqn:Fk; [|contradiction].
      now rewrite (find_app_some _ _ _ _ Fk). }
    revert G. generalize (with_sockets (sockets io ++ [new_socket sid]) io).
    clear. intros io G.
    unfold on_connection, socket_emit, emit_where, modify, gets, Eff.bind. cbn.
    match goal with
    | |- context [?a <? ?b] => destruct (a <? b)
    end; intros k Hk; apply connected_map;
      try (apply cond_id; apply push_id); now apply G.
  - apply hoare_for_socket; [auto|]. intros s io [H F].
    unfold on_disconnect, socket_broadcast_emit, emit_where, log_value, modify,
      lift, ret, Eff.bind.
    destruct (to_string (username_or s "Unknown")); [|exact I].
    assert (G : forall k, In k (map fst (Map_delete (socket_id s) (connectedClients io))) ->
                find (is_socket k)
                     (filter (fun s' => negb (is_socket sid s')) (sockets io)) <> None).
    { intros k Hk. apply Map_delete_keys in Hk. destruct Hk as [Hn Hk].
      rewrite (find_socket_id _ _ _ F) in Hn.
      specialize (H k Hk). unfold connected, find_socket in H.
      destruct (find (is_socket k) (sockets io)) as [x|] eqn:Fk; [|contradiction].
      now rewrite (find_filter_other _ _ _ _ Fk Hn). }
    destruct (truthy (userId s)); cbn; intros k Hk.
    + unfold connected, find_socket. cbn.
      rewrite find_map by (apply cond_id; apply push_id).
      specialize (G k Hk).
      now destruct (find (is_socket k)
                      (filter (fun s' => negb (is_socket sid s')) (sockets io))).
    + exact (G k Hk).
  - apply hoare_modify. intros io H. exact H.
Qed.

Lemma on_events_tracked amb es :
  hoare tracked_are_connected (on_events amb es)
        (fun _ => tracked_are_connected) (fun _ _ => True).
Proof.
  induction es as [|e es IH]; simpl.
  - now apply hoare_ret.
  - eapply hoare_bind; [apply on_event_tracked | intros ?; exact IH].
Qed.

(** X17: as long as no handler has thrown, every client in
    [connectedClients] is a connected socket: an entry is made only for a
    socket that is connected and is removed when that socket disconnects. *)
Theorem tracked_clients_are_connected :
  forall amb es io,
    on_events amb es no_clients = (Ok tt, io) ->
    forall sid, In sid (map fst (connectedClients io)) -> connected sid io.
Proof.
  intros amb es io R.
  assert (H0 : tracked_are_connected no_clients) by (intros k []).
  pose proof (on_events_tracked amb es no_clients H0) as H.
  rewrite R in H. exact H.
Qed.

(** Two clients identify and the first one disconnects. *)
Lemma tracked_clients_are_connected_witness :
  map fst (connectedClients
             (snd (on_events amb0
                     [Connection "a"; Connection "b";
                      Identify "a" (JObj [("userId", JStr "alice")]);
                      Identify "b" (JObj [("userId", JStr "bob")]);
                      Disconnect "a"] no_clients))) = ["b"] /\
  connected "b"
    (snd (on_events amb0
            [Connection "a"; Connection "b";
             Identify "a" (JObj [("userId", JStr "alice")]);
             Identify "b" (JObj [("userId", JStr "bob")]);
             Disconnect "a"] no_clients)).
Proof.
  split; [vm_compute; reflexivity|].
  apply (tracked_clients_are_connected amb0
           [Connection "a"; Connection "b";
            Identify "a" (JObj [("userId", JStr "alice")]);
            Identify "b" (JObj [("userId", JStr "bob")]);
            Disconnect "a"]).
  - vm_compute. reflexivity.
  - vm_compute. left. reflexivity.
Defined.

(** *** Rooms *)

Lemma preserves_snd {A} (P : Io -> Prop) (m : M Io A) io :
  preserves P m -> P io -> P (snd (m io)).
Proof.
  intros H Hio. specialize (H io Hio). now destruct (m io) as [[a|e] io'].
Qed.

Lemma hoare_bind_lift_ok {A B} (P : Io -> Prop) (a : A) (k : A -> M Io B) Q E :
  hoare P (k a) Q E -> hoare P (Eff.bind (lift (Ok a)) k) Q E.
Proof. intros H io Hio. exact (H io Hio). Qed.

Lemma hoare_bind_lift_throw {A B} (P : Io -> Prop) e (k : A -> M Io B)
  (Q : B -> Io -> Prop) (E : string -> Io -> Prop) :
  (forall io, P io -> E e io) -> hoare P (Eff.bind (lift (Throw e)) k) Q E.
Proof. intros H io Hio. exact (H io Hio). Qed.

Lemma member_map (f : Socket -> Socket) sid room io :
  (forall s, socket_id (f s) = socket_id s) ->
  (forall s, is_socket sid s = true -> in_room room (f s) = in_room room s) ->
  member sid room (with_sockets (map f (sockets io)) io) = member sid room io.
Proof.
  intros Hf Hr. unfold member, find_socket. simpl. rewrite find_map by exact Hf.
  destruct (find (is_socket sid) (sockets io)) as [s|] eqn:F; [|reflexivity].
  simpl. apply Hr. now apply find_some in F.
Qed.

Lemma other_socket sid0 sid s :
  sid0 <> sid -> is_socket sid s = true -> is_socket sid0 s = false.
Proof.
  unfold is_socket. intros N H. apply String.eqb_eq in H.
  apply String.eqb_neq. congruence.
Qed.

Lemma in_room_join_other room0 room s :
  room0 <> room -> in_room room (join room0 s) = in_room room s.
Proof.
  intro N. unfold join. destruct (in_room room0 s); [reflexivity|].
  unfold in_room. simpl. rewrite existsb_app. simpl.
  apply String.eqb_neq in N. rewrite String.eqb_sym, N.
  now rewrite !orb_false_r.
Qed.

Lemma in_room_leave_other room0 room s :
  room0 <> room -> in_room room (leave room0 s) = in_room room s.
Proof.
  intro N. unfold leave, in_room. simpl.
  induction (rooms s) as [|r l IH]; simpl; [reflexivity|].
  destruct (String.eqb_spec r room0) as [->|Hr]; simpl.
  - rewrite IH. apply String.eqb_neq in N.
    now rewrite String.eqb_sym, N.
  - now rewrite IH.
Qed.

Section Member.
Variables (sid room : string) (b : bool).

Lemma emit_where_member p ev pl :
  preserves (fun io => member sid room io = b) (emit_where p ev pl).
Proof.
  apply hoare_modify. intros io H. rewrite member_map; [exact H | |].
  - apply cond_id. apply push_id.
  - intros s _. now destruct (p s).
Qed.

Lemma set_user_member sid0 u n :
  preserves (fun io => member sid room io = b) (update_socket sid0 (set_user u n)).
Proof.
  apply hoare_modify. intros io H. rewrite member_map; [exact H | |].
  - apply cond_id. apply set_user_id.
  - intros s _. now destruct (is_socket sid0 s).
Qed.

Lemma track_member (f : Io -> list (string * JsVal)) :
  preserves (fun io => member sid room io = b)
            (modify (fun io => with_connectedClients (f io) io)).
Proof. apply hoare_modify. intros io H. exact H. Qed.

Lemma join_member sid0 room0 :
  sid0 <> sid \/ room0 <> room ->
  preserves (fun io => member sid room io = b) (update_socket sid0 (join room0)).
Proof.
  intro N. apply hoare_modify. intros io H. rewrite member_map; [exact H | |].
  - apply cond_id. apply join_id.
  - intros s Hs. destruct N as [N|N].
    + now rewrite (other_socket _ _ _ N Hs).
    + destruct (is_socket sid0 s); [now apply in_room_join_other | reflexivity].
Qed.

Lemma leave_member sid0 room0 :
  sid0 <> sid \/ room0 <> room ->
  preserves (fun io => member sid room io = b) (update_socket sid0 (leave room0)).
Proof.
  intro N. apply hoare_modify. intros io H. rewrite member_map; [exact H | |].
  - apply cond_id. apply leave_id.
  - intros s Hs. destruct N as [N|N].
    + now rewrite (other_socket _ _ _ N Hs).
    + destruct (is_socket sid0 s); [now apply in_room_leave_other | reflexivity].
Qed.

Lemma on_identify_member amb sid0 data :
  (sid0 <> sid \/
   forall u, destructure data "userId" = Ok u -> user_room u <> Ok room) ->
  preserves (fun io => member sid room io = b) (on_identify amb sid0 data).
Proof.
  intro N. unfold on_identify.
  destruct (destructure data "userId") as [u|e] eqn:D;
    [apply hoare_bind_lift_ok | now apply hoare_bind_lift_throw].
  apply preserves_bind; [apply preserves_lift|]. intros n.
  apply preserves_bind; [apply set_user_member|]. intros ?.
  apply preserves_bind; [apply track_member|]. intros ?.
  destruct (user_room u) as [room0|e] eqn:R;
    [apply hoare_bind_lift_ok | now apply hoare_bind_lift_throw].
  apply preserves_bind.
  { apply join_member. destruct N as [N|N]; [now left | right].
    intros ->. now apply (N u). }
  intros ?. apply preserves_bind; [apply preserves_log_value|].
  intros ?. apply emit_where_member.
Qed.

End Member.

Ltac keep_member :=
  unfold on_join_room, on_leave_room, on_ping,
    on_request_notification, on_broadcast, on_disconnect,
    socket_emit, socket_to_emit, socket_broadcast_emit, io_emit, io_to_emit,
    socket_join, socket_leave;
  repeat first
    [ apply preserves_ret
    | apply preserves_lift
    | apply preserves_log_value
    | apply emit_where_member
    | apply track_member
    | apply preserves_bind; [|intros ?]
    | apply preserves_if ].

Lemma find_app_other sid sid0 l :
  sid0 <> sid ->
  find (is_socket sid) (l ++ [new_socket sid0]) = find (is_socket sid) l.
Proof.
  intro N. induction l as [|a l IH]; simpl.
  - unfold is_socket. simpl. apply String.eqb_neq in N. now rewrite N.
  - now destruct (is_socket sid a).
Qed.

Lemma find_app_new sid l :
  find (is_socket sid) l = None ->
  find (is_socket sid) (l ++ [new_socket sid]) = Some (new_socket sid).
Proof.
  intro F. induction l as [|a l IH]; simpl.
  - unfold is_socket. simpl. now rewrite String.eqb_refl.
  - simpl in F. destruct (is_socket sid a); [discriminate | now apply IH].
Qed.

Lemma find_filter_self sid l :
  find (is_socket sid) (filter (fun s' => negb (is_socket sid s')) l) = None.
Proof.
  induction l as [|a l IH]; simpl; [reflexivity|].
  destruct (is_socket sid a) eqn:A; simpl; [exact IH | now rewrite A].
Qed.

Lemma find_filter_none k sid l :
  find (is_socket k) l = None ->
  find (is_socket k) (filter (fun s' => negb (is_socket sid s')) l) = None.
Proof.
  intro F. induction l as [|a l IH]; simpl; [reflexivity|].
  simpl in F. destruct (is_socket k a) eqn:A; [discriminate|].
  destruct (negb (is_socket sid a)); simpl; [rewrite A|]; auto.
Qed.

(** An event of another socket, or an event that neither joins nor leaves
    [room], leaves the membership of [sid] in [room] as it was. *)
Lemma on_connection_member amb sid0 sid room b :
  preserves (fun io => member sid room io = b) (on_connection amb sid0).
Proof.
  unfold on_connection, socket_emit.
  apply preserves_bind; [apply hoare_modify; auto|]. intros ?.
  apply preserves_bind; [apply preserves_gets|]. intros c.
  apply preserves_bind; [|intros ?; apply emit_where_member].
  apply hoare_modify. intros io H. now destruct (peakConnections io <? c).
Qed.

Lemma for_socket_member sid0 sid room b (h : Socket -> M Io unit) :
  (forall s, socket_id s = sid0 ->
             preserves (fun io => member sid room io = b) (h s)) ->
  preserves (fun io => member sid room io = b) (for_socket sid0 h).
Proof.
  intros H io Hio. unfold for_socket.
  destruct (find_socket sid0 io) as [s|] eqn:F; [|exact Hio].
  apply H; [now apply (find_socket_id _ io) | exact Hio].
Qed.

Lemma removal_member sid0 sid room b :
  sid0 <> sid ->
  preserves (fun io => member sid room io = b)
    (modify (fun io =>
       with_sockets (filter (fun s' => negb (is_socket sid0 s')) (sockets io)) io)).
Proof.
  intro N. apply hoare_modify. intros io H. unfold member, find_socket in *. simpl.
  destruct (find (is_socket sid) (sockets io)) as [s|] eqn:F.
  - now rewrite (find_filter_other _ _ _ _ F (not_eq_sym N)).
  - now rewrite (find_filter_none _ _ _ F).
Qed.

(** X18: the membership of a socket in a room changes only through an event
    of that socket itself: its connection (the room named by its id), an
    [identify] whose userId gives the room [user:<userId>], a [join_room] or
    a [leave_room] for that room, or its disconnection.  No event of another
    socket, no ping, notification request or broadcast, and no error in a
    handler changes it. *)
Theorem membership_changes_only_by_the_sockets_own_events :
  forall amb e io sid room,
    member sid room (snd (on_event amb e io)) <> member sid room io ->
    (e = Connection sid /\ room = sid) \/
    (exists data u, e = Identify sid data /\
                    destructure data "userId" = Ok u /\ user_room u = Ok room) \/
    e = JoinRoom sid room \/ e = LeaveRoom sid room \/ e = Disconnect sid.
Proof.
  intros amb e io sid room H.
  assert (K : forall m : M Io unit,
            preserves (fun io' => member sid room io' = member sid room io) m ->
            member sid room (snd (m io)) = member sid room io).
  { intros m Hm. now apply (preserves_snd _ m io Hm). }
  destruct e as [sid0|sid0 data|sid0 room0|sid0 room0|sid0|sid0 data|sid0 data|sid0|n].
  - destruct (String.eqb_spec sid0 sid) as [->|N].
    + destruct (String.eqb_spec room sid) as [->|Nr]; [now left|].
      exfalso. apply H. cbn [on_event].
      destruct (find_socket sid io) as [s|] eqn:F; [reflexivity|].
      assert (M0 : member sid room io = false) by (unfold member; now rewrite F).
      rewrite M0.
      apply (preserves_snd _ _ _ (on_connection_member amb sid sid room false)).
      unfold member, find_socket in *. simpl. rewrite (find_app_new _ _ F).
      unfold in_room. simpl. apply String.eqb_neq in Nr. now rewrite Nr.
    + exfalso. apply H. cbn [on_event].
      destruct (find_socket sid0 io) as [s|] eqn:F; [reflexivity|].
      apply (preserves_snd _ _ _ (on_connection_member amb sid0 sid room _)).
      unfold member, find_socket. simpl. now rewrite (find_app_other _ _ _ N).
  - destruct (String.eqb_spec sid0 sid) as [->|N].
    + destruct (destructure data "userId") as [u|e0] eqn:D.
      * destruct (user_room u) as [room0|e0] eqn:R.
        -- destruct (String.eqb_spec room0 room) as [->|Nr].
           ++ right. left. now exists data, u.
           ++ exfalso. apply H. apply K. cbn [on_event].
              apply for_socket_member. intros s Hs. rewrite Hs. apply on_identify_member.
              right. intros u' Du. rewrite D in Du. inversion Du; subst.
              rewrite R. congruence.
        -- exfalso. apply H. apply K. cbn [on_event].
           apply for_socket_member. intros s Hs. rewrite Hs. apply on_identify_member.
           right. intros u' Du. rewrite D in Du. inversion Du; subst.
           rewrite R. discriminate.
      * exfalso. apply H. apply K. cbn [on_event].
        apply for_socket_member. intros s Hs. rewrite Hs. apply on_identify_member.
        right. intros u' Du. rewrite D in Du. discriminate.
    + exfalso. apply H. apply K. cbn [on_event].
      apply for_socket_member. intros s Hs. rewrite Hs. apply on_identify_member. now left.
  - destruct (String.eqb_spec sid0 sid) as [->|N];
      [destruct (String.eqb_spec room0 room) as [->|Nr]; [auto|]|];
      exfalso; apply H; apply K; cbn [on_event];
      apply for_socket_member; intros s Hs; unfold on_join_room, socket_join;
      rewrite Hs;
      (apply preserves_bind; [apply join_member; auto | intros ?; keep_member]).
  - destruct (String.eqb_spec sid0 sid) as [->|N];
      [destruct (String.eqb_spec room0 room) as [->|Nr]; [auto|]|];
      exfalso; apply H; apply K; cbn [on_event];
      apply for_socket_member; intros s Hs; unfold on_leave_room, socket_leave;
      rewrite Hs;
      (apply preserves_bind; [apply leave_member; auto | intros ?; keep_member]).
  - exfalso. apply H. apply K. cbn [on_event].
    apply for_socket_member. intros s _. keep_member.
  - exfalso. apply H. apply K. cbn [on_event].
    apply for_socket_member. intros s _. keep_member.
  - exfalso. apply H. apply K. cbn [on_event].
    apply for_socket_member. intros s _. keep_member.
  - destruct (String.eqb_spec sid0 sid) as [->|N]; [auto 6|].
    exfalso. apply H. apply K. cbn [on_event].
    apply for_socket_member. intros s _.
    apply preserves_bind; [now apply removal_member | intros ?; keep_member].
  - exfalso. apply H. reflexivity.
Qed.

(** A socket joins the room of another user. *)
Lemma membership_changes_only_by_the_sockets_own_events_witness :
  (JoinRoom "b" "user:alice" = Connection "b" /\ "user:alice" = "b") \/
  (exists data u, JoinRoom "b" "user:alice" = Identify "b" data /\
                  destructure data "userId" = Ok u /\
                  user_room u = Ok "user:alice") \/
  JoinRoom "b" "user:alice" = JoinRoom "b" "user:alice" \/
  JoinRoom "b" "user:alice" = LeaveRoom "b" "user:alice" \/
  JoinRoom "b" "user:alice" = Disconnect "b".
Proof.
  apply (membership_changes_only_by_the_sockets_own_events amb0
           (JoinRoom "b" "user:alice")
           (snd (on_events amb0 [Connection "a"; Connection "b"] no_clients))).
  vm_compute. discriminate.
Defined.

(** *** Delivery *)

Lemma inbox_map (f : Socket -> Socket) sid io :
  (forall s, socket_id (f s) = socket_id s) ->
  inbox sid (with_sockets (map f (sockets io)) io)
  = match find_socket sid io with
    | Some s => received (f s)
    | None => []
    end.
Proof.
  intros Hf. unfold inbox, find_socket. simpl. rewrite find_map by exact Hf.
  now destruct (find (is_socket sid) (sockets io)).
Qed.

Lemma io_to_emit_inbox room ev pl sid io :
  inbox sid (snd (io_to_emit room ev pl io))
  = if member sid room io then (inbox sid io ++ [(ev, pl)])%list else inbox sid io.
Proof.
  unfold io_to_emit, emit_where, modify. cbn [snd].
  rewrite inbox_map by (apply cond_id; apply push_id).
  unfold member, inbox.
  destruct (find_socket sid io) as [s|]; [|reflexivity].
  now destruct (in_room room s).
Qed.

Lemma io_emit_inbox ev pl sid io :
  connected sid io ->
  inbox sid (snd (io_emit ev pl io)) = (inbox sid io ++ [(ev, pl)])%list.
Proof.
  intro C. unfold io_emit, emit_where, modify. cbn [snd].
  rewrite inbox_map by (intros ?; reflexivity).
  unfold connected, inbox in *.
  now destruct (find_socket sid io) as [s|].
Qed.

Lemma io_to_emit_member room0 ev pl sid room io :
  member sid room (snd (io_to_emit room0 ev pl io)) = member sid room io.
Proof.
  apply (preserves_snd (fun io' => member sid room io' = member sid room io)
           (io_to_emit room0 ev pl) io); [apply emit_where_member | reflexivity].
Qed.

(** Two emits to a room, and an emit to all. *)
Lemma two_to_room room ev1 ev2 n sid io :
  inbox sid
    (snd (perform_all
            [{| target := ToRoom room; event := ev1; payload := n |};
             {| target := ToRoom room; event := ev2; payload := n |}] io))
  = if member sid room io
    then (inbox sid io ++ [(ev1, n); (ev2, n)])%list
    else inbox sid io.
Proof.
  change (inbox sid
            (snd (io_to_emit room ev2 n (snd (io_to_emit room ev1 n io))))
          = if member sid room io
            then (inbox sid io ++ [(ev1, n); (ev2, n)])%list
            else inbox sid io).
  rewrite io_to_emit_inbox, io_to_emit_member, io_to_emit_inbox.
  destruct (member sid room io); [now rewrite <- app_assoc | reflexivity].
Qed.

Lemma one_to_all ev n sid io :
  connected sid io ->
  inbox sid (snd (perform_all [{| target := ToAll; event := ev; payload := n |}] io))
  = (inbox sid io ++ [(ev, n)])%list.
Proof.
  intro C.
  change (inbox sid (snd (io_emit ev n io)) = (inbox sid io ++ [(ev, n)])%list).
  now apply io_emit_inbox.
Qed.

(** The emits of a completion or failure, by recipient. *)
Lemma task_event_emits amb ch ev d u :
  ch = "task:completed" \/ ch = "task:failed" ->
  route_message amb ch (Serialized ev) idle = (Ok tt, d) ->
  get ev "userId" = Ok u ->
  exists n,
    if has_recipient u
    then exists room,
           user_room u = Ok room /\
           emitted d
           = [{| target := ToRoom room; event := "notification"; payload := n |};
              {| target := ToRoom room; event := ch; payload := n |}]
    else emitted d = [{| target := ToAll; event := "notification"; payload := n |}].
Proof.
  intros C R G. destruct (route_message_ok _ _ _ _ _ R) as [_ H].
  destruct C as [-> | ->].
  - change (handleTaskCompleted amb ev idle = (Ok tt, d)) in H.
    destruct (handleTaskCompleted_emits _ _ _ _ _ H G) as [n E]. exists n.
    destruct (has_recipient u).
    + destruct E as (room & Er & ->). now exists room.
    + now subst d.
  - change (handleTaskFailed amb ev idle = (Ok tt, d)) in H.
    destruct (handleTaskFailed_emits _ _ _ _ _ H G) as [n E]. exists n.
    destruct (has_recipient u).
    + destruct E as (room & Er & ->). now exists room.
    + now subst d.
Qed.

(** X19: when the emits of a completion or failure are made on the server,
    an event with a recipient reaches the sockets that are in the room
    [user:<userId>], each on the [notification] channel and then on the
    channel of the event, and no other socket receives anything; an event
    without recipient reaches every connected socket, on the [notification]
    channel only. *)
Theorem task_event_reaches_the_room_or_everyone :
  forall amb ch ev d u io,
    ch = "task:completed" \/ ch = "task:failed" ->
    route_message amb ch (Serialized ev) idle = (Ok tt, d) ->
    get ev "userId" = Ok u ->
    exists n,
      if has_recipient u
      then exists room,
             user_room u = Ok room /\
             forall sid,
               inbox sid (snd (perform_all (emitted d) io))
               = if member sid room io
                 then (inbox sid io ++ [("notification", n); (ch, n)])%list
                 else inbox sid io
      else forall sid,
             connected sid io ->
             inbox sid (snd (perform_all (emitted d) io))
             = (inbox sid io ++ [("notification", n)])%list.
Proof.
  intros amb ch ev d u io C R G.
  destruct (task_event_emits amb ch ev d u C R G) as [n E]. exists n.
  destruct (has_recipient u).
  - destruct E as (room & Er & ->). exists room. split; [exact Er|].
    intro sid. apply two_to_room.
  - rewrite E. intros sid Hc. now apply one_to_all.
Qed.

(** A completion for alice, with alice identified on socket [a] and another
    client on socket [b]. *)
Lemma task_event_reaches_the_room_or_everyone_witness :
  exists n room,
    user_room (JStr "alice") = Ok room /\
    forall sid,
      inbox sid
        (snd (perform_all
                (emitted (snd (route_message amb0 "task:completed"
                                 (Serialized alice_event) idle)))
                (snd (on_events amb0
                        [Connection "a"; Connection "b";
                         Identify "a" (JObj [("userId", JStr "alice")])]
                        no_clients))))
      = if member sid room
             (snd (on_events amb0
                     [Connection "a"; Connection "b";
                      Identify "a" (JObj [("userId", JStr "alice")])]
                     no_clients))
        then (inbox sid
                (snd (on_events amb0
                        [Connection "a"; Connection "b";
                         Identify "a" (JObj [("userId", JStr "alice")])]
                        no_clients))
              ++ [("notification", n); ("task:completed", n)])%list
        else inbox sid
               (snd (on_events amb0
                       [Connection "a"; Connection "b";
                        Identify "a" (JObj [("userId", JStr "alice")])]
                       no_clients)).
Proof.
  assert (R : route_message amb0 "task:completed" (Serialized alice_event) idle
              = (Ok tt, snd (route_message amb0 "task:completed"
                               (Serialized alice_event) idle)))
    by (vm_compute; reflexivity).
  destruct (task_event_reaches_the_room_or_everyone amb0 "task:completed" alice_event
              (snd (route_message amb0 "task:completed" (Serialized alice_event) idle))
              (JStr "alice")
              (snd (on_events amb0
                      [Connection "a"; Connection "b";
                       Identify "a" (JObj [("userId", JStr "alice")])]
                      no_clients))
              (or_introl eq_refl) R eq_refl) as [n H].
  exists n. exact H.
Defined.








End SocketFacts.
